(** * goloop: peer transport, handler chain and state-sync client

    A shallow embedding of the parts of the [network] and [service/sync]
    packages that the specification of the peer-to-peer transport talks
    about:

    - [network/transport.go]: [NewTransport], [Listener], [peerHandler],
      [PeerDispatcher], [Peer], [NetAddress];
    - [service/sync/client.go], [service/sync/manager.go]: [client],
      [Manager].

    Mutable Go objects become records that are passed and returned;
    everything a method does to the outside world (closing the connection,
    closing a channel, calling a callback, logging) is recorded as an
    [Event], oldest first.  A Go [nil] is [None]; a run-time panic is the
    [Panicked] outcome.  [peerHandler.onError] calls [p.Close()] without
    the reason that [Peer.Close] takes: what that call records is the
    parameter [OnErrorClose], and every property of code that can reach
    it holds for every value of it. *)

From Stdlib Require Import ZArith String Ascii List Bool Lia.
From stdpp Require Import base option list gmap strings.

Local Open Scope string_scope.
Local Open Scope list_scope.

(** ** Outcomes of Go calls *)

Inductive Outcome (A : Type) : Type :=
| Returned (a : A)
| Panicked (why : string).
Arguments Returned {A} a.
Arguments Panicked {A} why.

(** ** Package network *)

Module Network.

(** [module.PeerID]: the identifier bytes of a node. *)
Definition PeerID : Type := string.

(** Modelled from the spec: the implementation of [module.PeerID] is not
    part of transport.go; the spec calls an Address (and so a PeerID)
    "Comparable", and [Equal] is that comparison. *)
Definition Equal (a b : PeerID) : bool := bool_decide (a = b).

(** The error values that transport.go returns or inspects.  [OpError] is
    [*net.OpError] with the answer of its [Temporary()] method; [Errorf] is
    a value built by [fmt.Errorf]; [IOError] is any other error of the
    connection (for instance [io.EOF]); [AddrError] and [NumError] are the
    errors of [net.SplitHostPort] and [strconv.ParseInt]. *)
Inductive error : Type :=
| ErrNotAvailable
| ErrDuplicatedPacket
| ErrQueueOverflow
| ErrAlreadyClosed
| ErrAlreadyListened
| OpError (temporary : bool) (text : string)
| IOError (text : string)
| AddrError (why addr : string)
| NumError (num why : string)
| Errorf (text : string).

#[global] Instance error_eq_dec : EqDecision error.
Proof. solve_decision. Defined.

(** [Packet]: the fields that the peer code reads or writes. *)
Record Packet : Type := mkPacket {
  src : PeerID;
  protocol : Z;
  priority : Z;
  hashOfPacket : Z;
  payload : list Z;
  sender : option PeerID;
  forceSend : bool
}.

Definition setSender (s : option PeerID) (pkt : Packet) : Packet :=
  mkPacket (src pkt) (protocol pkt) (priority pkt) (hashOfPacket pkt)
           (payload pkt) s (forceSend pkt).

(** [Counter], the statistics object carried by a send context. *)
Record Counter : Type := mkCounter {
  c_peer : Z;
  c_duplicate : Z;
  c_overflow : Z;
  c_enqueue : Z
}.

(** A [context.Context] built by [sendPacket]: the values stored under
    [p2pContextKeyPacket] and [p2pContextKeyCounter]. *)
Record Context : Type := mkContext {
  ctxPacket : Packet;
  ctxCounter : Counter
}.

(** Modelled from the spec: [PriorityQueue] is not part of transport.go.
    "Bounded multi-level FIFO: for each priority level a FIFO of enqueued
    contexts; Push(ctx, prio) returns false if full at that level".  A
    priority that names no level is refused as well. *)
Record PriorityQueue : Type := mkPriorityQueue {
  levelSize : nat;
  levels : list (list Context)
}.

Definition NewPriorityQueue (size maxPriority : nat) : PriorityQueue :=
  mkPriorityQueue size (replicate (S maxPriority) []).

Definition levelOf (prio : Z) : option nat :=
  if (prio <? 0)%Z then None else Some (Z.to_nat prio).

Definition Push (ctx : Context) (prio : Z) (pq : PriorityQueue)
  : bool * PriorityQueue :=
  match levelOf prio with
  | None => (false, pq)
  | Some i =>
    match levels pq !! i with
    | None => (false, pq)
    | Some fifo =>
      if (length fifo <? levelSize pq)%nat
      then (true, mkPriorityQueue (levelSize pq) (<[i := fifo ++ [ctx]]> (levels pq)))
      else (false, pq)
    end
  end.

(** Every context waiting in the queue, most urgent level first. *)
Definition queued (pq : PriorityQueue) : list Context := concat (levels pq).

(** Modelled from the spec: [TimestampPool] is not part of transport.go.
    "Sliding window set of hashes keyed by insertion time;
    RemoveBefore(n seconds) sweeps expired".  A hash maps to the time of
    its last insertion. *)
Definition TimestampPool : Type := gmap Z Z.

Definition Put (h now : Z) (tp : TimestampPool) : TimestampPool := <[h := now]> tp.

Definition Contains (h : Z) (tp : TimestampPool) : bool :=
  bool_decide (is_Some (tp !! h)).

Definition RemoveBefore (secs now : Z) (tp : TimestampPool) : TimestampPool :=
  filter (fun kv => (now - secs <= kv.2)%Z) tp.

(** The objects whose methods are installed as peer callbacks.
    [Overlay ch] is the [PeerToPeer] instance of channel [ch]. *)
Inductive Handler : Type :=
| ChannelNegotiator
| Authenticator
| Dispatcher
| Overlay (channel : string).

#[global] Instance Handler_eq_dec : EqDecision Handler.
Proof. solve_decision. Defined.

(** Function values of type [packetCbFunc], [errorCbFunc] and
    [closeCbFunc]: a method value of a handler, or one of the two package
    level defaults. *)
Inductive packetCbFunc : Type := onPacketOf (h : Handler).
Inductive errorCbFunc : Type := defaultOnError | onErrorOf (h : Handler).
Inductive closeCbFunc : Type := defaultOnClose | onCloseOf (h : Handler).

(** [net.Conn] as the peer uses it: whether it is open, and the error its
    [Close()] answers. *)
Record Conn : Type := mkConn {
  connOpen : bool;
  connCloseErr : option error
}.

(** [Peer].  [close_] is the channel [close] ([true] once it has been
    closed), [once] tells whether [sync.Once] has fired, [in_] is the field
    [in]. *)
Record Peer : Type := mkPeer {
  conn : Conn;
  q : PriorityQueue;
  onPacket : option packetCbFunc;
  onError : option errorCbFunc;
  onClose : option closeCbFunc;
  pool : TimestampPool;
  close_ : bool;
  closed : Z;
  closeReason : list string;
  closeErr : list error;
  once : bool;
  id : option PeerID;
  netAddress : string;
  in_ : bool;
  channel : string
}.

(** What a method of the transport does to its environment. *)
Inductive Event : Type :=
| EvConnClose
| EvChanClose
| EvCloseCb (cb : closeCbFunc) (p : Peer)
| EvErrorCb (cb : errorCbFunc) (err : error) (pkt : option Packet) (p : Peer)
| EvPacketCb (cb : packetCbFunc) (pkt : Packet) (p : Peer)
| EvDrop (pkt : Packet)
| EvMetricOnRecv (pkt : Packet)
| EvStartRoutines
| EvOnPeer (h : Handler) (p : Peer)
| EvLog (what : string)
| EvLogErr (what : string) (err : error).

(** *** Field updates *)

Definition withConn (c : Conn) (p : Peer) : Peer :=
  mkPeer c (q p) (onPacket p) (onError p) (onClose p) (pool p) (close_ p)
         (closed p) (closeReason p) (closeErr p) (once p) (id p)
         (netAddress p) (in_ p) (channel p).
Definition withQ (x : PriorityQueue) (p : Peer) : Peer :=
  mkPeer (conn p) x (onPacket p) (onError p) (onClose p) (pool p) (close_ p)
         (closed p) (closeReason p) (closeErr p) (once p) (id p)
         (netAddress p) (in_ p) (channel p).
Definition withOnPacket (x : option packetCbFunc) (p : Peer) : Peer :=
  mkPeer (conn p) (q p) x (onError p) (onClose p) (pool p) (close_ p)
         (closed p) (closeReason p) (closeErr p) (once p) (id p)
         (netAddress p) (in_ p) (channel p).
Definition withOnError (x : option errorCbFunc) (p : Peer) : Peer :=
  mkPeer (conn p) (q p) (onPacket p) x (onClose p) (pool p) (close_ p)
         (closed p) (closeReason p) (closeErr p) (once p) (id p)
         (netAddress p) (in_ p) (channel p).
Definition withOnClose (x : option closeCbFunc) (p : Peer) : Peer :=
  mkPeer (conn p) (q p) (onPacket p) (onError p) x (pool p) (close_ p)
         (closed p) (closeReason p) (closeErr p) (once p) (id p)
         (netAddress p) (in_ p) (channel p).
Definition withPool (x : TimestampPool) (p : Peer) : Peer :=
  mkPeer (conn p) (q p) (onPacket p) (onError p) (onClose p) x (close_ p)
         (closed p) (closeReason p) (closeErr p) (once p) (id p)
         (netAddress p) (in_ p) (channel p).
Definition withClose (x : bool) (p : Peer) : Peer :=
  mkPeer (conn p) (q p) (onPacket p) (onError p) (onClose p) (pool p) x
         (closed p) (closeReason p) (closeErr p) (once p) (id p)
         (netAddress p) (in_ p) (channel p).
Definition withClosed (x : Z) (p : Peer) : Peer :=
  mkPeer (conn p) (q p) (onPacket p) (onError p) (onClose p) (pool p) (close_ p)
         x (closeReason p) (closeErr p) (once p) (id p)
         (netAddress p) (in_ p) (channel p).
Definition withCloseReason (x : list string) (p : Peer) : Peer :=
  mkPeer (conn p) (q p) (onPacket p) (onError p) (onClose p) (pool p) (close_ p)
         (closed p) x (closeErr p) (once p) (id p)
         (netAddress p) (in_ p) (channel p).
Definition withCloseErr (x : list error) (p : Peer) : Peer :=
  mkPeer (conn p) (q p) (onPacket p) (onError p) (onClose p) (pool p) (close_ p)
         (closed p) (closeReason p) x (once p) (id p)
         (netAddress p) (in_ p) (channel p).
Definition withOnce (x : bool) (p : Peer) : Peer :=
  mkPeer (conn p) (q p) (onPacket p) (onError p) (onClose p) (pool p) (close_ p)
         (closed p) (closeReason p) (closeErr p) x (id p)
         (netAddress p) (in_ p) (channel p).
Definition withChannel (x : string) (p : Peer) : Peer :=
  mkPeer (conn p) (q p) (onPacket p) (onError p) (onClose p) (pool p) (close_ p)
         (closed p) (closeReason p) (closeErr p) (once p) (id p)
         (netAddress p) (in_ p) x.
Definition withID (x : option PeerID) (p : Peer) : Peer :=
  mkPeer (conn p) (q p) (onPacket p) (onError p) (onClose p) (pool p) (close_ p)
         (closed p) (closeReason p) (closeErr p) (once p) x
         (netAddress p) (in_ p) (channel p).
Definition withNetAddress (x : string) (p : Peer) : Peer :=
  mkPeer (conn p) (q p) (onPacket p) (onError p) (onClose p) (pool p) (close_ p)
         (closed p) (closeReason p) (closeErr p) (once p) (id p)
         x (in_ p) (channel p).

(** *** A state-and-trace monad for the methods of [Peer] *)

Definition M (A : Type) : Type := Peer -> A * Peer * list Event.

Definition ret {A} (a : A) : M A := fun p => (a, p, []).
Definition bind {A B} (m : M A) (k : A -> M B) : M B :=
  fun p => let '(a, p1, t1) := m p in
           let '(b, p2, t2) := k a p1 in
           (b, p2, t1 ++ t2).
Definition get : M Peer := fun p => (p, p, []).
Definition modify (f : Peer -> Peer) : M unit := fun p => (tt, f p, []).
Definition emit (e : Event) : M unit := fun p => (tt, p, [e]).

Notation "'let*' x := m 'in' k" := (bind m (fun x => k))
  (at level 10, x name, m at level 100, k at level 200).
Notation "'run' m 'then' k" := (bind m (fun _ => k))
  (at level 10, m at level 100, k at level 200).

Definition result {A} (r : A * Peer * list Event) : A := r.1.1.
Definition after {A} (r : A * Peer * list Event) : Peer := r.1.2.
Definition events {A} (r : A * Peer * list Event) : list Event := r.2.

(** *** Callback slots *)

(** [setPacketCbFunc]: the first non-nil callback starts the two routines
    of the peer, once. *)
Definition setPacketCbFunc (cbFunc : option packetCbFunc) : M unit :=
  run modify (withOnPacket cbFunc) then
  match cbFunc with
  | Some _ =>
    let* p := get in
    if once p then ret tt
    else run modify (withOnce true) then emit EvStartRoutines
  | None => ret tt
  end.

Definition setErrorCbFunc (cbFunc : option errorCbFunc) : M unit :=
  modify (withOnError cbFunc).

Definition setCloseCbFunc (cbFunc : option closeCbFunc) : M unit :=
  modify (withOnClose cbFunc).

Definition setID (pid : PeerID) : M unit := modify (withID (Some pid)).

Definition setChannel (c : string) : M unit := modify (withChannel c).

(** *** Closing *)

(** Calling a close callback.  [defaultOnClose] has an empty body and
    [PeerDispatcher.onClose] only logs; the handlers whose code lives in
    other files are seen through the event alone. *)
Definition callClose (cb : closeCbFunc) : M unit :=
  let* p := get in
  run emit (EvCloseCb cb p) then
  match cb with
  | onCloseOf Dispatcher => emit (EvLog "onClose")
  | _ => ret tt
  end.

(** [Peer._close]: the compare-and-swap on [closed] guards everything
    else. *)
Definition Peer__close : M (option error) :=
  let* p := get in
  if (closed p =? 0)%Z then
    run modify (withClosed 1) then
    let err := connCloseErr (conn p) in
    run modify (withConn (mkConn false err)) then
    run emit EvConnClose then
    run (match err with
         | Some _ => emit (EvLog "Peer._close err")
         | None => ret tt
         end) then
    run modify (withClose true) then
    run emit EvChanClose then
    let* p1 := get in
    run callClose (match onClose p1 with
                   | Some cbFunc => cbFunc
                   | None => defaultOnClose
                   end) then
    ret err
  else ret None.

Definition IsClosed (p : Peer) : bool := (closed p =? 1)%Z.

Definition addCloseReason (reason : string) : M unit :=
  modify (fun p => withCloseReason (closeReason p ++ [reason]) p).

Definition Peer_Close (reason : string) : M (option error) :=
  run addCloseReason reason then Peer__close.

Definition addCloseError (err : error) : M unit :=
  modify (fun p => withCloseErr (closeErr p ++ [err]) p).

Definition Peer_CloseByError (err : error) : M (option error) :=
  run addCloseError err then Peer__close.

(** *** Handler bodies that transport.go defines *)

(** [peerHandler.onError] closes the peer with [p.Close()].  [Peer.Close]
    appends the reason it is given to [closeReason] before it closes, and
    the call in transport.go shows no argument: the reason that this call
    records is a parameter of the model, the same for every error and
    every handler. *)
Class OnErrorClose : Type := onErrorReason : string.

Section ErrorCallbacks.

Context {closes : OnErrorClose}.

(** [peerHandler.onError]: log, then [p.Close()]. *)
Definition peerHandler_onError (err : error) (pkt : option Packet) : M unit :=
  run emit (EvLogErr "onError" err) then
  run Peer_Close onErrorReason then ret tt.

(** Calling an error callback: [defaultOnError] closes by error,
    [PeerDispatcher.onError] is [peerHandler.onError]. *)
Definition callError (cb : errorCbFunc) (err : error) (pkt : option Packet)
  : M unit :=
  let* p := get in
  run emit (EvErrorCb cb err pkt p) then
  match cb with
  | defaultOnError => run Peer_CloseByError err then ret tt
  | onErrorOf Dispatcher => peerHandler_onError err pkt
  | onErrorOf _ => ret tt
  end.

(** Calling a packet callback: [PeerDispatcher.onPacket] only logs. *)
Definition callPacket (cb : packetCbFunc) (pkt : Packet) : M unit :=
  let* p := get in
  run emit (EvPacketCb cb pkt p) then
  match cb with
  | onPacketOf Dispatcher => emit (EvLog "PeerDispatcher.onPacket")
  | onPacketOf _ => ret tt
  end.

(** *** The receive routine *)

Definition isTemporaryError (err : error) : bool :=
  match err with
  | OpError temporary _ => temporary
  | _ => false
  end.

(** What [p.reader.ReadPacket()] answers. *)
Inductive ReadResult : Type :=
| ReadPacket (pkt : Packet)
| ReadFailed (err : error) (pkt : option Packet).

(** One turn of the loop as the environment decides it: the answer of the
    read, the clock at that moment, and whether the callback that this
    turn calls panics (with which value). *)
Record Read : Type := mkRead {
  readResult : ReadResult;
  readTime : Z;
  cbPanics : option string
}.

Inductive Flow : Type := Continue | Return | Panic (v : string).

(** The body of the [for] loop of [Peer.receiveRoutine]. *)
Definition receiveOnce (r : Read) : M Flow :=
  match readResult r with
  | ReadFailed err pkt =>
    let temporary := isTemporaryError err in
    run emit (EvLog "Peer.receiveRoutine Error") then
    if negb temporary then
      run Peer_CloseByError err then ret Return
    else
      let* p := get in
      let cbFunc := match onError p with
                    | Some cbFunc => cbFunc
                    | None => defaultOnError
                    end in
      match cbPanics r with
      | Some v => run emit (EvErrorCb cbFunc err pkt p) then ret (Panic v)
      | None => run callError cbFunc err pkt then ret Continue
      end
  | ReadPacket pkt0 =>
    let* p := get in
    let pkt := setSender (id p) pkt0 in
    run modify (fun p => withPool (Put (hashOfPacket pkt) (readTime r) (pool p)) p) then
    run emit (EvMetricOnRecv pkt) then
    let* p1 := get in
    match onPacket p1 with
    | Some cbFunc =>
      match cbPanics r with
      | Some v => run emit (EvPacketCb cbFunc pkt p1) then ret (Panic v)
      | None => run callPacket cbFunc pkt then ret Continue
      end
    | None => run emit (EvDrop pkt) then ret Continue
    end
  end.

(** [Reading]: the routine is inside [ReadPacket] waiting for the next
    answer; [Finished]: it has returned. *)
Inductive Status : Type := Reading | Finished.

(** [Peer.receiveRoutine] against the answers [reads] of the reader.  The
    deferred function closes the peer whichever way the loop is left. *)
Fixpoint receiveRoutine (reads : list Read) : M Status :=
  match reads with
  | [] => ret Reading
  | r :: rest =>
    let* flow := receiveOnce r in
    match flow with
    | Continue => receiveRoutine rest
    | Return =>
      run Peer_Close "receiveRoutine finish" then ret Finished
    | Panic v =>
      run emit (EvLog "Peer.receiveRoutine recover") then
      run Peer_CloseByError (Errorf (String.append "recover from " v)) then
      ret Finished
    end
  end.

End ErrorCallbacks.

(** A read that ends the loop by itself: an error that is not
    temporary. *)
Definition permanentError (r : Read) : bool :=
  match readResult r with
  | ReadFailed err _ => negb (isTemporaryError err)
  | ReadPacket _ => false
  end.

(** A turn after which the loop reads again: no permanent error, and the
    callback of the turn returns. *)
Definition goesOn (r : Read) : bool :=
  negb (permanentError r) &&
  match cbPanics r with
  | None => true
  | Some _ => false
  end.

(** A packet callback is called with a stamped packet: its [sender] is
    the identifier of the peer and its hash is in the pool of the peer. *)
Definition stamped (e : Event) : Prop :=
  match e with
  | EvPacketCb cb pkt p =>
    sender pkt = id p /\ Contains (hashOfPacket pkt) (pool p) = true /\
    onPacket p = Some cb
  | _ => True
  end.

(** *** Sending *)

Definition incPeer (c : Counter) : Counter :=
  mkCounter (c_peer c + 1) (c_duplicate c) (c_overflow c) (c_enqueue c).
Definition incDuplicate (c : Counter) : Counter :=
  mkCounter (c_peer c) (c_duplicate c + 1) (c_overflow c) (c_enqueue c).
Definition incOverflow (c : Counter) : Counter :=
  mkCounter (c_peer c) (c_duplicate c) (c_overflow c + 1) (c_enqueue c).
Definition incEnqueue (c : Counter) : Counter :=
  mkCounter (c_peer c) (c_duplicate c) (c_overflow c) (c_enqueue c + 1).

Section Sending.

(** [Packet.updateHash] is defined with the packet codec, outside
    transport.go: it is a parameter. *)
Variable updateHash : bool -> Packet -> Packet.

(** [Peer.isDuplicatedToSend].  The packet comes back because
    [updateHash] may have written its hash.  [p.ID()] of a peer that has no
    identifier yet is a nil interface, and calling [Equal] on it panics. *)
Definition isDuplicatedToSend (p : Peer) (pkt : Packet) : Outcome (bool * Packet) :=
  match id p with
  | None => Panicked "p.ID().Equal: nil module.PeerID"
  | Some pid =>
    if Equal pid (src pkt) then Returned (true, pkt)
    else if negb (forceSend pkt) then
      if match sender pkt with
         | Some s => Equal pid s
         | None => false
         end
      then Returned (true, pkt)
      else
        let pkt1 := updateHash false pkt in
        if Contains (hashOfPacket pkt1) (pool p)
        then Returned (true, pkt1)
        else Returned (false, pkt1)
    else Returned (false, pkt)
  end.

(** [Peer.send].  The receiver may be nil.  The answer is the error, the
    context as the call leaves it and the peer as the call leaves it.  The
    context that enters the queue shares its counter and its packet with
    the caller, so it is shown with the values [send] leaves in them. *)
Definition send (po : option Peer) (ctx : Context)
  : Outcome (option error * Context * option Peer) :=
  match po with
  | None => Returned (Some ErrNotAvailable, ctx, None)
  | Some p =>
    if IsClosed p then Returned (Some ErrNotAvailable, ctx, Some p)
    else
      let c := incPeer (ctxCounter ctx) in
      let pkt := ctxPacket ctx in
      match isDuplicatedToSend p pkt with
      | Panicked why => Panicked why
      | Returned (true, pkt1) =>
        Returned (Some ErrDuplicatedPacket, mkContext pkt1 (incDuplicate c), Some p)
      | Returned (false, pkt1) =>
        let queuedCtx := mkContext pkt1 (incEnqueue c) in
        match Push queuedCtx (priority pkt1) (q p) with
        | (false, _) =>
          Returned (Some ErrQueueOverflow, mkContext pkt1 (incOverflow c), Some p)
        | (true, q1) => Returned (None, queuedCtx, Some (withQ q1 p))
        end
      end
  end.

(** [Peer.sendPacket]: a fresh context with a zero counter. *)
Definition sendPacket (po : option Peer) (pkt : Packet)
  : Outcome (option error * Context * option Peer) :=
  match po with
  | None => Returned (Some ErrNotAvailable, mkContext pkt (mkCounter 0 0 0 0), None)
  | Some p =>
    if IsClosed p
    then Returned (Some ErrNotAvailable, mkContext pkt (mkCounter 0 0 0 0), Some p)
    else send (Some p) (mkContext pkt (mkCounter 0 0 0 0))
  end.

End Sending.

(** Modelled from the spec: the constants are declared outside
    transport.go; "send queue 1000 entries; priority levels 7; peer-pool
    hash expiry 60 s". *)
Definition DefaultPeerSendQueueSize : nat := 1000.
Definition DefaultSendQueueMaxPriority : nat := 7.
Definition DefaultPeerPoolExpireSecond : Z := 60.

(** [newPeer]: an open peer with the default error and close callbacks. *)
Definition newPeer (c : Conn) (cbFunc : option packetCbFunc) (incoming : bool)
  : Peer * list Event :=
  let p := mkPeer c
                  (NewPriorityQueue DefaultPeerSendQueueSize DefaultSendQueueMaxPriority)
                  None (Some defaultOnError) (Some defaultOnClose)
                  ∅ false 0 [] [] false None "" incoming "" in
  let r := setPacketCbFunc cbFunc p in
  (after r, events r).

(** *** Listener *)

(** [Listener]: [ln] is the [net.Listener], nil until [Listen] succeeds;
    [closeCh] tells whether the channel exists. *)
Record Listener : Type := mkListener {
  address : string;
  ln : option string;
  closeCh : bool
}.

Definition newListener (addr : string) : Listener := mkListener addr None false.

(** [Listener.Listen]; [netListen] is the answer of [net.Listen]. *)
Definition Listener_Listen (netListen : string -> error + string) (l : Listener)
  : option error * Listener :=
  match ln l with
  | Some _ => (Some ErrAlreadyListened, l)
  | None =>
    match netListen (address l) with
    | inl err => (Some err, l)
    | inr sock => (None, mkListener (address l) (Some sock) true)
    end
  end.

(** [Listener.Close].  Past the guard, [l.ln] is the nil interface and the
    call [l.ln.Close()] panics. *)
Definition Listener_Close (l : Listener) : Outcome (option error) * Listener :=
  match ln l with
  | Some _ => (Returned (Some ErrAlreadyClosed), l)
  | None => (Panicked "l.ln.Close: nil net.Listener", l)
  end.

(** *** Handler chain *)

(** The embedded [peerHandler] of a handler object. *)
Record peerHandler : Type := mkPeerHandler {
  next : option Handler;
  self : option PeerID
}.

Definition newPeerHandler : peerHandler := mkPeerHandler None None.

(** [PeerToPeer] as the dispatcher sees it. *)
Record PeerToPeer : Type := mkPeerToPeer {
  p2pChannel : string
}.

(** [PeerDispatcher].  [handlers] holds the embedded [peerHandler] of
    each handler object, the dispatcher's own under [Dispatcher]. *)
Record PeerDispatcher : Type := mkPeerDispatcher {
  handlers : Handler -> peerHandler;
  peerHandlers : list Handler;
  p2pMap : gmap string PeerToPeer
}.

Definition setHandler (h : Handler) (x : peerHandler) (pd : PeerDispatcher)
  : PeerDispatcher :=
  mkPeerDispatcher (fun h' => if decide (h' = h) then x else handlers pd h')
                   (peerHandlers pd) (p2pMap pd).

Definition setNext (ph nx : Handler) (pd : PeerDispatcher) : PeerDispatcher :=
  setHandler ph (mkPeerHandler (Some nx) (self (handlers pd ph))) pd.

Definition setSelfPeerID (ph : Handler) (pid : option PeerID) (pd : PeerDispatcher)
  : PeerDispatcher :=
  setHandler ph (mkPeerHandler (next (handlers pd ph)) pid) pd.

(** [PeerDispatcher.registPeerHandler]: [PushBack], then link the new
    handler to the element that was last before it. *)
Definition registPeerHandler (ph : Handler) (pd : PeerDispatcher) : PeerDispatcher :=
  let prev := last (peerHandlers pd) in
  let pd1 := mkPeerDispatcher (handlers pd) (peerHandlers pd ++ [ph]) (p2pMap pd) in
  match prev with
  | Some pv => setSelfPeerID ph (self (handlers pd1 Dispatcher)) (setNext ph pv pd1)
  | None => pd1
  end.

Definition newPeerDispatcher (pid : PeerID) (hs : list Handler) : PeerDispatcher :=
  let pd := mkPeerDispatcher (fun _ => newPeerHandler) [] ∅ in
  let pd := setSelfPeerID Dispatcher (Some pid) pd in
  let pd := registPeerHandler Dispatcher pd in
  fold_left (fun pd ph => registPeerHandler ph pd) hs pd.

Definition registPeerToPeer (p2p : PeerToPeer) (pd : PeerDispatcher) : PeerDispatcher :=
  mkPeerDispatcher (handlers pd) (peerHandlers pd) (<[p2pChannel p2p := p2p]> (p2pMap pd)).

Section Dispatching.

Context {closes : OnErrorClose}.

(** [PeerDispatcher.onPeer]. *)
Definition PeerDispatcher_onPeer (pd : PeerDispatcher) : M unit :=
  let* p := get in
  run emit (EvLog "onPeer") then
  match p2pMap pd !! channel p with
  | Some p2p =>
    let h := Overlay (p2pChannel p2p) in
    run setPacketCbFunc (Some (onPacketOf h)) then
    run setErrorCbFunc (Some (onErrorOf h)) then
    run setCloseCbFunc (Some (onCloseOf h)) then
    let* p1 := get in
    emit (EvOnPeer h p1)
  | None =>
    let err := Errorf (String.append "not exists PeerToPeer["
                         (String.append (channel p) "]")) in
    peerHandler_onError err None
  end.

(** [ph.onPeer(p)] for a handler of the chain.  The bodies of the
    negotiator and of the authenticator live in other files: their call is
    an event, and they move on with [nextOnPeer] when their stage is done. *)
Definition handler_onPeer (pd : PeerDispatcher) (ph : Handler) : M unit :=
  match ph with
  | Dispatcher => PeerDispatcher_onPeer pd
  | _ => let* p := get in emit (EvOnPeer ph p)
  end.

(** [peerHandler.nextOnPeer] of handler [ph]. *)
Definition nextOnPeer (pd : PeerDispatcher) (ph : Handler) : M unit :=
  match next (handlers pd ph) with
  | Some nx =>
    run setPacketCbFunc (Some (onPacketOf nx)) then
    run setErrorCbFunc (Some (onErrorOf nx)) then
    run setCloseCbFunc (Some (onCloseOf nx)) then
    handler_onPeer pd nx
  | None => ret tt
  end.

(** [PeerDispatcher.dispatchPeer]: the handler at the back of the list
    gets the peer.  On an empty list [Back()] is nil and [elm.Value]
    panics. *)
Definition dispatchPeer (pd : PeerDispatcher) : M (Outcome unit) :=
  match last (peerHandlers pd) with
  | None => ret (Panicked "elm.Value: nil *list.Element")
  | Some ph =>
    run setPacketCbFunc (Some (onPacketOf ph)) then
    run setErrorCbFunc (Some (onErrorOf ph)) then
    run setCloseCbFunc (Some (onCloseOf ph)) then
    run handler_onPeer pd ph then
    ret (Returned tt)
  end.

(** [PeerDispatcher.onAccept] and [PeerDispatcher.onConnect]. *)
Definition onAccept (pd : PeerDispatcher) (c : Conn) : Outcome unit * Peer * list Event :=
  let '(p, t0) := newPeer c None true in
  let '(o, p1, t1) := dispatchPeer pd p in
  (o, p1, t0 ++ EvLog "onAccept" :: t1).

Definition onConnect (pd : PeerDispatcher) (c : Conn) (addr dialChannel : string)
  : Outcome unit * Peer * list Event :=
  let '(p, t0) := newPeer c None false in
  let p := withNetAddress addr (withChannel dialChannel p) in
  let '(o, p1, t1) := dispatchPeer pd p in
  (o, p1, t0 ++ EvLog "onConnect" :: t1).

End Dispatching.

(** The stages a peer goes through: from handler [h] along the [next]
    links, at most [n] of them. *)
Fixpoint stagesFrom (pd : PeerDispatcher) (n : nat) (h : Handler) : list Handler :=
  match n with
  | O => []
  | S n' =>
    h :: match next (handlers pd h) with
         | Some nx => stagesFrom pd n' nx
         | None => []
         end
  end.

Definition pipeline (pd : PeerDispatcher) : list Handler :=
  match last (peerHandlers pd) with
  | Some ph => stagesFrom pd (length (peerHandlers pd)) ph
  | None => []
  end.

(** *** Transport *)

(** [module.Wallet] as [NewTransport] uses it. *)
Record Wallet : Type := mkWallet {
  walletAddress : string
}.

Definition NewPeerIDFromAddress (a : string) : PeerID := a.

Record transport : Type := mkTransport {
  l : Listener;
  pd : PeerDispatcher;
  dMap : gmap string string
}.

(** [NewTransport]: [cn] and [a] are the handler objects
    [ChannelNegotiator] and [Authenticator]. *)
Definition NewTransport (addr : string) (w : Wallet) : transport :=
  let cn := ChannelNegotiator in
  let a := Authenticator in
  let pid := NewPeerIDFromAddress (walletAddress w) in
  let pd := newPeerDispatcher pid [cn; a] in
  let l := newListener addr in
  mkTransport l pd ∅.

Definition transport_Close (t : transport) : Outcome (option error) * transport :=
  let '(o, l1) := Listener_Close (l t) in
  (o, mkTransport l1 (pd t) (dMap t)).

(** *** Goroutines that close the same peer *)

(** A call of [Close] or [CloseByError] made by some goroutine. *)
Inductive CloseCall : Type :=
| CallClose (reason : string)
| CallCloseByError (err : error).

(** Where a goroutine stands inside its call: before the append to the
    close log, before the compare-and-swap, and, for the goroutine that
    won it, before [p.conn.Close()], before [close(p.close)] and before
    the callback.  [Crashed] is the panic of closing a closed channel. *)
Inductive Pc : Type :=
| AtEntry (c : CloseCall)
| AtCAS
| AtConnClose
| AtChanClose
| AtCallback
| AtReturn
| Crashed.

Record Race : Type := mkRace {
  shared : Peer;
  pcs : list Pc;
  trace : list Event
}.

Definition start (p : Peer) (calls : list CloseCall) : Race :=
  mkRace p (map AtEntry calls) [].

(** Goroutine [i] takes its next atomic step. *)
Definition step (i : nat) (s : Race) : Race :=
  let p := shared s in
  let goto pc := <[i := pc]> (pcs s) in
  match pcs s !! i with
  | None => s
  | Some (AtEntry (CallClose reason)) =>
    mkRace (after (addCloseReason reason p)) (goto AtCAS) (trace s)
  | Some (AtEntry (CallCloseByError err)) =>
    mkRace (after (addCloseError err p)) (goto AtCAS) (trace s)
  | Some AtCAS =>
    if (closed p =? 0)%Z
    then mkRace (withClosed 1 p) (goto AtConnClose) (trace s)
    else mkRace p (goto AtReturn) (trace s)
  | Some AtConnClose =>
    let err := connCloseErr (conn p) in
    mkRace (withConn (mkConn false err) p) (goto AtChanClose)
           (trace s ++ EvConnClose :: match err with
                                      | Some _ => [EvLog "Peer._close err"]
                                      | None => []
                                      end)
  | Some AtChanClose =>
    if close_ p
    then mkRace p (goto Crashed) (trace s)
    else mkRace (withClose true p) (goto AtCallback) (trace s ++ [EvChanClose])
  | Some AtCallback =>
    let r := callClose (match onClose p with
                        | Some cbFunc => cbFunc
                        | None => defaultOnClose
                        end) p in
    mkRace (after r) (goto AtReturn) (trace s ++ events r)
  | Some AtReturn => s
  | Some Crashed => s
  end.

(** The goroutines run in the order the scheduler [sched] picks. *)
Definition runRace (sched : list nat) (s : Race) : Race :=
  fold_left (fun s i => step i s) sched s.

Fixpoint countEv (f : Event -> bool) (t : list Event) : nat :=
  match t with
  | [] => 0
  | e :: t' => (if f e then 1 else 0) + countEv f t'
  end.

Definition isCloseCb (e : Event) : bool :=
  match e with EvCloseCb _ _ => true | _ => false end.
Definition isChanClose (e : Event) : bool :=
  match e with EvChanClose => true | _ => false end.
Definition isConnClose (e : Event) : bool :=
  match e with EvConnClose => true | _ => false end.

Fixpoint countPc (f : Pc -> bool) (l : list Pc) : nat :=
  match l with
  | [] => 0
  | pc :: l' => (if f pc then 1 else 0) + countPc f l'
  end.

Definition isAtConnClose (pc : Pc) : bool :=
  match pc with AtConnClose => true | _ => false end.
Definition isAtChanClose (pc : Pc) : bool :=
  match pc with AtChanClose => true | _ => false end.
Definition isAtCallback (pc : Pc) : bool :=
  match pc with AtCallback => true | _ => false end.
Definition isCrashed (pc : Pc) : bool :=
  match pc with Crashed => true | _ => false end.
Definition isBeforeCAS (pc : Pc) : bool :=
  match pc with AtEntry _ | AtCAS => true | _ => false end.
Definition isAtReturn (pc : Pc) : bool :=
  match pc with AtReturn => true | _ => false end.

(** How many steps a goroutine still has to take, at most. *)
Definition stepsLeft (pc : Pc) : nat :=
  match pc with
  | AtEntry _ => 5
  | AtCAS => 4
  | AtConnClose => 3
  | AtChanClose => 2
  | AtCallback => 1
  | AtReturn => 0
  | Crashed => 0
  end.

(** What must hold between the flag, the goroutines and the trace while
    goroutines close a peer: the flag is 0 or 1; every action of the
    winner is either done (in the trace) or still ahead of exactly one
    goroutine; the channel is closed only once its closing is in the
    trace; nobody crashed; and while the flag is 0 nobody is past the
    compare-and-swap. *)
Record closeInv (s : Race) : Prop := mkCloseInv {
  inv_flag : closed (shared s) = 0%Z \/ closed (shared s) = 1%Z;
  inv_conn : countEv isConnClose (trace s) + countPc isAtConnClose (pcs s)
             = Z.to_nat (closed (shared s));
  inv_chan : countEv isChanClose (trace s) + countPc isAtConnClose (pcs s)
             + countPc isAtChanClose (pcs s)
             = Z.to_nat (closed (shared s));
  inv_cb : countEv isCloseCb (trace s) + countPc isAtConnClose (pcs s)
           + countPc isAtChanClose (pcs s) + countPc isAtCallback (pcs s)
           = Z.to_nat (closed (shared s));
  inv_close : close_ (shared s) = true -> countEv isChanClose (trace s) = 1;
  inv_crash : countPc isCrashed (pcs s) = 0;
  inv_before : closed (shared s) = 0%Z -> countPc isBeforeCAS (pcs s) = length (pcs s)
}.

(** Every call has returned. *)
Definition allReturned (s : Race) : bool := forallb isAtReturn (pcs s).

(** *** NetAddress *)

Definition NetAddress : Type := string.

Section Validate.

(** [net.SplitHostPort] and [strconv.ParseInt] belong to the Go standard
    library: they are parameters. *)
Variable SplitHostPort : string -> error + (string * string).
Variable ParseInt : string -> Z -> Z -> error + Z.

(** [NetAddress.Validate]. *)
Definition Validate (na : NetAddress) : option error :=
  match SplitHostPort na with
  | inl err => Some err
  | inr (_, port) =>
    match ParseInt port 10 64 with
    | inl err => Some err
    | inr i =>
      if ((i <? 1) || (i >? 65535))%Z
      then Some (Errorf (String.append "invalid port " port))
      else None
    end
  end.

End Validate.

End Network.

(** ** What the Go standard library answers

    Executable renderings of [strconv.ParseInt] in base 10 and of
    [net.SplitHostPort], after the documentation of the Go standard
    library.  They serve to run [Validate] on concrete addresses; the
    properties of [Validate] below hold for any two such functions. *)

Module GoStd.

Import Network.

Definition digitOf (c : ascii) : option Z :=
  let n := nat_of_ascii c in
  if ((48 <=? n) && (n <=? 57))%nat then Some (Z.of_nat (n - 48)) else None.

Fixpoint parseDigits (acc : Z) (s : string) : option Z :=
  match s with
  | EmptyString => Some acc
  | String c s' =>
    match digitOf c with
    | Some d => parseDigits (acc * 10 + d) s'
    | None => None
    end
  end.

(** [strconv.ParseInt(s, 10, bitSize)]: an optional sign, then one or more
    decimal digits; a value that does not fit in [bitSize] bits is a range
    error. *)
Definition ParseIntDecimal (s : string) (bitSize : Z) : error + Z :=
  match s with
  | EmptyString => inl (NumError s "invalid syntax")
  | String c rest =>
    let neg := bool_decide (c = "-"%char) in
    let digits := if bool_decide (c = "+"%char) || neg then rest else s in
    match digits with
    | EmptyString => inl (NumError s "invalid syntax")
    | _ =>
      match parseDigits 0 digits with
      | None => inl (NumError s "invalid syntax")
      | Some un =>
        let cutoff := (2 ^ (bitSize - 1))%Z in
        if negb neg && (cutoff <=? un)%Z then inl (NumError s "value out of range")
        else if neg && (cutoff <? un)%Z then inl (NumError s "value out of range")
        else inr (if neg then (- un)%Z else un)
      end
    end
  end.

Definition ParseInt (s : string) (base bitSize : Z) : error + Z :=
  ParseIntDecimal s bitSize.

Fixpoint indexByte (c : ascii) (s : list ascii) : option nat :=
  match s with
  | [] => None
  | x :: s' => if bool_decide (x = c) then Some 0
               else match indexByte c s' with
                    | Some k => Some (S k)
                    | None => None
                    end
  end.

Definition lastIndexByte (c : ascii) (s : list ascii) : option nat :=
  match indexByte c (rev s) with
  | Some k => Some (length s - 1 - k)
  | None => None
  end.

Definition hasByte (c : ascii) (s : list ascii) : bool :=
  bool_decide (is_Some (indexByte c s)).

Definition str (s : list ascii) : string := string_of_list_ascii s.

(** [net.SplitHostPort]: the port starts after the last colon; a host in
    square brackets may hold colons. *)
Definition SplitHostPort (hostport : string) : error + (string * string) :=
  let s := list_ascii_of_string hostport in
  let addrErr why := inl (AddrError why hostport) in
  match lastIndexByte ":"%char s with
  | None => addrErr "missing port in address"
  | Some i =>
    let checked (host : list ascii) (j k : nat) :=
      if hasByte "["%char (drop j s) then addrErr "unexpected '[' in address"
      else if hasByte "]"%char (drop k s) then addrErr "unexpected ']' in address"
      else inr (str host, str (drop (S i) s)) in
    if bool_decide (head s = Some "["%char) then
      match indexByte "]"%char s with
      | None => addrErr "missing ']' in address"
      | Some e =>
        if (S e =? length s)%nat then addrErr "missing port in address"
        else if (S e =? i)%nat then checked (take (e - 1) (drop 1 s)) 1%nat (S e)
        else if bool_decide (s !! S e = Some ":"%char)
             then addrErr "too many colons in address"
             else addrErr "missing port in address"
      end
    else
      let host := take i s in
      if hasByte ":"%char host then addrErr "too many colons in address"
      else checked host 0%nat 0%nat
  end.

End GoStd.

(** ** Package service/sync *)

Module Sync.

Definition PeerID : Type := Network.PeerID.
Definition error : Type := Network.error.
Definition ProtocolInfo : Type := Z.
Definition bytes : Type := list Z.

(** The constants of manager.go. *)
Definition configSyncPriority : Z := 3.
Definition configExpiredTime : Z := 300.
Definition receiveMsg : Z := 0.
Definition receiveTimeExpired : Z := 1.

(** [time.Duration] counts nanoseconds. *)
Definition time_Millisecond : Z := 1000000.

(** The call [expired(msgType, pi, b, p)] that a timer makes when it
    fires; [p] is the peer that owns the timer. *)
Record Expired : Type := mkExpired {
  msgType : Z;
  pi : ProtocolInfo;
  b : option bytes
}.

(** A [*time.Timer] made by [time.AfterFunc]. *)
Record Timer : Type := mkTimer {
  duration : Z;
  onFire : Expired
}.

(** [peer]: the fields that client.go and manager.go use. *)
Record peer : Type := mkSyncPeer {
  id : PeerID;
  reqID : Z;
  timer : option Timer
}.

(** The request messages of the client, fields in the order of the
    composite literals. *)
Inductive Message : Type :=
| hasNode_ (ReqID : Z) (wsHash vh prHash nrHash : bytes)
| requestNodeData_ (ReqID : Z) (t : Z) (hash : list bytes).

Definition messageReqID (m : Message) : Z :=
  match m with
  | hasNode_ r _ _ _ _ => r
  | requestNodeData_ r _ _ => r
  end.

(** What the sync package asks of its collaborators. *)
Inductive SyncEvent : Type :=
| EvUnicast (pi : ProtocolInfo) (m : Message) (b : bytes) (to : PeerID)
| EvServerOnReceive (pi : ProtocolInfo) (b : bytes) (p : peer)
| EvSyncerOnReceive (pi : ProtocolInfo) (b : bytes) (p : peer)
| EvSyncerOnJoin (p : peer)
| EvSyncerOnLeave (who : PeerID)
| EvLogf (what : string).

Section Protocols.

(** The protocol tags, the width of the [reqID] field, the codec and the
    protocol handler are declared outside client.go and manager.go. *)
Variables protoHasNode protoResult protoRequestNodeData protoNodeData : ProtocolInfo.
Variable reqIDBits : Z.
Variable MarshalToBytes : Message -> bytes.
Variable Unicast : ProtocolInfo -> bytes -> PeerID -> option error.

(** [p.reqID + 1] in the integer type of [reqID]. *)
Definition nextReqID (p : peer) : Z := ((reqID p + 1) mod 2 ^ reqIDBits)%Z.

(** The timer that both requests arm. *)
Definition afterFunc (reply : ProtocolInfo) : Timer :=
  mkTimer (time_Millisecond * configExpiredTime)
          (mkExpired receiveTimeExpired reply None).

(** [client.hasNode]. *)
Definition hasNode (p : peer) (wsHash prHash nrHash vh : bytes)
  : option error * peer * list SyncEvent :=
  let reqID := nextReqID p in
  let msg := hasNode_ reqID wsHash vh prHash nrHash in
  let b := MarshalToBytes msg in
  match Unicast protoHasNode b (id p) with
  | Some err =>
    (Some err, p,
     [EvUnicast protoHasNode msg b (id p); EvLogf "Failed to request for protoHasNode"])
  | None =>
    (None, mkSyncPeer (id p) reqID (Some (afterFunc protoResult)),
     [EvUnicast protoHasNode msg b (id p)])
  end.

(** [client.requestNodeData]. *)
Definition requestNodeData (p : peer) (hash : list bytes) (t : Z)
  : option error * peer * list SyncEvent :=
  let reqID := nextReqID p in
  let msg := requestNodeData_ reqID t hash in
  let b := MarshalToBytes msg in
  match Unicast protoRequestNodeData b (id p) with
  | Some err =>
    (Some err, p,
     [EvUnicast protoRequestNodeData msg b (id p);
      EvLogf "Failed to request for protoRequestNodeData"])
  | None =>
    (None, mkSyncPeer (id p) reqID (Some (afterFunc protoNodeData)),
     [EvUnicast protoRequestNodeData msg b (id p)])
  end.

(** The timer of [p] fires: the call it makes, and on which peer. *)
Definition fire (p : peer) : option (Expired * peer) :=
  match timer p with
  | Some t => Some (onFire t, p)
  | None => None
  end.

(** [Manager].  The peer pool is kept by identifier ([peerPool] is
    declared in another file; the manager uses [push], [getPeer] and
    [remove]); [syncer] tells whether the field is set. *)
Record Manager : Type := mkManager {
  pool : gmap PeerID peer;
  syncing : bool;
  syncer : bool
}.

(** [Manager.OnReceive].  The [switch] takes the first case that lists
    [pi]. *)
Definition OnReceive (m : Manager) (pi : ProtocolInfo) (b : bytes) (from : PeerID)
  : (bool * option error) * Manager * list SyncEvent :=
  match pool m !! from with
  | None => ((false, None), m, [EvLogf "OnReceive"; EvLogf "peer is not valid"])
  | Some p =>
    if bool_decide (pi = protoHasNode) || bool_decide (pi = protoRequestNodeData)
    then ((false, None), m, [EvLogf "OnReceive"; EvServerOnReceive pi b p])
    else if bool_decide (pi = protoResult) || bool_decide (pi = protoNodeData)
    then
      if syncing m
      then ((false, None), m, [EvLogf "OnReceive"; EvSyncerOnReceive pi b p])
      else ((false, None), m, [EvLogf "OnReceive"])
    else ((false, None), m, [EvLogf "OnReceive"])
  end.

(** [Manager.OnJoin] and [Manager.OnLeave]. *)
Definition OnJoin (m : Manager) (who : PeerID) : Manager * list SyncEvent :=
  let np := mkSyncPeer who 0 None in
  (mkManager (<[who := np]> (pool m)) (syncing m) (syncer m),
   EvLogf "Manager OnJoin" :: if syncing m then [EvSyncerOnJoin np] else []).

Definition OnLeave (m : Manager) (who : PeerID) : Manager * list SyncEvent :=
  match pool m !! who with
  | None => (m, [EvLogf "Manager OnLeave"])
  | Some _ =>
    (mkManager (delete who (pool m)) (syncing m) (syncer m),
     EvLogf "Manager OnLeave" :: if syncing m then [EvSyncerOnLeave who] else [])
  end.

End Protocols.

End Sync.

(** ** Sample values *)

Module Samples.

Import Network.

(** A dialed peer of channel "main", fresh from [newPeer]. *)
Definition mainPeer : Peer :=
  withChannel "main" (fst (newPeer (mkConn true None) None false)).

(** The dispatcher of a transport on which no overlay is registered. *)
Definition bareDispatcher : PeerDispatcher :=
  newPeerDispatcher "hx01" [ChannelNegotiator; Authenticator].

(** For the examples, the [Close] of [peerHandler.onError] records the
    empty reason. *)
Definition noReason : OnErrorClose := "".

(** A hash function for packets that leaves the stored hash alone. *)
Definition keepHash (force : bool) (pkt : Packet) : Packet := pkt.

(** An attached peer with identifier "hxA" whose queue keeps two contexts
    per level. *)
Definition peerA : Peer :=
  withQ (NewPriorityQueue 2 DefaultSendQueueMaxPriority)
        (withID (Some "hxA") mainPeer).

(** A packet from "hxB" with hash [h] and priority [prio]. *)
Definition packetB (h prio : Z) : Packet :=
  mkPacket "hxB" 0x0101 prio h [0xAA%Z] None false.

(** Two goroutines close the same peer, one with a reason and one with an
    error, interleaved step by step. *)
Definition twoClosers : list CloseCall :=
  [CallClose "bye"; CallCloseByError ErrNotAvailable].

Definition interleaved : list nat := [0; 1; 1; 0; 0; 1; 0; 1; 1; 0].

End Samples.

(** ** Role flags of a peer *)

Module Roles.

Local Open Scope Z_scope.

(** [PeerRoleFlag] is a byte: bit 0 is Seed, bit 1 is Root. *)
Definition PeerRoleFlag : Type := Z.

Definition p2pRoleNone : PeerRoleFlag := 0x00.
Definition p2pRoleSeed : PeerRoleFlag := 0x01.
Definition p2pRoleRoot : PeerRoleFlag := 0x02.
Definition p2pRoleRootSeed : PeerRoleFlag := 0x03.

Definition isByte (x : Z) : Prop := 0 <= x < 256.

(** [^o] on a byte. *)
Definition complement (o : PeerRoleFlag) : PeerRoleFlag := Z.lnot o mod 256.

Definition Has (pr o : PeerRoleFlag) : bool := Z.land pr o =? o.

Definition SetFlag (o pr : PeerRoleFlag) : PeerRoleFlag := Z.lor pr o.

Definition UnSetFlag (o pr : PeerRoleFlag) : PeerRoleFlag := Z.land pr (complement o).

(** The two values of [module.Role] that [ToRoles] builds. *)
Inductive Role : Type := ROLE_SEED | ROLE_VALIDATOR.

Definition ToRoles (pr : PeerRoleFlag) : list Role :=
  let roles := [] in
  let roles := if Has pr p2pRoleSeed then roles ++ [ROLE_SEED] else roles in
  let roles := if Has pr p2pRoleRoot then roles ++ [ROLE_VALIDATOR] else roles in
  roles.

(** The fields [role] and [recvRole] of [Peer] and the methods on them. *)
Record PeerRole : Type := mkPeerRole {
  role : PeerRoleFlag;
  recvRole : PeerRoleFlag
}.

Definition setRole (r : PeerRoleFlag) (p : PeerRole) : PeerRole :=
  mkPeerRole r (recvRole p).
Definition HasRole (r : PeerRoleFlag) (p : PeerRole) : bool := Has (role p) r.
Definition EqualsRole (r : PeerRoleFlag) (p : PeerRole) : bool := role p =? r.
Definition addRole (r : PeerRoleFlag) (p : PeerRole) : PeerRole :=
  mkPeerRole (SetFlag r (role p)) (recvRole p).
Definition removeRole (r : PeerRoleFlag) (p : PeerRole) : PeerRole :=
  mkPeerRole (UnSetFlag r (role p)) (recvRole p).
Definition setRecvRole (r : PeerRoleFlag) (p : PeerRole) : PeerRole :=
  mkPeerRole (role p) r.
Definition HasRecvRole (r : PeerRoleFlag) (p : PeerRole) : bool := Has (recvRole p) r.

End Roles.

(** ** Listening, dialing and registering *)

Module TransportOps.

Import Network.

(** A call on a [Listener]: [Listen], with what [net.Listen] answers, or
    [Close]. *)
Inductive ListenerCall : Type :=
| CallListen (answer : error + string)
| CallClose_.

Definition listenerCall (c : ListenerCall) (l : Listener)
  : Outcome (option error) * Listener :=
  match c with
  | CallListen answer =>
    let '(err, l1) := Listener_Listen (fun _ => answer) l in (Returned err, l1)
  | CallClose_ => Listener_Close l
  end.

(** A sequence of calls on the same listener (a caller that recovers from
    a panic goes on with the listener as the panic left it). *)
Fixpoint listenerCalls (cs : list ListenerCall) (l : Listener)
  : list (Outcome (option error)) * Listener :=
  match cs with
  | [] => ([], l)
  | c :: cs' =>
    let '(o, l1) := listenerCall c l in
    let '(os, l2) := listenerCalls cs' l1 in
    (o :: os, l2)
  end.

(** [Accepting]: the routine is inside [Accept]; [Stopped]: it has
    returned and the deferred [close(l.closeCh)] has run. *)
Inductive AcceptStatus : Type := Accepting | Stopped.

Section Connecting.

Context {closes : OnErrorClose}.

(** [Listener.acceptRoutine] with [pd.onAccept] as callback, against the
    answers of [l.ln.Accept()]. *)
Fixpoint acceptRoutine (pd : PeerDispatcher) (answers : list (error + Conn))
  : AcceptStatus * list (Outcome unit * Peer * list Event) :=
  match answers with
  | [] => (Accepting, [])
  | inl err :: _ => (Stopped, [])
  | inr c :: rest =>
    let r := onAccept pd c in
    let '(st, rs) := acceptRoutine pd rest in
    (st, r :: rs)
  end.

(** [Dialer]. *)
Record Dialer : Type := mkDialer {
  dialerChannel : string;
  dialerConn : option Conn
}.

Definition newDialer (channel : string) : Dialer := mkDialer channel None.

(** [Dialer.Dial] with [pd.onConnect] as callback; [netDial] is the answer
    of [net.Dial].  The answer is the error, the dialer as the call leaves
    it, and what [onConnect] did when it was called. *)
Definition Dialer_Dial (netDial : string -> error + Conn) (pd : PeerDispatcher)
    (addr : string) (d : Dialer)
  : option error * Dialer * option (Outcome unit * Peer * list Event) :=
  match netDial addr with
  | inl err => (Some err, d, None)
  | inr c =>
    (None, mkDialer (dialerChannel d) (Some c),
     Some (onConnect pd c addr (dialerChannel d)))
  end.

(** [transport.GetDialer] on the field [dMap], dialers kept by value. *)
Definition GetDialer (dMap : gmap string Dialer) (channel : string)
  : Dialer * gmap string Dialer :=
  match dMap !! channel with
  | Some d => (d, dMap)
  | None =>
    let d := newDialer channel in
    (d, <[channel := d]> dMap)
  end.

(** [transport.Dial] on the fields [pd] and [dMap].  The map holds a
    pointer to the dialer, so it sees the connection that [Dial] stores. *)
Definition transport_Dial (netDial : string -> error + Conn) (pd : PeerDispatcher)
    (dMap : gmap string Dialer) (addr channel : string)
  : option error * gmap string Dialer * option (Outcome unit * Peer * list Event) :=
  let '(d, dMap1) := GetDialer dMap channel in
  let '(err, d1, r) := Dialer_Dial netDial pd addr d in
  (err, <[channel := d1]> dMap1, r).

End Connecting.

(** Every dialer sits under its own channel. *)
Definition keyed (dMap : gmap string Dialer) : Prop :=
  forall k d, dMap !! k = Some d -> dialerChannel d = k.

(** Several [setPacketCbFunc] calls in a row. *)
Fixpoint setPacketCbFuncs (cbs : list (option packetCbFunc)) : M unit :=
  match cbs with
  | [] => ret tt
  | cb :: cbs' => run setPacketCbFunc cb then setPacketCbFuncs cbs'
  end.

Definition isStartRoutines (e : Event) : bool :=
  match e with EvStartRoutines => true | _ => false end.

Definition isSomeCb (cb : option packetCbFunc) : bool :=
  match cb with Some _ => true | None => false end.

(** Registering the handlers [hs] one after the other. *)
Definition registPeerHandlers (hs : list Handler) (pd : PeerDispatcher)
  : PeerDispatcher :=
  fold_left (fun pd ph => registPeerHandler ph pd) hs pd.

(** The links that registration leaves between neighbours of the list. *)
Definition linked (d : PeerDispatcher) (hs : list Handler) : Prop :=
  forall i a b, hs !! i = Some a -> hs !! S i = Some b ->
                next (handlers d b) = Some a.

End TransportOps.

(** ** The close log of a peer *)

Module PeerLog.

Import Network.

(** One call of [Close] or [CloseByError], and several in a row by the
    same goroutine. *)
Definition closeCall (c : CloseCall) : M (option error) :=
  match c with
  | CallClose reason => Peer_Close reason
  | CallCloseByError err => Peer_CloseByError err
  end.

Fixpoint closeCalls (cs : list CloseCall) : M unit :=
  match cs with
  | [] => ret tt
  | c :: cs' => run closeCall c then closeCalls cs'
  end.

Definition reasonsOf (cs : list CloseCall) : list string :=
  flat_map (fun c => match c with
                     | CallClose reason => [reason]
                     | CallCloseByError _ => []
                     end) cs.

Definition errorsOf (cs : list CloseCall) : list error :=
  flat_map (fun c => match c with
                     | CallClose _ => []
                     | CallCloseByError err => [err]
                     end) cs.

(** The sentinel errors [io.EOF] and [io.ErrUnexpectedEOF]. *)
Definition io_EOF : error := IOError "EOF".
Definition io_ErrUnexpectedEOF : error := IOError "unexpected EOF".

(** [strings.Contains]. *)
Fixpoint strings_Contains (s substr : string) : bool :=
  if String.prefix substr s then true
  else match s with
       | EmptyString => false
       | String _ s' => strings_Contains s' substr
       end.

(** [Peer.isCloseError]; the text of an [OpError] is that of its inner
    error. *)
Definition isCloseError (err : error) : bool :=
  match err with
  | OpError _ text =>
    if strings_Contains text "use of closed network connection"
       || strings_Contains text "connection reset by peer"
    then true else false
  | _ =>
    if bool_decide (err = io_EOF) || bool_decide (err = io_ErrUnexpectedEOF)
    then true else false
  end.

Section Texts.

(** The [Error()] text of an error, and [fmt.Sprintf("{%T %v}", e, e)]. *)
Variable Error : error -> string.
Variable Sprintf_TV : error -> string.

(** [Peer.HasCloseError]; the argument may be nil. *)
Fixpoint hasCloseErrorFrom (err : option error) (l : list error) : bool :=
  match l with
  | [] => false
  | cerr :: l' =>
    if match err with
       | Some e => bool_decide (cerr = e) || bool_decide (Error cerr = Error e)
       | None => false
       end
    then true
    else hasCloseErrorFrom err l'
  end.

Definition HasCloseError (err : option error) (p : Peer) : bool :=
  hasCloseErrorFrom err (closeErr p).

Definition quote : string := String (ascii_of_nat 34) EmptyString.

(** The two loops of [Peer.CloseInfo], from index [i] with the text built
    so far. *)
Fixpoint reasonLoop (i : nat) (l : list string) (reason : string) : string :=
  match l with
  | [] => reason
  | s :: l' =>
    let reason := match i with
                  | O => reason
                  | S _ => String.append reason ","
                  end in
    let reason := String.append reason (String.append quote (String.append s quote)) in
    reasonLoop (S i) l' reason
  end.

Fixpoint closeErrLoop (i : nat) (l : list error) (closeErr : string) : string :=
  match l with
  | [] => closeErr
  | e :: l' =>
    let closeErr := match i with
                    | O => closeErr
                    | S _ => String.append closeErr ","
                    end in
    let closeErr := if isCloseError e
                    then String.append closeErr "CLOSED_ERR"
                    else closeErr in
    let closeErr := String.append closeErr (Sprintf_TV e) in
    closeErrLoop (S i) l' closeErr
  end.

Definition CloseInfo (p : Peer) : string :=
  let reason := reasonLoop 0 (closeReason p) "reason:[" in
  let reason := String.append reason "]," in
  let closeErr := closeErrLoop 0 (closeErr p) "closeErr:[" in
  let closeErr := String.append closeErr "]" in
  String.append reason closeErr.

(** How [CloseInfo] shows one reason and one error. *)
Definition showReason (s : string) : string :=
  String.append quote (String.append s quote).

Definition showError (e : error) : string :=
  String.append (if isCloseError e then "CLOSED_ERR" else "") (Sprintf_TV e).

End Texts.

End PeerLog.

(** ** The send routine *)

Module SendLoop.

Import Network.

(** Modelled from the spec: [PriorityQueue.Pop] is not part of
    transport.go.  "Pop() drains highest-urgency non-empty level first";
    a lower priority number is more urgent, and within a level the oldest
    context leaves first. *)
Fixpoint popLevels (lv : list (list Context)) : option Context * list (list Context) :=
  match lv with
  | [] => (None, [])
  | [] :: rest =>
    let '(ctx, rest1) := popLevels rest in (ctx, [] :: rest1)
  | (ctx :: fifo) :: rest => (Some ctx, fifo :: rest)
  end.

Definition Pop (pq : PriorityQueue) : option Context * PriorityQueue :=
  let '(ctx, lv) := popLevels (levels pq) in
  (ctx, mkPriorityQueue (levelSize pq) lv).

(** What the connection answers to the three steps of [sendDirect]. *)
Record WriteAnswer : Type := mkWriteAnswer {
  deadlineErr : option error;
  writeErr : option error;
  flushErr : option error
}.

Definition writeOk : WriteAnswer := mkWriteAnswer None None None.

(** The steps of [sendDirect] that the connection accepted. *)
Inductive Wire : Type :=
| SetWriteDeadline
| WritePacket (pkt : Packet)
| Flush.

(** [Peer.sendDirect]. *)
Definition sendDirect (a : WriteAnswer) (pkt : Packet) : option error * list Wire :=
  match deadlineErr a with
  | Some err => (Some err, [])
  | None =>
    match writeErr a with
    | Some err => (Some err, [SetWriteDeadline])
    | None =>
      match flushErr a with
      | Some err => (Some err, [SetWriteDeadline; WritePacket pkt])
      | None => (None, [SetWriteDeadline; WritePacket pkt; Flush])
      end
    end
  end.

(** The packets that were written and flushed. *)
Fixpoint flushed (w : list Wire) : list Packet :=
  match w with
  | WritePacket pkt :: Flush :: w' => pkt :: flushed w'
  | _ :: w' => flushed w'
  | [] => []
  end.

(** How the inner loop of [sendRoutine] ends: [Pop] answers nil, or a
    write fails and the routine returns.  [OutOfFuel] is the bound of the
    recursion, not reached with the fuel [sendRoutine] gives. *)
Inductive DrainEnd : Type :=
| QueueEmpty
| WriteFailed (err : error)
| OutOfFuel.

Record Drained : Type := mkDrained {
  drainEnd : DrainEnd;
  drainPeer : Peer;
  drainWire : list Wire;
  drainEvents : list Event
}.

(** The inner loop: [answer k] is what the connection answers to the
    [k]-th write, [now] the clock of the [Put]s. *)
Fixpoint drain (fuel : nat) (answer : nat -> WriteAnswer) (now : Z) (k : nat) (p : Peer)
  : Drained :=
  match fuel with
  | O => mkDrained OutOfFuel p [] []
  | S fuel' =>
    match Pop (q p) with
    | (None, q1) => mkDrained QueueEmpty (withQ q1 p) [] []
    | (Some ctx, q1) =>
      let p1 := withQ q1 p in
      let pkt := ctxPacket ctx in
      match sendDirect (answer k) pkt with
      | (Some err, w) =>
        let r := Peer_CloseByError err p1 in
        mkDrained (WriteFailed err) (after r) w
                  (EvLog "Peer.sendRoutine Error" :: events r)
      | (None, w) =>
        let p2 := withPool (Put (hashOfPacket pkt) now (pool p1)) p1 in
        let d := drain fuel' answer now (S k) p2 in
        mkDrained (drainEnd d) (drainPeer d) (w ++ drainWire d) (drainEvents d)
      end
    end
  end.

(** What wakes the [select] of [sendRoutine]: the close channel, the
    queue (with the answers of the connection and the clock), or the
    ticker (with the clock). *)
Inductive Wakeup : Type :=
| WakeClose
| WakeQueue (answer : nat -> WriteAnswer) (now : Z)
| WakeTick (now : Z).

Inductive RoutineStatus : Type := Selecting | Returned_.

Record Routine : Type := mkRoutine {
  routineStatus : RoutineStatus;
  routinePeer : Peer;
  routineWire : list Wire;
  routineEvents : list Event
}.

(** [Peer.sendRoutine]. *)
Fixpoint sendRoutine (ws : list Wakeup) (p : Peer) : Routine :=
  match ws with
  | [] => mkRoutine Selecting p [] []
  | WakeClose :: _ => mkRoutine Returned_ p [] []
  | WakeQueue answer now :: rest =>
    let d := drain (S (length (queued (q p)))) answer now 0 p in
    match drainEnd d with
    | QueueEmpty =>
      let r := sendRoutine rest (drainPeer d) in
      mkRoutine (routineStatus r) (routinePeer r)
                (drainWire d ++ routineWire r) (drainEvents d ++ routineEvents r)
    | _ => mkRoutine Returned_ (drainPeer d) (drainWire d) (drainEvents d)
    end
  | WakeTick now :: rest =>
    sendRoutine rest
      (withPool (RemoveBefore DefaultPeerPoolExpireSecond now (pool p)) p)
  end.


(** The first error of an answer, if any. *)
Definition firstError (a : WriteAnswer) : option error :=
  match deadlineErr a with
  | Some err => Some err
  | None =>
    match writeErr a with
    | Some err => Some err
    | None => flushErr a
    end
  end.

(** The pool after the hashes of [l] were put at time [now]. *)
Definition putAll (now : Z) (l : list Context) (tp : TimestampPool) : TimestampPool :=
  fold_left (fun tp ctx => Put (hashOfPacket (ctxPacket ctx)) now tp) l tp.

(** Sample values: [peerA] with two packets queued at priority 3 and one
    at priority 4, and a connection whose second write times out. *)
Definition queuedCtx (h prio : Z) : Context :=
  mkContext (Samples.packetB h prio) (mkCounter 1 0 0 1).

Definition peerWithQueue : Peer :=
  withQ (mkPriorityQueue 2
           [[]; []; []; [queuedCtx 1 3; queuedCtx 2 3]; [queuedCtx 3 4]])
        Samples.peerA.

Definition timeout : error := OpError true "i/o timeout".

Definition secondWriteTimesOut (j : nat) : WriteAnswer :=
  match j with
  | 1 => mkWriteAnswer None (Some timeout) None
  | _ => writeOk
  end.

End SendLoop.

(** ** A run of requests of the sync client *)

Module SyncSession.

Import Sync.

(** A request of the client with its arguments. *)
Inductive Request : Type :=
| AskHasNode (wsHash prHash nrHash vh : bytes)
| AskNodeData (hash : list bytes) (t : Z).

Section Session.

Variables protoHasNode protoResult protoRequestNodeData protoNodeData : ProtocolInfo.
Variable reqIDBits : Z.
Variable MarshalToBytes : Message -> bytes.

(** What [cl.ph.Unicast] answers at the time of one request. *)
Definition Network : Type := ProtocolInfo -> bytes -> PeerID -> option error.

Definition request (r : Request) (Unicast : Network) (p : peer)
  : option error * peer * list SyncEvent :=
  match r with
  | AskHasNode wsHash prHash nrHash vh =>
    hasNode protoHasNode protoResult reqIDBits MarshalToBytes Unicast
            p wsHash prHash nrHash vh
  | AskNodeData hash t =>
    requestNodeData protoRequestNodeData protoNodeData reqIDBits MarshalToBytes Unicast
                    p hash t
  end.

(** Requests made one after the other on the same peer. *)
Fixpoint requests (rs : list (Request * Network)) (p : peer)
  : list (option error) * peer * list SyncEvent :=
  match rs with
  | [] => ([], p, [])
  | (r, Unicast) :: rs' =>
    let '(err, p1, t1) := request r Unicast p in
    let '(errs, p2, t2) := requests rs' p1 in
    (err :: errs, p2, t1 ++ t2)
  end.

End Session.

(** How many of the answers are nil. *)
Fixpoint successes (errs : list (option error)) : Z :=
  match errs with
  | [] => 0
  | None :: errs' => 1 + successes errs'
  | Some _ :: errs' => successes errs'
  end.

(** The [reqID]s of the messages handed to [Unicast], in order. *)
Fixpoint sentIDs (t : list SyncEvent) : list Z :=
  match t with
  | [] => []
  | EvUnicast _ m _ _ :: t' => messageReqID m :: sentIDs t'
  | _ :: t' => sentIDs t'
  end.

End SyncSession.

(** ** The sample token

    client.go is followed by the Java class [SampleToken], a token
    contract.  A [BigInteger] is a [Z], an [int] a [Z] in the signed
    32-bit range, the [DictDB] of balances a finite map.  A call that
    reverts ([Blockchain.require] on a false condition, or a failing
    [Blockchain.call]) is [None]. *)

Module SampleToken.

Local Open Scope Z_scope.

(** [byte[]]. *)
Definition bytes : Type := list Z.

(** [BigInteger.intValue]: the low 32 bits, read as a signed [int]. *)
Definition intValue (z : Z) : Z := (z + 2 ^ 31) mod 2 ^ 32 - 2 ^ 31.

(** The loop of [pow] with [n] rounds left. *)
Fixpoint powLoop (n : nat) (base result : Z) : Z :=
  match n with
  | O => result
  | S n' => powLoop n' base (result * base)
  end.

(** [pow]: the loop runs while [i < exponent], from [i = 0]. *)
Definition pow (base exponent : Z) : Z :=
  powLoop (Z.to_nat exponent) base 1.

Section Contract.

(** [avm.Address], compared with [equals]. *)
Context {Address : Type} `{Countable Address}.

Record Token : Type := mkToken {
  name : string;
  symbol : string;
  decimals : Z;
  totalSupply : Z;
  balances : gmap Address Z
}.

Definition withBalances (b : gmap Address Z) (t : Token) : Token :=
  mkToken (name t) (symbol t) (decimals t) (totalSupply t) b.

(** The constructor, deployed by [origin] ([Blockchain.getOrigin]). *)
Definition newSampleToken (origin : Address) (_name _symbol : string)
           (_decimals _initialSupply : Z) : option Token :=
  let decimals := intValue _decimals in
  if negb (0 <=? decimals) then None
  else if negb (decimals <=? 21) then None
  else if negb (0 <=? _initialSupply) then None
  else
    let totalSupply :=
      if 0 <? _initialSupply then pow 10 decimals * _initialSupply else 0 in
    Some (mkToken _name _symbol decimals totalSupply (<[origin := totalSupply]> ∅)).

Definition safeGetBalance (owner : Address) (t : Token) : Z :=
  default 0 (balances t !! owner).

Definition safeSetBalance (owner : Address) (amount : Z) (t : Token) : Token :=
  withBalances (<[owner := amount]> (balances t)) t.

Definition balanceOf (_owner : Address) (t : Token) : Z :=
  safeGetBalance _owner t.

(** What a call of [transfer] shows outside: the call of the recipient's
    [tokenFallback], and the [Transfer] event log. *)
Inductive TokenEvent : Type :=
| EvTokenFallback (_to _from : Address) (_value : Z) (dataBytes : bytes)
| EvTransfer (_from _to : Address) (_value : Z) (dataBytes : bytes).

(** The chain as [transfer] sees it: which addresses are contracts, and
    whether the recipient's [tokenFallback] returns ([true]) or fails
    ([false]).  The recipient is taken not to call the token back. *)
Record Chain : Type := mkChain {
  isContract : Address -> bool;
  tokenFallback : Address -> Address -> Z -> bytes -> bool
}.

(** [transfer], called by [_from] ([Blockchain.getCaller]); [_data] is
    [None] for [null]. *)
Definition transfer (chain : Chain) (_from _to : Address) (_value : Z)
           (_data : option bytes) (t : Token) : option (Token * list TokenEvent) :=
  let fromBalance := safeGetBalance _from t in
  let toBalance := safeGetBalance _to t in
  if negb (0 <=? _value) then None
  else if negb (_value <=? fromBalance) then None
  else
    let t1 := safeSetBalance _from (fromBalance - _value) t in
    let t2 := safeSetBalance _to (toBalance + _value) t1 in
    let dataBytes := match _data with None => [] | Some d => d end in
    if isContract chain _to then
      if tokenFallback chain _to _from _value dataBytes then
        Some (t2, [EvTokenFallback _to _from _value dataBytes;
                   EvTransfer _from _to _value dataBytes])
      else None
    else Some (t2, [EvTransfer _from _to _value dataBytes]).

(** One call of [transfer] with its caller and arguments. *)
Record Call : Type := mkCall {
  callFrom : Address;
  callTo : Address;
  callValue : Z;
  callData : option bytes
}.

(** A call that reverts leaves the token as it was and logs nothing. *)
Definition call (chain : Chain) (c : Call) (t : Token) : Token * list TokenEvent :=
  match transfer chain (callFrom c) (callTo c) (callValue c) (callData c) t with
  | Some r => r
  | None => (t, [])
  end.

Fixpoint calls (chain : Chain) (cs : list Call) (t : Token)
  : Token * list TokenEvent :=
  match cs with
  | [] => (t, [])
  | c :: cs' =>
    let '(t1, e1) := call chain c t in
    let '(t2, e2) := calls chain cs' t1 in
    (t2, e1 ++ e2)
  end.

(** The sum of all balances. *)
Definition sumBalances (t : Token) : Z :=
  map_fold (fun _ v acc => v + acc) 0 (balances t).

End Contract.

Arguments Token Address {_ _}.
Arguments Chain Address : clear implicits.
Arguments Call Address : clear implicits.
Arguments TokenEvent Address : clear implicits.

(** A deployment for examples: [alice] deploys 5 tokens of 2 decimals. *)
Definition alice : string := "alice".
Definition bob : string := "bob".
Definition plainChain : Chain string := mkChain (fun _ => false) (fun _ _ _ _ => true).
Definition deployed : Token string :=
  mkToken "Sample" "ST" 2 500 (<[alice := 500]> ∅).

End SampleToken.

(** * Properties *)

Import Network.
Import Samples.

(** ** The monad *)

Lemma bind_result {A B} (m : M A) (k : A -> M B) (p : Peer) :
  result (bind m k p) = result (k (result (m p)) (after (m p))).
Proof.
  unfold bind, result, after.
  destruct (m p) as [[a p1] t1]; cbn.
  destruct (k a p1) as [[b0 p2] t2]; reflexivity.
Qed.

Lemma bind_after {A B} (m : M A) (k : A -> M B) (p : Peer) :
  after (bind m k p) = after (k (result (m p)) (after (m p))).
Proof.
  unfold bind, result, after.
  destruct (m p) as [[a p1] t1]; cbn.
  destruct (k a p1) as [[b0 p2] t2]; reflexivity.
Qed.

Lemma bind_events {A B} (m : M A) (k : A -> M B) (p : Peer) :
  events (bind m k p) = events (m p) ++ events (k (result (m p)) (after (m p))).
Proof.
  unfold bind, result, after, events.
  destruct (m p) as [[a p1] t1]; cbn.
  destruct (k a p1) as [[b0 p2] t2]; reflexivity.
Qed.

Lemma run_eta {A} (r : A * Peer * list Event) : r = (result r, after r, events r).
Proof. destruct r as [[a p] t]; reflexivity. Qed.

Ltac monad_simpl :=
  repeat (rewrite ?bind_result, ?bind_after, ?bind_events;
          cbn [ret get modify emit result after events fst snd
               setErrorCbFunc setCloseCbFunc app]).

(** ** Handler chain *)

Lemma setPacketCbFunc_after (cb : packetCbFunc) (p : Peer) :
  after (setPacketCbFunc (Some cb) p) = withOnce true (withOnPacket (Some cb) p).
Proof.
  unfold setPacketCbFunc, bind, modify, get, ret, emit, after; simpl.
  destruct p as [? ? ? ? ? ? ? ? ? ? o ? ? ? ?]; destruct o; reflexivity.
Qed.

Lemma NewTransport_handlers (addr : string) (w : Wallet) :
  peerHandlers (pd (NewTransport addr w)) = [Dispatcher; ChannelNegotiator; Authenticator].
Proof. reflexivity. Qed.

Lemma NewTransport_links (addr : string) (w : Wallet) :
  let d := pd (NewTransport addr w) in
  next (handlers d Authenticator) = Some ChannelNegotiator /\
  next (handlers d ChannelNegotiator) = Some Dispatcher /\
  next (handlers d Dispatcher) = None.
Proof. repeat split. Qed.

(** C1 (counterexample): on the transport that [NewTransport] builds, an
    accepted connection is not handed to the ChannelNegotiator, the
    ChannelNegotiator is not followed by the Authenticator, and the
    Authenticator is not followed by the PeerDispatcher. *)
Lemma accepted_peer_not_given_to_negotiator :
  let d := pd (NewTransport "127.0.0.1:8080" (mkWallet "hx01")) in
  let r := onAccept (closes := noReason) d (mkConn true None) in
  ~ ((exists p, In (EvOnPeer ChannelNegotiator p) (events r)) /\
     next (handlers d ChannelNegotiator) = Some Authenticator /\
     next (handlers d Authenticator) = Some Dispatcher) /\
  ~ (exists p, In (EvOnPeer ChannelNegotiator p) (events r)) /\
  next (handlers d ChannelNegotiator) <> Some Authenticator /\
  next (handlers d Authenticator) <> Some Dispatcher.
Proof.
  cbn. split; [intros [_ [H _]]; discriminate H|].
  split; [|split; discriminate].
  intros [p [H|[H|[H|[]]]]]; discriminate H.
Qed.

Section HandlerChain.

Context {closes : OnErrorClose}.

(** What [dispatchPeer] leaves behind when the list ends in a handler of
    another file. *)
Lemma dispatchPeer_external (d : PeerDispatcher) (ph : Handler) (p : Peer) :
  last (peerHandlers d) = Some ph -> ph <> Dispatcher ->
  let r := dispatchPeer d p in
  result r = Returned tt /\
  onPacket (after r) = Some (onPacketOf ph) /\
  onError (after r) = Some (onErrorOf ph) /\
  onClose (after r) = Some (onCloseOf ph) /\
  last (events r) = Some (EvOnPeer ph (after r)).
Proof.
  intros Hl Hne. unfold dispatchPeer. rewrite Hl.
  destruct ph; try congruence;
    destruct p as [? ? ? ? ? ? ? ? ? ? o ? ? ? ?]; destruct o; cbn; auto.
Qed.

(** The stage before the dispatcher hands the peer to
    [PeerDispatcher.onPeer], with the callbacks of the dispatcher in
    place. *)
Lemma nextOnPeer_to_dispatcher (d : PeerDispatcher) (ph : Handler) (p : Peer) :
  next (handlers d ph) = Some Dispatcher ->
  let p1 := withOnClose (Some (onCloseOf Dispatcher))
              (withOnError (Some (onErrorOf Dispatcher))
                 (withOnce true (withOnPacket (Some (onPacketOf Dispatcher)) p))) in
  after (nextOnPeer d ph p) = after (PeerDispatcher_onPeer d p1) /\
  events (nextOnPeer d ph p)
    = events (setPacketCbFunc (Some (onPacketOf Dispatcher)) p)
        ++ events (PeerDispatcher_onPeer d p1).
Proof.
  intros Hn p1. unfold nextOnPeer. rewrite Hn.
  unfold handler_onPeer.
  monad_simpl. rewrite setPacketCbFunc_after. split; reflexivity.
Qed.

(** C1 (amended): on every transport built by [NewTransport] the stages
    are Authenticator first, then ChannelNegotiator, then PeerDispatcher:
    [dispatchPeer], and so [onAccept] and [onConnect], install the
    callbacks of the Authenticator and call its [onPeer]; the next handler
    of the Authenticator is the ChannelNegotiator, whose next handler is
    the PeerDispatcher, which has none. *)
Theorem pipeline_authenticator_negotiator_dispatcher (addr : string) (w : Wallet) :
  let d := pd (NewTransport addr w) in
  pipeline d = [Authenticator; ChannelNegotiator; Dispatcher] /\
  next (handlers d Authenticator) = Some ChannelNegotiator /\
  next (handlers d ChannelNegotiator) = Some Dispatcher /\
  next (handlers d Dispatcher) = None /\
  (forall p : Peer,
      let r := dispatchPeer d p in
      result r = Returned tt /\
      onPacket (after r) = Some (onPacketOf Authenticator) /\
      onError (after r) = Some (onErrorOf Authenticator) /\
      onClose (after r) = Some (onCloseOf Authenticator) /\
      last (events r) = Some (EvOnPeer Authenticator (after r))) /\
  (forall c : Conn,
      let r := onAccept d c in
      result r = Returned tt /\
      onPacket (after r) = Some (onPacketOf Authenticator) /\
      last (events r) = Some (EvOnPeer Authenticator (after r))) /\
  (forall (c : Conn) (a ch : string),
      let r := onConnect d c a ch in
      result r = Returned tt /\
      onPacket (after r) = Some (onPacketOf Authenticator) /\
      channel (after r) = ch /\
      last (events r) = Some (EvOnPeer Authenticator (after r))) /\
  (forall p : Peer,
      let r := nextOnPeer d Authenticator p in
      onPacket (after r) = Some (onPacketOf ChannelNegotiator) /\
      onError (after r) = Some (onErrorOf ChannelNegotiator) /\
      onClose (after r) = Some (onCloseOf ChannelNegotiator) /\
      last (events r) = Some (EvOnPeer ChannelNegotiator (after r))) /\
  (forall p : Peer,
      let r := nextOnPeer d ChannelNegotiator p in
      exists p1 t1,
        onPacket p1 = Some (onPacketOf Dispatcher) /\
        onError p1 = Some (onErrorOf Dispatcher) /\
        onClose p1 = Some (onCloseOf Dispatcher) /\
        after r = after (PeerDispatcher_onPeer d p1) /\
        events r = t1 ++ events (PeerDispatcher_onPeer d p1)).
Proof.
  intros d.
  assert (Hl : last (peerHandlers d) = Some Authenticator) by reflexivity.
  split; [reflexivity|].
  split; [reflexivity|]. split; [reflexivity|]. split; [reflexivity|].
  split.
  { intros p. apply (dispatchPeer_external d Authenticator p Hl). discriminate. }
  split.
  { intros c. cbn. auto. }
  split.
  { intros c a ch. cbn. auto. }
  split.
  { intros p. destruct p as [? ? ? ? ? ? ? ? ? ? o ? ? ? ?]; destruct o; cbn; auto. }
  intros p.
  destruct (nextOnPeer_to_dispatcher d ChannelNegotiator p eq_refl) as [Ha He].
  eexists; eexists. rewrite Ha, He.
  split; [|split; [|split; [|split]]]; [| | |reflexivity|reflexivity]; reflexivity.
Qed.

End HandlerChain.

(** ** Listener *)

Example Listener_Close_after_Listen :
  let l1 := snd (Listener_Listen (fun a => inr a) (newListener "127.0.0.1:8080")) in
  Listener_Close l1 = (Returned (Some ErrAlreadyClosed), l1).
Proof. reflexivity. Qed.

(** C8: [Listener.Close] answers [ErrAlreadyClosed] exactly when [ln] is
    not nil, that is while the listener is open; it goes past the guard,
    to the call [l.ln.Close()], exactly when [ln] is nil (where that call
    is made on a nil interface).  It never changes the listener. *)
Theorem Listener_Close_already_closed_iff_open (l : Listener) :
  (fst (Listener_Close l) = Returned (Some ErrAlreadyClosed) <-> ln l <> None) /\
  (fst (Listener_Close l) = Panicked "l.ln.Close: nil net.Listener" <-> ln l = None) /\
  snd (Listener_Close l) = l.
Proof.
  unfold Listener_Close. destruct (ln l) as [sock|]; cbn.
  - repeat split; intros; congruence.
  - repeat split; intros; congruence.
Qed.

(** ** NetAddress *)

Example Validate_examples :
  map (Validate GoStd.SplitHostPort GoStd.ParseInt)
      ["127.0.0.1:8080"; "host:1"; "host:65535"; "[::1]:80"]
    = [None; None; None; None] /\
  Validate GoStd.SplitHostPort GoStd.ParseInt "host:0"
    = Some (Errorf "invalid port 0") /\
  Validate GoStd.SplitHostPort GoStd.ParseInt "host:65536"
    = Some (Errorf "invalid port 65536") /\
  Validate GoStd.SplitHostPort GoStd.ParseInt "host"
    = Some (AddrError "missing port in address" "host") /\
  Validate GoStd.SplitHostPort GoStd.ParseInt "host:http"
    = Some (NumError "http" "invalid syntax").
Proof. vm_compute. repeat split. Qed.

(** C9: [Validate] answers nil if and only if the address splits into a
    host and a port and the port parses, in base 10 and 64 bits, as an
    integer between 1 and 65535; for every other string the answer is an
    error. *)
Theorem Validate_nil_iff_port_in_range
    (SplitHostPort : string -> error + (string * string))
    (ParseInt : string -> Z -> Z -> error + Z) (na : NetAddress) :
  (Validate SplitHostPort ParseInt na = None <->
   exists host port i,
     SplitHostPort na = inr (host, port) /\
     ParseInt port 10%Z 64%Z = inr i /\ (1 <= i <= 65535)%Z) /\
  ((~ exists host port i,
       SplitHostPort na = inr (host, port) /\
       ParseInt port 10%Z 64%Z = inr i /\ (1 <= i <= 65535)%Z) ->
   exists err, Validate SplitHostPort ParseInt na = Some err).
Proof.
  assert (Hiff : Validate SplitHostPort ParseInt na = None <->
                 exists host port i,
                   SplitHostPort na = inr (host, port) /\
                   ParseInt port 10%Z 64%Z = inr i /\ (1 <= i <= 65535)%Z).
  { unfold Validate. split.
    - destruct (SplitHostPort na) as [err|[host port]]; [discriminate|].
      destruct (ParseInt port 10%Z 64%Z) as [err|i] eqn:Hp; [discriminate|].
      destruct ((i <? 1)%Z || (i >? 65535)%Z) eqn:Hr; [discriminate|].
      intros _. exists host, port, i. repeat split; try assumption;
        apply orb_false_iff in Hr; destruct Hr as [H1 H2]; lia.
    - intros (host & port & i & Hs & Hp & Hr).
      rewrite Hs, Hp.
      replace ((i <? 1)%Z || (i >? 65535)%Z) with false; [reflexivity|].
      symmetry. apply orb_false_iff. split; lia. }
  split; [exact Hiff|].
  intros Hno.
  destruct (Validate SplitHostPort ParseInt na) as [err|] eqn:Hv.
  - exists err. reflexivity.
  - exfalso. apply Hno. apply Hiff. reflexivity.
Qed.

(** ** State sync *)

Section SyncProperties.

Variables protoHasNode protoResult protoRequestNodeData protoNodeData : Sync.ProtocolInfo.
Variable reqIDBits : Z.
Variable MarshalToBytes : Sync.Message -> Sync.bytes.
Variable Unicast : Sync.ProtocolInfo -> Sync.bytes -> Sync.PeerID -> option Sync.error.

Let hasNode := Sync.hasNode protoHasNode protoResult reqIDBits MarshalToBytes Unicast.
Let requestNodeData :=
  Sync.requestNodeData protoRequestNodeData protoNodeData reqIDBits MarshalToBytes Unicast.
Let OnReceive := Sync.OnReceive protoHasNode protoResult protoRequestNodeData protoNodeData.

(** Inside the range of its type the next request identifier is the
    current one plus one. *)
Lemma nextReqID_in_range (p : Sync.peer) :
  (0 <= Sync.reqID p)%Z -> (Sync.reqID p + 1 < 2 ^ reqIDBits)%Z ->
  Sync.nextReqID reqIDBits p = (Sync.reqID p + 1)%Z.
Proof. intros H0 H1. unfold Sync.nextReqID. apply Z.mod_small. lia. Qed.

(** C7: both requests send a message whose [reqID] is [p.reqID + 1]; when
    [Unicast] fails they answer that error and leave the peer as it was
    (same [reqID], same [timer]); when it succeeds the peer takes the new
    [reqID] and a timer of 300 ms whose expiry calls [expired] with
    [receiveTimeExpired] and the protocol of the reply ([protoResult] for
    [hasNode], [protoNodeData] for [requestNodeData]), no bytes, and this
    peer. *)
Theorem request_sets_reqID_and_timer_on_success_only
    (p : Sync.peer) (wsHash prHash nrHash vh : Sync.bytes)
    (hash : list Sync.bytes) (t : Z) :
  let n := Sync.nextReqID reqIDBits p in
  let m1 := Sync.hasNode_ n wsHash vh prHash nrHash in
  let m2 := Sync.requestNodeData_ n t hash in
  let r1 := hasNode p wsHash prHash nrHash vh in
  let r2 := requestNodeData p hash t in
  let armed (reply : Sync.ProtocolInfo) (p' : Sync.peer) :=
    Sync.id p' = Sync.id p /\ Sync.reqID p' = n /\
    Sync.timer p' = Some (Sync.mkTimer 300000000
                            (Sync.mkExpired Sync.receiveTimeExpired reply None)) /\
    Sync.fire p' = Some (Sync.mkExpired Sync.receiveTimeExpired reply None, p') in
  Sync.messageReqID m1 = n /\ Sync.messageReqID m2 = n /\
  ((0 <= Sync.reqID p)%Z -> (Sync.reqID p + 1 < 2 ^ reqIDBits)%Z ->
   n = (Sync.reqID p + 1)%Z) /\
  head r1.2 = Some (Sync.EvUnicast protoHasNode m1 (MarshalToBytes m1) (Sync.id p)) /\
  head r2.2 = Some (Sync.EvUnicast protoRequestNodeData m2 (MarshalToBytes m2) (Sync.id p)) /\
  match Unicast protoHasNode (MarshalToBytes m1) (Sync.id p) with
  | Some err => r1.1.1 = Some err /\ r1.1.2 = p
  | None => r1.1.1 = None /\ armed protoResult r1.1.2
  end /\
  match Unicast protoRequestNodeData (MarshalToBytes m2) (Sync.id p) with
  | Some err => r2.1.1 = Some err /\ r2.1.2 = p
  | None => r2.1.1 = None /\ armed protoNodeData r2.1.2
  end.
Proof.
  intros n m1 m2 r1 r2 armed.
  split; [reflexivity|]. split; [reflexivity|].
  split; [apply nextReqID_in_range|].
  subst r1 r2 hasNode requestNodeData. unfold Sync.hasNode, Sync.requestNodeData.
  fold n. fold m1. fold m2.
  destruct (Unicast protoHasNode (MarshalToBytes m1) (Sync.id p)) as [e1|];
    destruct (Unicast protoRequestNodeData (MarshalToBytes m2) (Sync.id p)) as [e2|];
    cbn; unfold armed; cbn; repeat split.
Qed.

(** C10: [OnReceive] always answers [(false, nil)] and leaves the manager
    as it was; for a sender that is not in the pool nothing but log lines
    happens; a message reaches the syncer only when [syncing] is true and
    the protocol is [protoResult] or [protoNodeData], and then it is the
    message received, with the pool's peer; and with [syncing] true every
    such message from a pooled peer does reach the syncer, unless its tag
    is also one of the two server tags. *)
Theorem OnReceive_returns_false_nil
    (m : Sync.Manager) (pi : Sync.ProtocolInfo) (b : Sync.bytes) (from : Sync.PeerID) :
  let r := OnReceive m pi b from in
  r.1.1 = (false, None) /\
  r.1.2 = m /\
  (Sync.pool m !! from = None ->
   forall e, In e r.2 -> exists what, e = Sync.EvLogf what) /\
  (forall pi' b' p', In (Sync.EvSyncerOnReceive pi' b' p') r.2 ->
     Sync.syncing m = true /\ (pi = protoResult \/ pi = protoNodeData) /\
     pi' = pi /\ b' = b /\ Sync.pool m !! from = Some p') /\
  (forall p', Sync.pool m !! from = Some p' -> Sync.syncing m = true ->
     pi = protoResult \/ pi = protoNodeData ->
     pi <> protoHasNode -> pi <> protoRequestNodeData ->
     In (Sync.EvSyncerOnReceive pi b p') r.2).
Proof.
  intros r. subst r OnReceive. unfold Sync.OnReceive.
  destruct (Sync.pool m !! from) as [p|] eqn:Hp;
    [destruct (bool_decide (pi = protoHasNode) || bool_decide (pi = protoRequestNodeData))
       eqn:Hs;
     [|destruct (bool_decide (pi = protoResult) || bool_decide (pi = protoNodeData))
         eqn:Hc; [destruct (Sync.syncing m) eqn:Hsy|]]|];
    cbn [fst snd];
    (split; [reflexivity|split; [reflexivity|split; [|split]]]).
  all: try (intros Hn; discriminate Hn).
  all: try lazymatch goal with
           | |- forall pi' b' p', In _ _ -> _ =>
             intros pi' b' p' Hin; cbn in Hin;
             repeat (destruct Hin as [Hin|Hin]); try discriminate Hin;
             try contradiction
           end.
  - intros p' _ _ _ H1 H2. exfalso.
    apply orb_true_iff in Hs. destruct Hs as [H|H];
      apply bool_decide_eq_true in H; contradiction.
  - injection Hin as -> -> ->.
    apply orb_true_iff in Hc.
    repeat split; try reflexivity.
    destruct Hc as [H|H]; apply bool_decide_eq_true in H; auto.
  - intros p' Hp' _ _ _ _. right. left. congruence.
  - intros p' _ Hsy' _ _ _. discriminate Hsy'.
  - intros p' _ _ Hpi _ _. exfalso.
    apply orb_false_iff in Hc. destruct Hc as [H1 H2].
    apply bool_decide_eq_false in H1, H2. tauto.
  - intros _ e Hin. cbn in Hin.
    destruct Hin as [H|[H|[]]]; subst e; eauto.
  - intros p' Hp'. discriminate Hp'.
Qed.

End SyncProperties.

(** ** Closing a peer *)

(** The peer after the goroutine that won the compare-and-swap has closed
    the connection and the channel. *)
Lemma Peer__close_after (p : Peer) :
  after (Peer__close p)
  = if (closed p =? 0)%Z
    then withClose true (withConn (mkConn false (connCloseErr (conn p))) (withClosed 1 p))
    else p.
Proof.
  unfold Peer__close. monad_simpl.
  destruct (closed p =? 0)%Z; [|reflexivity].
  monad_simpl.
  destruct (connCloseErr (conn p)); monad_simpl;
    unfold callClose; monad_simpl; cbn [onClose withClose withConn withClosed];
    destruct (onClose p) as [[|[]]|]; reflexivity.
Qed.

Lemma Peer__close_events (p : Peer) :
  (closed p <> 0)%Z -> events (Peer__close p) = [].
Proof.
  intros H. unfold Peer__close. monad_simpl.
  destruct (closed p =? 0)%Z eqn:E; [apply Z.eqb_eq in E; contradiction|reflexivity].
Qed.

Lemma Peer__close_IsClosed (p : Peer) :
  closed p = 0%Z \/ closed p = 1%Z -> IsClosed (after (Peer__close p)) = true.
Proof.
  intros H. rewrite Peer__close_after. unfold IsClosed.
  destruct H as [H|H]; rewrite H; cbn; [reflexivity|].
  rewrite H. reflexivity.
Qed.

Lemma Peer__close_keeps_log (p : Peer) :
  closeReason (after (Peer__close p)) = closeReason p /\
  closeErr (after (Peer__close p)) = closeErr p /\
  onPacket (after (Peer__close p)) = onPacket p /\
  onError (after (Peer__close p)) = onError p /\
  onClose (after (Peer__close p)) = onClose p /\
  q (after (Peer__close p)) = q p /\
  pool (after (Peer__close p)) = pool p /\
  id (after (Peer__close p)) = id p.
Proof.
  rewrite Peer__close_after. destruct (closed p =? 0)%Z; repeat split.
Qed.

(** Closing an open peer closes the connection, closes the channel and
    calls the close callback, once each and in this order. *)
Lemma Peer__close_open_counts (p : Peer) :
  closed p = 0%Z ->
  countEv isConnClose (events (Peer__close p)) = 1 /\
  countEv isChanClose (events (Peer__close p)) = 1 /\
  countEv isCloseCb (events (Peer__close p)) = 1.
Proof.
  intros H. unfold Peer__close. monad_simpl. rewrite H. cbn [Z.eqb].
  monad_simpl.
  destruct (connCloseErr (conn p)); monad_simpl;
    unfold callClose; monad_simpl; cbn [onClose withClose withConn withClosed];
    destruct (onClose p) as [[|[]]|]; cbn; repeat split.
Qed.

(** ** Peer dispatcher *)

Section PeerDispatcherProperties.

Context {closes : OnErrorClose}.

(** [Close] is [_close] on the peer with the reason appended. *)
Lemma Peer_Close_run (reason : string) (p : Peer) :
  let p1 := withCloseReason (closeReason p ++ [reason]) p in
  after (Peer_Close reason p) = after (Peer__close p1) /\
  events (Peer_Close reason p) = events (Peer__close p1).
Proof.
  cbv zeta. unfold Peer_Close, addCloseReason. monad_simpl. split; reflexivity.
Qed.

Lemma peerHandler_onError_after (err : error) (pkt : option Packet) (p : Peer) :
  after (peerHandler_onError err pkt p) = after (Peer_Close onErrorReason p).
Proof. unfold peerHandler_onError. monad_simpl. reflexivity. Qed.

Lemma peerHandler_onError_events (err : error) (pkt : option Packet) (p : Peer) :
  events (peerHandler_onError err pkt p)
  = EvLogErr "onError" err :: events (Peer_Close onErrorReason p).
Proof.
  unfold peerHandler_onError. monad_simpl. now rewrite app_nil_r.
Qed.

(** C6 (amended): with an overlay registered for the channel of the peer,
    [onPeer] installs the packet, error and close callbacks of that
    overlay and calls its [onPeer], and does not close the peer; without
    one it builds the error "not exists PeerToPeer[<channel>]" and calls
    its own [onError] with it, which logs it and closes the peer
    (connection closed, channel closed, close callback called, once each,
    when the peer was open). *)
Theorem onPeer_hands_over_or_closes_through_onError (d : PeerDispatcher) (p : Peer) :
  let r := PeerDispatcher_onPeer d p in
  match p2pMap d !! channel p with
  | Some p2p =>
    let h := Overlay (p2pChannel p2p) in
    onPacket (after r) = Some (onPacketOf h) /\
    onError (after r) = Some (onErrorOf h) /\
    onClose (after r) = Some (onCloseOf h) /\
    last (events r) = Some (EvOnPeer h (after r)) /\
    closed (after r) = closed p /\
    closeReason (after r) = closeReason p /\
    countEv isCloseCb (events r) = 0
  | None =>
    let err := Errorf (String.append "not exists PeerToPeer["
                         (String.append (channel p) "]")) in
    after r = after (peerHandler_onError err None p) /\
    events r = EvLog "onPeer" :: events (peerHandler_onError err None p) /\
    In (EvLogErr "onError" err) (events r) /\
    (closed p = 0%Z \/ closed p = 1%Z -> IsClosed (after r) = true) /\
    (closed p = 0%Z ->
     countEv isConnClose (events r) = 1 /\
     countEv isChanClose (events r) = 1 /\
     countEv isCloseCb (events r) = 1)
  end.
Proof.
  intros r. subst r. unfold PeerDispatcher_onPeer.
  destruct (p2pMap d !! channel p) as [p2p|] eqn:Hm.
  - monad_simpl. rewrite Hm. monad_simpl.
    rewrite setPacketCbFunc_after.
    destruct p as [? ? ? ? ? ? ? ? ? ? o ? ? ? ?]; destruct o; cbn; repeat split.
  - monad_simpl. rewrite Hm. cbv zeta.
    split; [reflexivity|]. split; [reflexivity|].
    rewrite peerHandler_onError_after, peerHandler_onError_events.
    destruct (Peer_Close_run onErrorReason p) as [Ha He]. cbv zeta in Ha, He.
    rewrite Ha, He.
    set (p1 := withCloseReason _ p).
    split; [right; left; reflexivity|].
    split; [intros H0; apply Peer__close_IsClosed; exact H0|].
    intros H0. destruct (Peer__close_open_counts p1 H0) as (H1 & H2 & H3).
    cbn [countEv isConnClose isChanClose isCloseCb Nat.add app]. auto.
Qed.

End PeerDispatcherProperties.

(** C6 (counterexample): a dispatcher without overlays gets a peer of
    channel "main".  [onPeer] hands the error "not exists
    PeerToPeer[main]" to [onError], and the reason that ends up among the
    close reasons is the one the [Close] of [onError] records for any
    error whatever: the reason "no p2p for channel" is not given by
    [onPeer], and it is not there when that [Close] records another. *)
Lemma no_overlay_reason_is_not_given_by_onPeer :
  ~ (forall closes : OnErrorClose,
       p2pMap bareDispatcher !! channel mainPeer = None ->
       In "no p2p for channel"
          (closeReason (after (PeerDispatcher_onPeer bareDispatcher mainPeer)))) /\
  (forall (closes : OnErrorClose) (err : error) (pkt : option Packet),
      closeReason (after (PeerDispatcher_onPeer bareDispatcher mainPeer))
      = closeReason (after (peerHandler_onError err pkt mainPeer))).
Proof.
  split.
  - intros H. specialize (H noReason eq_refl). cbn in H.
    destruct H as [H|[]]. discriminate H.
  - intros closes err pkt. reflexivity.
Qed.

(** ** Sending *)

Section SendProperties.

Variable updateHash : bool -> Packet -> Packet.

Lemma isDuplicatedToSend_own_packet (p : Peer) (pkt : Packet) (pid : PeerID) :
  id p = Some pid -> src pkt = pid ->
  isDuplicatedToSend updateHash p pkt = Returned (true, pkt).
Proof.
  intros Hid Hs. unfold isDuplicatedToSend, Equal. rewrite Hid.
  rewrite bool_decide_eq_true_2 by congruence. reflexivity.
Qed.

Lemma isDuplicatedToSend_other_packet (p : Peer) (pkt : Packet) (pid : PeerID) :
  id p = Some pid -> src pkt <> pid ->
  isDuplicatedToSend updateHash p pkt
  = if forceSend pkt then Returned (false, pkt)
    else if bool_decide (sender pkt = Some pid) then Returned (true, pkt)
    else Returned (Contains (hashOfPacket (updateHash false pkt)) (pool p),
                   updateHash false pkt).
Proof.
  intros Hid Hs. unfold isDuplicatedToSend, Equal. rewrite Hid.
  rewrite bool_decide_eq_false_2 by congruence.
  destruct (forceSend pkt); cbn [negb]; [reflexivity|].
  destruct (sender pkt) as [s|].
  - destruct (decide (pid = s)) as [->|Hne].
    + rewrite !bool_decide_eq_true_2 by reflexivity. reflexivity.
    + rewrite !bool_decide_eq_false_2 by congruence.
      destruct (Contains _ _); reflexivity.
  - rewrite bool_decide_eq_false_2 by discriminate.
    destruct (Contains _ _); reflexivity.
Qed.

(** A duplicate is refused and the peer, and so its queue, stays as it
    was. *)
Lemma send_refuses_duplicate (p : Peer) (ctx : Context) (pkt1 : Packet) :
  isDuplicatedToSend updateHash p (ctxPacket ctx) = Returned (true, pkt1) ->
  exists e ctx',
    send updateHash (Some p) ctx = Returned (Some e, ctx', Some p) /\
    (e = ErrNotAvailable \/ e = ErrDuplicatedPacket).
Proof.
  intros Hd. unfold send. destruct (IsClosed p).
  - eauto.
  - rewrite Hd. eauto.
Qed.

End SendProperties.

(** C3: for a peer with identifier [pid], [isDuplicatedToSend] is true
    when [pkt.src] is [pid]; otherwise, with [forceSend] false, it is true
    when [pkt.sender] is [pid], and else it is true exactly when the pool
    holds the hash of the packet (as [updateHash(false)] leaves it); with
    [forceSend] true both checks are skipped and it is false.  A packet for
    which it is true is not enqueued by [send]: the call answers an error
    and the peer is unchanged. *)
Theorem isDuplicatedToSend_cases
    (updateHash : bool -> Packet -> Packet) (p : Peer) (pkt : Packet) (pid : PeerID)
    (Hid : id p = Some pid) :
  (src pkt = pid ->
   isDuplicatedToSend updateHash p pkt = Returned (true, pkt)) /\
  (src pkt <> pid -> forceSend pkt = false -> sender pkt = Some pid ->
   isDuplicatedToSend updateHash p pkt = Returned (true, pkt)) /\
  (src pkt <> pid -> forceSend pkt = false -> sender pkt <> Some pid ->
   isDuplicatedToSend updateHash p pkt
   = Returned (Contains (hashOfPacket (updateHash false pkt)) (pool p),
               updateHash false pkt)) /\
  (src pkt <> pid -> forceSend pkt = true ->
   isDuplicatedToSend updateHash p pkt = Returned (false, pkt)) /\
  (forall (c : Counter) (pkt1 : Packet),
     isDuplicatedToSend updateHash p pkt = Returned (true, pkt1) ->
     exists e ctx',
       send updateHash (Some p) (mkContext pkt c) = Returned (Some e, ctx', Some p) /\
       (e = ErrNotAvailable \/ e = ErrDuplicatedPacket)).
Proof.
  split; [intros Hs; now apply (isDuplicatedToSend_own_packet updateHash p pkt pid)|].
  split.
  { intros Hs Hf Hsd.
    rewrite (isDuplicatedToSend_other_packet updateHash p pkt pid Hid Hs), Hf.
    rewrite bool_decide_eq_true_2 by assumption. reflexivity. }
  split.
  { intros Hs Hf Hsd.
    rewrite (isDuplicatedToSend_other_packet updateHash p pkt pid Hid Hs), Hf.
    rewrite bool_decide_eq_false_2 by assumption. reflexivity. }
  split.
  { intros Hs Hf.
    rewrite (isDuplicatedToSend_other_packet updateHash p pkt pid Hid Hs), Hf.
    reflexivity. }
  intros c pkt1 Hd.
  apply (send_refuses_duplicate updateHash p (mkContext pkt c) pkt1 Hd).
Qed.

(** A packet whose hash is in the pool of [peerA] is a duplicate for it. *)
Lemma isDuplicatedToSend_cases_witness :
  id (withPool (Put 7 0 ∅) peerA) = Some "hxA" /\
  isDuplicatedToSend keepHash (withPool (Put 7 0 ∅) peerA) (packetB 7 3)
  = Returned (true, packetB 7 3).
Proof.
  split; [reflexivity|].
  exact (proj1 (proj2 (proj2
           (isDuplicatedToSend_cases keepHash (withPool (Put 7 0 ∅) peerA)
              (packetB 7 3) "hxA" eq_refl)))
           ltac:(discriminate) eq_refl ltac:(discriminate)).
Defined.

(** One more context in a level is one more context in the queue. *)
Lemma queued_after_push (lv : list (list Context)) (i : nat) (fifo : list Context)
    (ctx : Context) :
  lv !! i = Some fifo ->
  length (concat (<[i := fifo ++ [ctx]]> lv)) = S (length (concat lv)) /\
  In ctx (concat (<[i := fifo ++ [ctx]]> lv)).
Proof.
  revert i. induction lv as [|x lv IH]; intros i Hl; [discriminate|].
  destruct i as [|i].
  - cbn in Hl. injection Hl as ->. cbn. rewrite !length_app. cbn. split; [lia|].
    apply in_or_app. left. apply in_or_app. right. left. reflexivity.
  - cbn in Hl. destruct (IH i Hl) as [Hlen Hin].
    change (<[S i := fifo ++ [ctx]]> (x :: lv)) with (x :: <[i := fifo ++ [ctx]]> lv).
    change (concat (x :: <[i := fifo ++ [ctx]]> lv))
      with (x ++ concat (<[i := fifo ++ [ctx]]> lv)).
    change (concat (x :: lv)) with (x ++ concat lv).
    rewrite !length_app, Hlen.
    split; [lia|]. apply in_or_app. right. exact Hin.
Qed.

Lemma Push_spec (ctx : Context) (prio : Z) (pq : PriorityQueue) (i : nat)
    (fifo : list Context) :
  levelOf prio = Some i -> levels pq !! i = Some fifo ->
  Push ctx prio pq
  = if (levelSize pq <=? length fifo)%nat then (false, pq)
    else (true, mkPriorityQueue (levelSize pq) (<[i := fifo ++ [ctx]]> (levels pq))).
Proof.
  intros Hi Hl. unfold Push. rewrite Hi, Hl.
  destruct (Nat.ltb_spec (length fifo) (levelSize pq));
    destruct (Nat.leb_spec (levelSize pq) (length fifo)); try lia; reflexivity.
Qed.

(** The overflow scenario: with level 3 of [peerA] full, a further packet
    of priority 3 overflows and one of priority 0 is enqueued. *)
Example send_overflow_scenario :
  let send' p pkt := sendPacket keepHash (Some p) pkt in
  exists c1 p1 c2 p2 c3 c4 p4,
    send' peerA (packetB 1 3) = Returned (None, c1, Some p1) /\
    send' p1 (packetB 2 3) = Returned (None, c2, Some p2) /\
    send' p2 (packetB 3 3) = Returned (Some ErrQueueOverflow, c3, Some p2) /\
    send' p2 (packetB 4 0) = Returned (None, c4, Some p4) /\
    map (fun c => hashOfPacket (ctxPacket c)) (queued (q p4)) = [4; 1; 2]%Z.
Proof. cbn. repeat eexists. Qed.

(** The pool is filled when a packet is read or written, not when it is
    queued: the same packet is queued twice; once its hash is in the pool
    it is refused, unless [forceSend] is set. *)
Example send_same_packet_twice :
  let send' p pkt := sendPacket keepHash (Some p) pkt in
  let forced := mkPacket "hxB" 0x0101 3 1 [0xAA%Z] None true in
  exists c1 p1 c2 p2 c3 c4 p4,
    send' peerA (packetB 1 3) = Returned (None, c1, Some p1) /\
    send' p1 (packetB 1 3) = Returned (None, c2, Some p2) /\
    send' (withPool (Put 1 0 (pool peerA)) peerA) (packetB 1 3)
      = Returned (Some ErrDuplicatedPacket, c3, Some (withPool (Put 1 0 (pool peerA)) peerA)) /\
    send' (withPool (Put 1 0 (pool peerA)) peerA) forced
      = Returned (None, c4, Some p4) /\
    length (queued (q p2)) = 2 /\ length (queued (q p4)) = 1.
Proof. cbn. repeat eexists. Qed.

(** C4: [send] on a nil or closed peer answers [ErrNotAvailable];
    otherwise, on a duplicate, [ErrDuplicatedPacket] with the peer
    unchanged; otherwise, when the FIFO of the packet's priority is full
    (whenever [Push] answers false), [ErrQueueOverflow] with the peer
    unchanged; otherwise nil, and the context is appended to that FIFO,
    the only change to the peer.  [sendPacket] is [send] on a fresh
    context. *)
Theorem send_error_order
    (updateHash : bool -> Packet -> Packet) (po : option Peer) (ctx : Context)
    (pkt : Packet) :
  let r := send updateHash po ctx in
  match po with
  | None => r = Returned (Some ErrNotAvailable, ctx, None)
  | Some p =>
    if IsClosed p then r = Returned (Some ErrNotAvailable, ctx, Some p)
    else
      match isDuplicatedToSend updateHash p (ctxPacket ctx) with
      | Panicked why => r = Panicked why
      | Returned (true, pkt1) =>
        exists ctx', r = Returned (Some ErrDuplicatedPacket, ctx', Some p) /\
                     ctxPacket ctx' = pkt1
      | Returned (false, pkt1) =>
        (forall i fifo,
          levelOf (priority pkt1) = Some i -> levels (q p) !! i = Some fifo ->
          if (levelSize (q p) <=? length fifo)%nat
          then exists ctx', r = Returned (Some ErrQueueOverflow, ctx', Some p) /\
                            ctxPacket ctx' = pkt1
          else exists ctx' p',
              r = Returned (None, ctx', Some p') /\
              ctxPacket ctx' = pkt1 /\
              p' = withQ (mkPriorityQueue (levelSize (q p))
                            (<[i := fifo ++ [ctx']]> (levels (q p)))) p /\
              In ctx' (queued (q p')) /\
              length (queued (q p')) = S (length (queued (q p)))) /\
        match Push (mkContext pkt1 (incEnqueue (incPeer (ctxCounter ctx))))
                   (priority pkt1) (q p) with
        | (false, _) =>
          exists ctx', r = Returned (Some ErrQueueOverflow, ctx', Some p)
        | (true, q1) =>
          exists ctx', r = Returned (None, ctx', Some (withQ q1 p))
        end
      end
  end /\
  sendPacket updateHash po pkt = send updateHash po (mkContext pkt (mkCounter 0 0 0 0)).
Proof.
  intros r. subst r. split.
  - destruct po as [p|]; [|reflexivity].
    unfold send. destruct (IsClosed p); [reflexivity|].
    destruct (isDuplicatedToSend updateHash p (ctxPacket ctx)) as [[[|] pkt1]|why];
      [eauto| |reflexivity].
    split; [|destruct (Push _ (priority pkt1) (q p)) as [[|] q1]; eauto].
    intros i fifo Hi Hl.
    rewrite (Push_spec _ _ _ i fifo Hi Hl).
    destruct (levelSize (q p) <=? length fifo)%nat; [eauto|].
    eexists; eexists. split; [reflexivity|]. split; [reflexivity|].
    split; [reflexivity|].
    unfold queued. cbn [q withQ levels].
    destruct (queued_after_push (levels (q p)) i fifo
                (mkContext pkt1 (incEnqueue (incPeer (ctxCounter ctx)))) Hl) as [Hlen Hin].
    split; assumption.
  - destruct po as [p|]; [|reflexivity].
    unfold sendPacket, send. destruct (IsClosed p); reflexivity.
Qed.

(** ** The receive routine *)

Section ReceiveProperties.

Context {closes : OnErrorClose}.

Lemma Peer__close_stamped (p : Peer) : Forall stamped (events (Peer__close p)).
Proof.
  unfold Peer__close. monad_simpl.
  destruct (closed p =? 0)%Z; [|constructor].
  monad_simpl.
  destruct (connCloseErr (conn p)); monad_simpl;
    unfold callClose; monad_simpl; cbn [onClose withClose withConn withClosed];
    destruct (onClose p) as [[|[]]|]; cbn; repeat constructor.
Qed.

Lemma Peer_Close_stamped (reason : string) (p : Peer) :
  Forall stamped (events (Peer_Close reason p)).
Proof.
  unfold Peer_Close, addCloseReason. monad_simpl. apply Peer__close_stamped.
Qed.

Lemma Peer_CloseByError_stamped (err : error) (p : Peer) :
  Forall stamped (events (Peer_CloseByError err p)).
Proof.
  unfold Peer_CloseByError, addCloseError. monad_simpl. apply Peer__close_stamped.
Qed.

Lemma Peer_CloseByError_closeErr (err : error) (p : Peer) :
  closeErr (after (Peer_CloseByError err p)) = closeErr p ++ [err].
Proof.
  unfold Peer_CloseByError, addCloseError. monad_simpl.
  destruct (Peer__close_keeps_log (withCloseErr (closeErr p ++ [err]) p)) as (_ & H & _).
  rewrite H. reflexivity.
Qed.

Lemma Peer_Close_closeErr (reason : string) (p : Peer) :
  closeErr (after (Peer_Close reason p)) = closeErr p.
Proof.
  unfold Peer_Close, addCloseReason. monad_simpl.
  destruct (Peer__close_keeps_log (withCloseReason (closeReason p ++ [reason]) p))
    as (_ & H & _).
  rewrite H. reflexivity.
Qed.

Lemma callError_stamped (cb : errorCbFunc) (err : error) (pkt : option Packet) (p : Peer) :
  Forall stamped (events (callError cb err pkt p)).
Proof.
  unfold callError. monad_simpl. constructor; [exact I|].
  destruct cb as [|[]]; monad_simpl; try constructor.
  - rewrite app_nil_r. apply Peer_CloseByError_stamped.
  - rewrite peerHandler_onError_events. constructor; [exact I|].
    apply Peer_Close_stamped.
Qed.

Lemma Contains_Put (h now : Z) (tp : TimestampPool) : Contains h (Put h now tp) = true.
Proof.
  unfold Contains, Put. apply bool_decide_eq_true.
  exists now. apply lookup_insert_eq.
Qed.

(** One turn on a packet: what the callback is given. *)
Lemma receiveOnce_packet (r : Read) (pkt0 : Packet) (p : Peer) (cb : packetCbFunc) :
  readResult r = ReadPacket pkt0 -> onPacket p = Some cb ->
  let pkt := setSender (id p) pkt0 in
  let p1 := withPool (Put (hashOfPacket pkt) (readTime r) (pool p)) p in
  exists rest,
    events (receiveOnce r p) = EvMetricOnRecv pkt :: EvPacketCb cb pkt p1 :: rest /\
    (rest = [] \/ rest = [EvLog "PeerDispatcher.onPacket"]) /\
    after (receiveOnce r p) = p1.
Proof.
  intros Hr Hcb pkt p1. unfold receiveOnce. rewrite Hr. monad_simpl.
  cbn [onPacket withPool]. rewrite Hcb.
  destruct (cbPanics r) as [v|]; monad_simpl.
  - exists []. auto.
  - unfold callPacket. monad_simpl.
    destruct cb as [[]]; monad_simpl; eexists; (split; [reflexivity|]); auto.
Qed.

Lemma receiveOnce_stamped (r : Read) (p : Peer) :
  Forall stamped (events (receiveOnce r p)).
Proof.
  unfold receiveOnce. destruct (readResult r) as [pkt0|err pkt] eqn:Hr.
  - destruct (onPacket p) as [cb|] eqn:Hcb.
    + destruct (receiveOnce_packet r pkt0 p cb Hr Hcb) as (rest & He & Hrest & _).
      unfold receiveOnce in He. rewrite Hr in He. rewrite He.
      constructor; [exact I|]. constructor.
      * cbn. split; [reflexivity|]. split; [apply Contains_Put|exact Hcb].
      * destruct Hrest as [->| ->]; repeat constructor.
    + monad_simpl. cbn [onPacket withPool]. rewrite Hcb. monad_simpl.
      repeat constructor.
  - monad_simpl. constructor; [exact I|].
    destruct (isTemporaryError err); cbn [negb].
    + monad_simpl. destruct (cbPanics r); monad_simpl.
      * repeat constructor.
      * rewrite app_nil_r. apply callError_stamped.
    + monad_simpl. rewrite app_nil_r. apply Peer_CloseByError_stamped.
Qed.

Lemma receiveOnce_goesOn (r : Read) (p : Peer) :
  goesOn r = true -> result (receiveOnce r p) = Continue.
Proof.
  unfold goesOn, permanentError, receiveOnce. intros H.
  apply andb_true_iff in H. destruct H as [H1 H2].
  destruct (cbPanics r); [discriminate|].
  destruct (readResult r) as [pkt0|err pkt].
  - monad_simpl. cbn [onPacket withPool].
    destruct (onPacket p); monad_simpl; reflexivity.
  - apply negb_true_iff in H1. rewrite H1. monad_simpl. reflexivity.
Qed.

Lemma receiveRoutine_continue (r : Read) (rest : list Read) (p : Peer) :
  result (receiveOnce r p) = Continue ->
  receiveRoutine (r :: rest) p
  = (result (receiveRoutine rest (after (receiveOnce r p))),
     after (receiveRoutine rest (after (receiveOnce r p))),
     events (receiveOnce r p) ++ events (receiveRoutine rest (after (receiveOnce r p)))).
Proof.
  intros H. rewrite (run_eta (receiveRoutine (r :: rest) p)).
  cbn [receiveRoutine]. rewrite bind_result, bind_after, bind_events, H.
  reflexivity.
Qed.

(** While every turn goes on, the routine is still reading. *)
Lemma receiveRoutine_reading (reads : list Read) (p : Peer) :
  forallb goesOn reads = true -> result (receiveRoutine reads p) = Reading.
Proof.
  revert p. induction reads as [|r reads IH]; intros p H; [reflexivity|].
  cbn [forallb] in H. apply andb_true_iff in H. destruct H as [Hr Hrest].
  rewrite (receiveRoutine_continue r reads p (receiveOnce_goesOn r p Hr)).
  cbn [result fst]. apply IH, Hrest.
Qed.

(** The routine after [pre ++ post] is the routine after [post], started
    where [pre] left the peer. *)
Lemma receiveRoutine_app (pre post : list Read) (p : Peer) :
  forallb goesOn pre = true ->
  receiveRoutine (pre ++ post) p
  = (result (receiveRoutine post (after (receiveRoutine pre p))),
     after (receiveRoutine post (after (receiveRoutine pre p))),
     events (receiveRoutine pre p)
       ++ events (receiveRoutine post (after (receiveRoutine pre p)))).
Proof.
  revert p. induction pre as [|r pre IH]; intros p H.
  - cbn [app receiveRoutine ret after events fst snd]. apply run_eta.
  - cbn [forallb] in H. apply andb_true_iff in H. destruct H as [Hr Hrest].
    pose proof (receiveOnce_goesOn r p Hr) as Hc.
    change ((r :: pre) ++ post) with (r :: (pre ++ post)).
    rewrite (receiveRoutine_continue r (pre ++ post) p Hc).
    rewrite (receiveRoutine_continue r pre p Hc).
    rewrite (IH _ Hrest). cbn [result after events fst snd].
    rewrite app_assoc. reflexivity.
Qed.

Lemma receiveRoutine_stamped (reads : list Read) (p : Peer) :
  Forall stamped (events (receiveRoutine reads p)).
Proof.
  revert p. induction reads as [|r reads IH]; intros p; [constructor|].
  cbn [receiveRoutine]. rewrite bind_events. apply Forall_app. split.
  - apply receiveOnce_stamped.
  - destruct (result (receiveOnce r p)).
    + apply IH.
    + monad_simpl. rewrite app_nil_r. apply Peer_Close_stamped.
    + monad_simpl. constructor; [exact I|]. rewrite app_nil_r.
      apply Peer_CloseByError_stamped.
Qed.

(** A permanent error ends the routine: close by error, then the deferred
    close; what the reader would answer next is never read. *)
Lemma receiveRoutine_permanent (r : Read) (post : list Read) (p : Peer)
    (err : error) (pkt : option Packet) :
  readResult r = ReadFailed err pkt -> isTemporaryError err = false ->
  let s2 := Peer_CloseByError err p in
  let s3 := Peer_Close "receiveRoutine finish" (after s2) in
  receiveRoutine (r :: post) p
  = (Finished, after s3,
     EvLog "Peer.receiveRoutine Error" :: events s2 ++ events s3).
Proof.
  intros Hr Ht s2 s3.
  rewrite (run_eta (receiveRoutine (r :: post) p)).
  cbn [receiveRoutine]. rewrite bind_result, bind_after, bind_events.
  unfold receiveOnce. rewrite Hr, Ht. cbn [negb]. monad_simpl.
  rewrite !app_nil_r. reflexivity.
Qed.

(** A temporary error goes to the error callback, the registered one or
    else [defaultOnError]. *)
Lemma receiveOnce_temporary (r : Read) (p : Peer) (err : error) (pkt : option Packet) :
  readResult r = ReadFailed err pkt -> isTemporaryError err = true ->
  In (EvErrorCb (match onError p with
                 | Some cbFunc => cbFunc
                 | None => defaultOnError
                 end) err pkt p) (events (receiveOnce r p)).
Proof.
  intros Hr Ht. unfold receiveOnce. rewrite Hr, Ht. cbn [negb]. monad_simpl.
  right. destruct (cbPanics r); monad_simpl.
  - left. reflexivity.
  - unfold callError. monad_simpl. left. reflexivity.
Qed.

Example receiveRoutine_run :
  let reads := [mkRead (ReadPacket (packetB 7 3)) 100 None;
                mkRead (ReadFailed (OpError true "i/o timeout") None) 101 None;
                mkRead (ReadFailed (IOError "EOF") None) 102 None;
                mkRead (ReadPacket (packetB 8 3)) 103 None] in
  let p := withOnPacket (Some (onPacketOf (Overlay "main")))
             (withOnError (Some (onErrorOf (Overlay "main"))) peerA) in
  let r := receiveRoutine reads p in
  result r = Finished /\
  IsClosed (after r) = true /\
  closeErr (after r) = [IOError "EOF"] /\
  closeReason (after r) = ["receiveRoutine finish"] /\
  Contains 7 (pool (after r)) = true /\ Contains 8 (pool (after r)) = false /\
  countEv isCloseCb (events r) = 1.
Proof. vm_compute. repeat split. Qed.

(** C5: in the receive loop, after turns that all went on,
    - a read error that is not temporary closes the peer by that error and
      ends the routine (the deferred close follows, and later answers of
      the reader are not read);
    - a temporary read error is given to the error callback (the
      registered one, [defaultOnError] when none is), and when that call
      returns the routine reads again;
    - a packet read while a packet callback is registered is given to that
      callback with [sender] set to the identifier of the peer and with
      its hash already in the pool of the peer;
    and every call of a packet callback in any run has these two
    properties. *)
Theorem receiveRoutine_errors_and_stamp :
  (forall (pre : list Read) (r : Read) (post : list Read) (p : Peer)
          (err : error) (pkt : option Packet),
      forallb goesOn pre = true ->
      readResult r = ReadFailed err pkt -> isTemporaryError err = false ->
      let s1 := receiveRoutine pre p in
      let s2 := Peer_CloseByError err (after s1) in
      let s3 := Peer_Close "receiveRoutine finish" (after s2) in
      receiveRoutine (pre ++ r :: post) p
      = (Finished, after s3,
         events s1 ++ EvLog "Peer.receiveRoutine Error" :: events s2 ++ events s3) /\
      closeErr (after s3) = closeErr (after s1) ++ [err] /\
      (closed (after s1) = 0%Z \/ closed (after s1) = 1%Z ->
       IsClosed (after s3) = true)) /\
  (forall (pre : list Read) (r : Read) (p : Peer) (err : error) (pkt : option Packet),
      forallb goesOn pre = true ->
      readResult r = ReadFailed err pkt -> isTemporaryError err = true ->
      let s1 := receiveRoutine pre p in
      In (EvErrorCb (match onError (after s1) with
                     | Some cbFunc => cbFunc
                     | None => defaultOnError
                     end) err pkt (after s1))
         (events (receiveRoutine (pre ++ [r]) p)) /\
      (cbPanics r = None -> result (receiveRoutine (pre ++ [r]) p) = Reading)) /\
  (forall (pre : list Read) (r : Read) (p : Peer) (pkt0 : Packet) (cb : packetCbFunc),
      forallb goesOn pre = true ->
      readResult r = ReadPacket pkt0 ->
      let s1 := receiveRoutine pre p in
      onPacket (after s1) = Some cb ->
      let pkt := setSender (id (after s1)) pkt0 in
      let p1 := withPool (Put (hashOfPacket pkt) (readTime r) (pool (after s1)))
                         (after s1) in
      In (EvPacketCb cb pkt p1) (events (receiveRoutine (pre ++ [r]) p)) /\
      sender pkt = id p1 /\ Contains (hashOfPacket pkt) (pool p1) = true) /\
  (forall (reads : list Read) (p : Peer) (cb : packetCbFunc) (pkt : Packet) (p1 : Peer),
      In (EvPacketCb cb pkt p1) (events (receiveRoutine reads p)) ->
      sender pkt = id p1 /\ Contains (hashOfPacket pkt) (pool p1) = true).
Proof.
  split; [|split; [|split]].
  - intros pre r post p err pkt Hpre Hr Ht s1 s2 s3.
    rewrite (receiveRoutine_app pre (r :: post) p Hpre).
    fold s1.
    rewrite (receiveRoutine_permanent r post (after s1) err pkt Hr Ht).
    fold s2. fold s3. cbn [result after events fst snd].
    split; [reflexivity|]. split.
    + subst s3 s2. rewrite Peer_Close_closeErr, Peer_CloseByError_closeErr.
      reflexivity.
    + intros Hc. subst s3 s2.
      unfold Peer_Close, Peer_CloseByError, addCloseReason, addCloseError.
      monad_simpl.
      set (pa := withCloseErr (closeErr (after s1) ++ [err]) (after s1)).
      assert (Hpa : closed pa = 0%Z \/ closed pa = 1%Z) by exact Hc.
      pose proof (Peer__close_IsClosed pa Hpa) as H1.
      set (pb := withCloseReason _ _).
      assert (Hpb : closed pb = 1%Z).
      { unfold IsClosed in H1. apply Z.eqb_eq in H1. exact H1. }
      apply Peer__close_IsClosed. right. exact Hpb.
  - intros pre r p err pkt Hpre Hr Ht s1.
    rewrite (receiveRoutine_app pre [r] p Hpre). fold s1.
    cbn [result after events fst snd]. split.
    + apply in_or_app. right.
      cbn [receiveRoutine]. rewrite bind_events. apply in_or_app. left.
      apply (receiveOnce_temporary r (after s1) err pkt Hr Ht).
    + intros Hq. apply receiveRoutine_reading.
      cbn [forallb]. unfold goesOn, permanentError. rewrite Hr, Ht, Hq. reflexivity.
  - intros pre r p pkt0 cb Hpre Hr s1 Hcb pkt p1.
    rewrite (receiveRoutine_app pre [r] p Hpre). fold s1.
    cbn [result after events fst snd].
    destruct (receiveOnce_packet r pkt0 (after s1) cb Hr Hcb) as (rest & He & _ & _).
    split; [|split; [reflexivity|apply Contains_Put]].
    apply in_or_app. right.
    cbn [receiveRoutine]. rewrite bind_events. apply in_or_app. left.
    rewrite He. right. left. reflexivity.
  - intros reads p cb pkt p1 Hin.
    pose proof (receiveRoutine_stamped reads p) as Hall.
    rewrite Forall_forall in Hall.
    specialize (Hall _ (proj2 (list_elem_of_In _ _) Hin)). cbn in Hall. tauto.
Qed.

End ReceiveProperties.

(** ** Goroutines that close the same peer *)

Lemma countEv_app (f : Event -> bool) (t1 t2 : list Event) :
  countEv f (t1 ++ t2) = countEv f t1 + countEv f t2.
Proof. induction t1 as [|e t1 IH]; cbn; [reflexivity|]. rewrite IH. lia. Qed.

Lemma countPc_insert (f : Pc -> bool) (l : list Pc) (i : nat) (pc pc' : Pc) :
  l !! i = Some pc ->
  countPc f (<[i := pc']> l) + (if f pc then 1 else 0)
  = countPc f l + (if f pc' then 1 else 0).
Proof.
  revert i. induction l as [|x l IH]; intros i H; [discriminate|].
  destruct i as [|i]; cbn in H.
  - injection H as ->. cbn. lia.
  - change (<[S i := pc']> (x :: l)) with (x :: <[i := pc']> l).
    cbn [countPc]. specialize (IH i H). lia.
Qed.

Lemma countPc_le_length (f : Pc -> bool) (l : list Pc) : countPc f l <= length l.
Proof. induction l as [|x l IH]; cbn; [lia|]. destruct (f x); lia. Qed.

Lemma countPc_pos (f : Pc -> bool) (l : list Pc) (i : nat) (pc : Pc) :
  l !! i = Some pc -> f pc = true -> 1 <= countPc f l.
Proof.
  revert i. induction l as [|x l IH]; intros i H Hf; [discriminate|].
  destruct i as [|i]; cbn in H.
  - injection H as ->. cbn. rewrite Hf. lia.
  - cbn. specialize (IH i H Hf). lia.
Qed.

Lemma countPc_all (f : Pc -> bool) (l : list Pc) (i : nat) (pc : Pc) :
  countPc f l = length l -> l !! i = Some pc -> f pc = true.
Proof.
  revert i. induction l as [|x l IH]; intros i Hc H; [discriminate|].
  cbn in Hc. pose proof (countPc_le_length f l) as Hle.
  destruct i as [|i]; cbn in H.
  - injection H as ->. destruct (f pc); [reflexivity|lia].
  - apply (IH i); [|exact H]. destruct (f x); lia.
Qed.

Lemma countPc_entries (calls : list CloseCall) :
  countPc isBeforeCAS (map AtEntry calls) = length (map AtEntry calls) /\
  countPc isAtConnClose (map AtEntry calls) = 0 /\
  countPc isAtChanClose (map AtEntry calls) = 0 /\
  countPc isAtCallback (map AtEntry calls) = 0 /\
  countPc isCrashed (map AtEntry calls) = 0.
Proof.
  induction calls as [|c calls IH]; cbn; [repeat split|].
  destruct IH as (H1 & H2 & H3 & H4 & H5). repeat split; lia.
Qed.

Lemma callClose_after (cb : closeCbFunc) (p : Peer) : after (callClose cb p) = p.
Proof. unfold callClose. monad_simpl. destruct cb as [|[]]; reflexivity. Qed.

Lemma callClose_counts (cb : closeCbFunc) (p : Peer) :
  countEv isCloseCb (events (callClose cb p)) = 1 /\
  countEv isChanClose (events (callClose cb p)) = 0 /\
  countEv isConnClose (events (callClose cb p)) = 0.
Proof. unfold callClose. monad_simpl. destruct cb as [|[]]; repeat split. Qed.

Lemma start_closeInv (p : Peer) (calls : list CloseCall) :
  closed p = 0%Z -> close_ p = false -> closeInv (start p calls).
Proof.
  intros Hc Hch. destruct (countPc_entries calls) as (H1 & H2 & H3 & H4 & H5).
  constructor; cbn [start shared pcs trace countEv]; rewrite ?Hc, ?H2, ?H3, ?H4;
    auto; congruence.
Qed.

Ltac count_insert_one f Hl pc' :=
  let H := fresh "Hcount" in
  pose proof (countPc_insert f _ _ _ pc' Hl) as H; cbn in H.

Ltac count_insert Hl pc' :=
  count_insert_one isAtConnClose Hl pc';
  count_insert_one isAtChanClose Hl pc';
  count_insert_one isAtCallback Hl pc';
  count_insert_one isCrashed Hl pc';
  count_insert_one isBeforeCAS Hl pc'.

(** Every step of every goroutine keeps the invariant. *)
Lemma step_closeInv (i : nat) (s : Race) : closeInv s -> closeInv (step i s).
Proof.
  intros [Hflag Hconn Hchan Hcb Hclose Hcrash Hbefore].
  unfold step. destruct (pcs s !! i) as [pc|] eqn:Hl; [|constructor; assumption].
  destruct pc as [[reason|err]| | | | | |].
  - count_insert Hl AtCAS. cbn in *.
    constructor; cbn [shared pcs trace]; unfold addCloseReason;
      cbn [after modify fst snd closed close_ withCloseReason];
      rewrite ?length_insert; try lia; try assumption.
  - count_insert Hl AtCAS. cbn in *.
    constructor; cbn [shared pcs trace]; unfold addCloseError;
      cbn [after modify fst snd closed close_ withCloseErr];
      rewrite ?length_insert; try lia; try assumption.
  - destruct (closed (shared s) =? 0)%Z eqn:E.
    + apply Z.eqb_eq in E. count_insert Hl AtConnClose. cbn in *.
      specialize (Hbefore E). rewrite E in *. cbn in *.
      constructor; cbn [shared pcs trace closed close_ withClosed];
        rewrite ?length_insert; cbn; try lia; auto.
      all: try (intros Hx; try specialize (Hclose Hx);
                first [lia | congruence | contradiction]).
    + apply Z.eqb_neq in E. count_insert Hl AtReturn. cbn in *.
      constructor; cbn [shared pcs trace]; rewrite ?length_insert; try lia; auto.
      all: try (intros Hx; try specialize (Hclose Hx);
                first [lia | congruence | contradiction]).
  - assert (Hone : closed (shared s) = 1%Z).
    { destruct Hflag as [Hz|Hz]; [|exact Hz]. rewrite Hz in Hconn. cbn in Hconn.
      pose proof (countPc_pos isAtConnClose _ _ _ Hl eq_refl). lia. }
    count_insert Hl AtChanClose.
    constructor; cbn [shared pcs trace closed close_ withConn];
      rewrite ?length_insert, ?countEv_app;
      cbn [countEv isConnClose isChanClose isCloseCb];
      try (intros Hx; try specialize (Hclose Hx));
      try (destruct (connCloseErr (conn (shared s))); cbn; lia); auto.
  - assert (Hone : closed (shared s) = 1%Z).
    { destruct Hflag as [Hz|Hz]; [|exact Hz]. rewrite Hz in Hchan. cbn in Hchan.
      pose proof (countPc_pos isAtChanClose _ _ _ Hl eq_refl). lia. }
    assert (Hopen : close_ (shared s) = false).
    { destruct (close_ (shared s)) eqn:Hx; [|reflexivity].
      specialize (Hclose eq_refl).
      pose proof (countPc_pos isAtChanClose _ _ _ Hl eq_refl).
      rewrite Hone in Hchan. cbn in Hchan. lia. }
    rewrite Hopen. count_insert Hl AtCallback. cbn in *.
    rewrite Hone in *. cbn in *.
    constructor; cbn [shared pcs trace closed close_ withClose];
      rewrite ?length_insert, ?countEv_app;
      cbn [countEv isConnClose isChanClose isCloseCb];
      rewrite ?Hone; cbn; try lia; auto.
    all: try (intros Hx; try specialize (Hclose Hx);
              first [lia | congruence | contradiction]).
  - assert (Hone : closed (shared s) = 1%Z).
    { destruct Hflag as [Hz|Hz]; [|exact Hz]. rewrite Hz in Hcb. cbn in Hcb.
      pose proof (countPc_pos isAtCallback _ _ _ Hl eq_refl). lia. }
    count_insert Hl AtReturn.
    set (cb := match onClose (shared s) with
               | Some cbFunc => cbFunc
               | None => defaultOnClose
               end).
    destruct (callClose_counts cb (shared s)) as (C1 & C2 & C3).
    constructor; cbn [shared pcs trace]; rewrite ?callClose_after;
      rewrite ?length_insert, ?countEv_app, ?C1, ?C2, ?C3; try lia; auto.
    all: try (intros Hx; try specialize (Hclose Hx);
              first [lia | congruence | contradiction]).
  - constructor; assumption.
  - constructor; assumption.
Qed.

Lemma runRace_closeInv (sched : list nat) (s : Race) :
  closeInv s -> closeInv (runRace sched s).
Proof.
  revert s. induction sched as [|i sched IH]; intros s H; [exact H|].
  cbn. apply IH, step_closeInv, H.
Qed.

Lemma step_length (i : nat) (s : Race) : length (pcs (step i s)) = length (pcs s).
Proof.
  unfold step. destruct (pcs s !! i) as [[[|]| | | | | |]|]; cbn [pcs];
    try (destruct (closed (shared s) =? 0)%Z);
    try (destruct (close_ (shared s)));
    cbn [pcs]; rewrite ?length_insert; reflexivity.
Qed.

Lemma runRace_length (sched : list nat) (s : Race) :
  length (pcs (runRace sched s)) = length (pcs s).
Proof.
  revert s. induction sched as [|i sched IH]; intros s; [reflexivity|].
  cbn. rewrite IH. apply step_length.
Qed.

(** A step of goroutine [i] leaves the other goroutines where they are. *)
Lemma step_other (i j : nat) (s : Race) : i <> j -> pcs (step i s) !! j = pcs s !! j.
Proof.
  intros Hne. unfold step.
  destruct (pcs s !! i) as [[[|]| | | | | |]|]; cbn [pcs];
    try (destruct (closed (shared s) =? 0)%Z);
    try (destruct (close_ (shared s)));
    cbn [pcs]; rewrite ?list_lookup_insert_ne by exact Hne; reflexivity.
Qed.

(** A step of goroutine [i] brings it one step closer to its return. *)
Lemma step_self (i : nat) (s : Race) (pc : Pc) :
  pcs s !! i = Some pc ->
  exists pc', pcs (step i s) !! i = Some pc' /\ stepsLeft pc' <= stepsLeft pc - 1.
Proof.
  intros Hl. pose proof (lookup_lt_Some _ _ _ Hl) as Hlt.
  unfold step. rewrite Hl.
  destruct pc as [[|]| | | | | |];
    try (destruct (closed (shared s) =? 0)%Z);
    try (destruct (close_ (shared s)));
    cbn [pcs];
    first [ rewrite list_lookup_insert_eq by exact Hlt
          | rewrite Hl ];
    eexists; (split; [reflexivity|cbn; lia]).
Qed.

(** Scheduled [n] times, a goroutine is at least [n] steps further. *)
Lemma runRace_stepsLeft (sched : list nat) (s : Race) (i : nat) (pc : Pc) :
  pcs s !! i = Some pc ->
  exists pc', pcs (runRace sched s) !! i = Some pc' /\
              stepsLeft pc' <= stepsLeft pc - count_occ Nat.eq_dec sched i.
Proof.
  revert s pc. induction sched as [|j sched IH]; intros s pc Hl.
  - exists pc. split; [exact Hl|cbn; lia].
  - cbn [runRace fold_left count_occ].
    destruct (Nat.eq_dec j i) as [->|Hne].
    + destruct (step_self i s pc Hl) as (pc1 & Hl1 & Hle1).
      destruct (IH (step i s) pc1 Hl1) as (pc' & Hl' & Hle').
      exists pc'. split; [exact Hl'|]. lia.
    + assert (Hl1 : pcs (step j s) !! i = Some pc)
        by (rewrite (step_other j i s Hne); exact Hl).
      destruct (IH (step j s) pc Hl1) as (pc' & Hl' & Hle').
      exists pc'. split; [exact Hl'|exact Hle'].
Qed.

(** No step takes [closed] away from 1. *)
Lemma step_IsClosed (i : nat) (s : Race) :
  IsClosed (shared s) = true -> IsClosed (shared (step i s)) = true.
Proof.
  unfold IsClosed, step. intros H.
  destruct (pcs s !! i) as [[[|]| | | | | |]|]; cbn [shared]; try exact H.
  - destruct (closed (shared s) =? 0)%Z eqn:E; cbn [shared]; [|exact H].
    apply Z.eqb_eq in E. rewrite E in H. discriminate H.
  - destruct (close_ (shared s)); cbn [shared]; exact H.
  - rewrite callClose_after. exact H.
Qed.

Lemma runRace_IsClosed (sched : list nat) (s : Race) :
  IsClosed (shared s) = true -> IsClosed (shared (runRace sched s)) = true.
Proof.
  revert s. induction sched as [|i sched IH]; intros s H; [exact H|].
  cbn. apply IH, step_IsClosed, H.
Qed.

Lemma allReturned_count (f : Pc -> bool) (l : list Pc) :
  f AtReturn = false -> forallb isAtReturn l = true -> countPc f l = 0.
Proof.
  intros Hf. induction l as [|pc l IH]; intros H; [reflexivity|].
  cbn in H. apply andb_true_iff in H. destruct H as [Hpc Hl].
  destruct pc; try discriminate Hpc. cbn. rewrite Hf. apply IH, Hl.
Qed.

Lemma all_lookup_returned (l : list Pc) :
  (forall i, i < length l -> l !! i = Some AtReturn) -> forallb isAtReturn l = true.
Proof.
  induction l as [|pc l IH]; intros H; [reflexivity|].
  cbn. apply andb_true_iff. split.
  - specialize (H 0 ltac:(cbn; lia)). cbn in H. injection H as ->. reflexivity.
  - apply IH. intros i Hi. apply (H (S i)). cbn. lia.
Qed.

(** One goroutine alone does what the sequential [Close] does. *)
Lemma single_closer_is_Peer_Close (p : Peer) (reason : string) :
  closed p = 0%Z -> close_ p = false ->
  let s := runRace [0; 0; 0; 0; 0] (start p [CallClose reason]) in
  shared s = after (Peer_Close reason p) /\
  trace s = events (Peer_Close reason p) /\
  pcs s = [AtReturn].
Proof.
  intros Hc Hch.
  unfold Peer_Close, addCloseReason, Peer__close. monad_simpl.
  cbn [closed withCloseReason]. rewrite Hc. cbn [Z.eqb]. monad_simpl.
  cbn [runRace fold_left start step pcs shared trace map lookup list_lookup
       insert list_insert after addCloseReason modify fst snd closed close_
       withCloseReason withClosed withConn withClose conn onClose app].
  rewrite Hc. cbn [Z.eqb]. 
  cbn [runRace fold_left start step pcs shared trace map lookup list_lookup
       insert list_insert after addCloseReason modify fst snd closed close_
       withCloseReason withClosed withConn withClose conn onClose app].
  rewrite Hch.
  cbn [runRace fold_left start step pcs shared trace map lookup list_lookup
       insert list_insert after addCloseReason modify fst snd closed close_
       withCloseReason withClosed withConn withClose conn onClose app].
  rewrite callClose_after.
  destruct (connCloseErr (conn p)); cbn [app]; monad_simpl;
    rewrite ?callClose_after, ?app_nil_r; repeat split.
Qed.

Example twoClosers_run :
  let s := runRace interleaved (start mainPeer twoClosers) in
  pcs s = [AtReturn; AtReturn] /\
  closeReason (shared s) = ["bye"] /\ closeErr (shared s) = [ErrNotAvailable] /\
  trace s = [EvConnClose; EvChanClose; EvCloseCb defaultOnClose (shared s)].
Proof. vm_compute. repeat split. Qed.

(** C2: goroutines call [Close] and [CloseByError] on an open peer, any
    number of them (at least one), their steps interleaved in any order.
    At every moment the close callback has been called at most once and
    the close channel has been closed at most once (no goroutine panics on
    a closed channel); once all the calls have returned, each has happened
    exactly once and [IsClosed] is true; all the calls have returned as
    soon as every goroutine was scheduled five times; and [IsClosed], once
    true, stays true. *)
Theorem close_callback_exactly_once
    (p : Peer) (calls : list CloseCall) (sched : list nat)
    (Hopen : closed p = 0%Z) (Hchan : close_ p = false) (Hcalls : calls <> []) :
  let s := runRace sched (start p calls) in
  countEv isCloseCb (trace s) <= 1 /\
  countEv isChanClose (trace s) <= 1 /\
  countPc isCrashed (pcs s) = 0 /\
  (allReturned s = true ->
   countEv isCloseCb (trace s) = 1 /\ countEv isChanClose (trace s) = 1 /\
   IsClosed (shared s) = true) /\
  ((forall i, i < length calls -> 5 <= count_occ Nat.eq_dec sched i) ->
   allReturned s = true) /\
  (forall sched1 sched2, sched = sched1 ++ sched2 ->
     IsClosed (shared (runRace sched1 (start p calls))) = true ->
     IsClosed (shared s) = true).
Proof.
  intros s.
  pose proof (runRace_closeInv sched _ (start_closeInv p calls Hopen Hchan)) as Hinv.
  fold s in Hinv.
  destruct Hinv as [Hflag Hconn Hch Hcb Hclose Hcrash Hbefore].
  assert (Hlen : length (pcs s) = length calls).
  { subst s. rewrite runRace_length. cbn [start pcs]. apply length_map. }
  assert (Hbound : Z.to_nat (closed (shared s)) <= 1)
    by (destruct Hflag as [H|H]; rewrite H; cbn; lia).
  split; [lia|]. split; [lia|]. split; [exact Hcrash|].
  split; [|split].
  - intros Hall. unfold allReturned in Hall.
    pose proof (allReturned_count isAtConnClose _ eq_refl Hall) as H1.
    pose proof (allReturned_count isAtChanClose _ eq_refl Hall) as H2.
    pose proof (allReturned_count isAtCallback _ eq_refl Hall) as H3.
    pose proof (allReturned_count isBeforeCAS _ eq_refl Hall) as H4.
    assert (Hone : closed (shared s) = 1%Z).
    { destruct Hflag as [H|H]; [|exact H]. specialize (Hbefore H).
      destruct calls; [contradiction|]. cbn in Hlen. lia. }
    rewrite Hone in *. cbn in Hcb, Hch.
    split; [lia|]. split; [lia|]. unfold IsClosed. rewrite Hone. reflexivity.
  - intros Hfair. unfold allReturned. apply all_lookup_returned.
    intros i Hi. rewrite Hlen in Hi.
    assert (Hentry : exists c, pcs (start p calls) !! i = Some (AtEntry c)).
    { cbn [start pcs]. rewrite list_lookup_fmap.
      destruct (lookup_lt_is_Some_2 calls i Hi) as [c Hc].
      exists c. rewrite Hc. reflexivity. }
    destruct Hentry as [c Hc].
    destruct (runRace_stepsLeft sched _ i _ Hc) as (pc' & Hl' & Hle).
    fold s in Hl'. specialize (Hfair i Hi). cbn [stepsLeft] in Hle.
    rewrite Hl'. f_equal.
    destruct pc'; cbn in Hle; try lia; [reflexivity|].
    pose proof (countPc_pos isCrashed _ _ _ Hl' eq_refl). lia.
  - intros sched1 sched2 Hs Hc. subst s. rewrite Hs.
    unfold runRace. rewrite fold_left_app. apply runRace_IsClosed. exact Hc.
Qed.

(** The two goroutines of [twoClosers] under the schedule [interleaved]:
    the peer is open, there are calls, every goroutine is scheduled five
    times, and the callback was called exactly once. *)
Lemma close_callback_exactly_once_witness :
  closed mainPeer = 0%Z /\ close_ mainPeer = false /\ twoClosers <> [] /\
  countEv isCloseCb (trace (runRace interleaved (start mainPeer twoClosers))) = 1.
Proof.
  split; [reflexivity|]. split; [reflexivity|]. split; [discriminate|].
  pose (H := close_callback_exactly_once mainPeer twoClosers interleaved
               eq_refl eq_refl ltac:(discriminate)).
  destruct H as (_ & _ & _ & Hdone & Hfair & _).
  apply Hdone, Hfair.
  intros i Hi. destruct i as [|[|i]]; cbn in *; lia.
Defined.

(** ** Role flags *)

Section RoleFlags.

Import Roles.
Local Open Scope Z_scope.

Lemma complement_bits (o : Z) (n : Z) :
  0 <= n ->
  Z.testbit (complement o) n = if n <? 8 then negb (Z.testbit o n) else false.
Proof.
  intros Hn. unfold complement. change 256 with (2 ^ 8).
  destruct (Z.ltb_spec n 8).
  - rewrite Z.mod_pow2_bits_low by lia. apply Z.lnot_spec, Hn.
  - apply Z.mod_pow2_bits_high. lia.
Qed.

Lemma complement_byte (o : Z) : isByte (complement o).
Proof. unfold complement, isByte. apply Z.mod_pos_bound. lia. Qed.

Lemma byte_high_bits (x n : Z) : isByte x -> 8 <= n -> Z.testbit x n = false.
Proof.
  intros [H0 H1] Hn.
  destruct (Z.eq_dec x 0) as [->|Hx]; [apply Z.bits_0|].
  apply Z.bits_above_log2; [lia|].
  assert (Z.log2 x < 8); [|lia].
  apply Z.log2_lt_pow2; [lia|]. change (2 ^ 8) with 256. lia.
Qed.

Lemma byte_of_bits (x : Z) :
  (forall n, 8 <= n -> Z.testbit x n = false) -> isByte x.
Proof.
  intros H.
  assert (Hx : x = x mod 2 ^ 8).
  { rewrite <- Z.land_ones by lia. apply Z.bits_inj'. intros n Hn.
    rewrite Z.land_spec. destruct (Z.ltb_spec n 8).
    - rewrite Z.ones_spec_low by lia. symmetry. apply andb_true_r.
    - rewrite Z.ones_spec_high by lia. rewrite andb_false_r. apply H. lia. }
  unfold isByte. rewrite Hx. change (2 ^ 8) with 256. apply Z.mod_pos_bound. lia.
Qed.

Lemma Has_true (pr o : Z) : Has pr o = true <-> Z.land pr o = o.
Proof. unfold Has. apply Z.eqb_eq. Qed.

(** A flag is had exactly when every bit of it is set. *)
Lemma Has_bits (pr o : Z) :
  Has pr o = true <->
  forall n, 0 <= n -> Z.testbit o n = true -> Z.testbit pr n = true.
Proof.
  rewrite Has_true. split.
  - intros H n Hn Ho. rewrite <- H in Ho. rewrite Z.land_spec in Ho.
    apply andb_true_iff in Ho. tauto.
  - intros H. apply Z.bits_inj'. intros n Hn. rewrite Z.land_spec.
    destruct (Z.testbit o n) eqn:Ho.
    + rewrite (H n Hn Ho). reflexivity.
    + apply andb_false_r.
Qed.

Lemma Has_pow2 (pr k : Z) : 0 <= k -> Has pr (2 ^ k) = Z.testbit pr k.
Proof.
  intros Hk. destruct (Z.testbit pr k) eqn:Hb.
  - apply Has_bits. intros n Hn Hp.
    rewrite Z.pow2_bits_eqb in Hp by exact Hk.
    apply Z.eqb_eq in Hp. subst n. exact Hb.
  - destruct (Has pr (2 ^ k)) eqn:Hh; [|reflexivity].
    rewrite Has_bits in Hh.
    specialize (Hh k Hk (Z.pow2_bits_true k Hk)). congruence.
Qed.

(** X1: [SetFlag] gives the peer the flag and takes none away: after
    [SetFlag o] the flag [o] is had, every flag had before is still had,
    setting twice is setting once, and a byte stays a byte.  [addRole] is
    [SetFlag] on [role] and leaves [recvRole] alone. *)
Theorem SetFlag_adds_only (pr o : PeerRoleFlag) :
  Has (SetFlag o pr) o = true /\
  (forall o', Has pr o' = true -> Has (SetFlag o pr) o' = true) /\
  SetFlag o (SetFlag o pr) = SetFlag o pr /\
  (isByte pr -> isByte o -> isByte (SetFlag o pr)) /\
  (forall p : PeerRole,
      HasRole o (addRole o p) = true /\
      (forall o', HasRole o' p = true -> HasRole o' (addRole o p) = true) /\
      recvRole (addRole o p) = recvRole p).
Proof.
  assert (H1 : forall pr, Has (SetFlag o pr) o = true).
  { intros x. apply Has_bits. intros n Hn Ho. unfold SetFlag.
    rewrite Z.lor_spec, Ho. apply orb_true_r. }
  assert (H2 : forall pr o', Has pr o' = true -> Has (SetFlag o pr) o' = true).
  { intros x o' H. rewrite Has_bits in *. intros n Hn Ho. unfold SetFlag.
    rewrite Z.lor_spec, (H n Hn Ho). reflexivity. }
  split; [apply H1|]. split; [apply H2|].
  split.
  { unfold SetFlag. rewrite <- Z.lor_assoc, Z.lor_diag. reflexivity. }
  split.
  { intros Hp Ho. apply byte_of_bits. intros n Hn. unfold SetFlag.
    rewrite Z.lor_spec, (byte_high_bits pr n Hp Hn), (byte_high_bits o n Ho Hn).
    reflexivity. }
  intros p. unfold HasRole, addRole. cbn [role recvRole].
  split; [apply H1|]. split; [apply H2|reflexivity].
Qed.

(** X2: [UnSetFlag o] clears every bit of [o] and no other bit of a byte:
    afterwards no bit of [o] is left, so [o] is had only if it is the
    empty flag (which is always had); a byte-sized flag that shares no
    bit with [o] is had exactly as before; the result is a byte; and
    clearing after setting is clearing.  [removeRole] is [UnSetFlag] on
    [role] and leaves [recvRole] alone. *)
Theorem UnSetFlag_clears_only (pr o : PeerRoleFlag) :
  Z.land (UnSetFlag o pr) o = 0 /\
  (Has (UnSetFlag o pr) o = true <-> o = 0) /\
  Has pr p2pRoleNone = true /\
  (forall o', isByte o' -> Z.land o o' = 0 ->
              Has (UnSetFlag o pr) o' = Has pr o') /\
  isByte (UnSetFlag o pr) /\
  UnSetFlag o (SetFlag o pr) = UnSetFlag o pr /\
  (forall p : PeerRole,
      (HasRole o (removeRole o p) = true <-> o = 0) /\
      recvRole (removeRole o p) = recvRole p).
Proof.
  assert (H1 : forall pr, Z.land (UnSetFlag o pr) o = 0).
  { intros x. apply Z.bits_inj'. intros n Hn. unfold UnSetFlag.
    rewrite !Z.land_spec, complement_bits, Z.bits_0 by exact Hn.
    destruct (n <? 8); destruct (Z.testbit o n); rewrite ?andb_false_r; reflexivity. }
  assert (H2 : forall pr, Has (UnSetFlag o pr) o = true <-> o = 0).
  { intros x. rewrite Has_true, H1. split; intros; congruence. }
  split; [apply H1|]. split; [apply H2|].
  split; [apply Has_true; apply Z.land_0_r|].
  split.
  { intros o' Hb Hd.
    assert (Hc : Z.land (complement o) o' = o').
    { apply Z.bits_inj'. intros n Hn.
      rewrite Z.land_spec, complement_bits by exact Hn.
      destruct (Z.ltb_spec n 8).
      - assert (Hbit : Z.testbit (Z.land o o') n = false) by (rewrite Hd; apply Z.bits_0).
        rewrite Z.land_spec in Hbit.
        destruct (Z.testbit o n); destruct (Z.testbit o' n); cbn in *; congruence.
      - rewrite (byte_high_bits o' n Hb) by lia. reflexivity. }
    unfold Has, UnSetFlag. rewrite <- Z.land_assoc, Hc. reflexivity. }
  split.
  { apply byte_of_bits. intros n Hn. unfold UnSetFlag.
    rewrite Z.land_spec, (byte_high_bits _ n (complement_byte o) Hn).
    apply andb_false_r. }
  split.
  { unfold UnSetFlag, SetFlag. apply Z.bits_inj'. intros n Hn.
    rewrite !Z.land_spec, Z.lor_spec, complement_bits by exact Hn.
    destruct (n <? 8); destruct (Z.testbit o n); destruct (Z.testbit pr n); reflexivity. }
  intros p. unfold HasRole, removeRole. cbn [role recvRole].
  split; [apply H2|reflexivity].
Qed.

(** X3: [ToRoles] lists [ROLE_SEED] exactly when bit 0 is set and
    [ROLE_VALIDATOR] exactly when bit 1 is set, in this order, and looks at
    no other bit. *)
Theorem ToRoles_reads_two_bits (pr : PeerRoleFlag) :
  ToRoles pr = (if Z.testbit pr 0 then [ROLE_SEED] else [])
                 ++ (if Z.testbit pr 1 then [ROLE_VALIDATOR] else []) /\
  (In ROLE_SEED (ToRoles pr) <-> Has pr p2pRoleSeed = true) /\
  (In ROLE_VALIDATOR (ToRoles pr) <-> Has pr p2pRoleRoot = true) /\
  ToRoles (Z.land pr p2pRoleRootSeed) = ToRoles pr /\
  (forall o, ToRoles (SetFlag p2pRoleNone pr) = ToRoles pr /\
             In ROLE_SEED (ToRoles (SetFlag p2pRoleSeed o)) /\
             ~ In ROLE_SEED (ToRoles (UnSetFlag p2pRoleSeed o))).
Proof.
  assert (Hs : forall x, Has x p2pRoleSeed = Z.testbit x 0)
    by (intros x; apply (Has_pow2 x 0); lia).
  assert (Hr : forall x, Has x p2pRoleRoot = Z.testbit x 1)
    by (intros x; apply (Has_pow2 x 1); lia).
  assert (Heq : forall x, ToRoles x = (if Z.testbit x 0 then [ROLE_SEED] else [])
                 ++ (if Z.testbit x 1 then [ROLE_VALIDATOR] else [])).
  { intros x. unfold ToRoles. rewrite Hs, Hr.
    destruct (Z.testbit x 0); destruct (Z.testbit x 1); reflexivity. }
  split; [apply Heq|].
  split.
  { rewrite Heq, Hs.
    destruct (Z.testbit pr 0); destruct (Z.testbit pr 1); cbn; split; intros H;
      try discriminate; try tauto; destruct H as [H|H]; try discriminate; tauto. }
  split.
  { rewrite Heq, Hr.
    destruct (Z.testbit pr 0); destruct (Z.testbit pr 1); cbn; split; intros H;
      try discriminate; try tauto; destruct H as [H|H]; try discriminate;
      try tauto; destruct H as [H|H]; try discriminate; tauto. }
  split.
  { rewrite !Heq, !Z.land_spec. unfold p2pRoleRootSeed.
    change (Z.testbit 3 0) with true. change (Z.testbit 3 1) with true.
    rewrite !andb_true_r. reflexivity. }
  intros o. split; [|split].
  - unfold SetFlag, p2pRoleNone. rewrite Z.lor_0_r. reflexivity.
  - rewrite Heq. unfold SetFlag. rewrite Z.lor_spec.
    change (Z.testbit p2pRoleSeed 0) with true. rewrite orb_true_r.
    left. reflexivity.
  - rewrite Heq. unfold UnSetFlag. rewrite Z.land_spec, complement_bits by lia.
    change (Z.testbit p2pRoleSeed 0) with true. cbn [negb Z.ltb Z.compare].
    rewrite andb_false_r. cbn [app].
    destruct (Z.testbit _ 1); cbn; intros H; [destruct H as [H|H]; [discriminate|]|];
      exact H.
Qed.

End RoleFlags.

(** ** Listening *)

Section ListeningProperties.

Import TransportOps.

Lemma listenerCall_open (c : ListenerCall) (l : Listener) (sock : string) :
  ln l = Some sock ->
  listenerCall c l
  = (Returned (Some match c with
                    | CallListen _ => ErrAlreadyListened
                    | CallClose_ => ErrAlreadyClosed
                    end), l).
Proof.
  intros H. destruct c; cbn; unfold Listener_Listen, Listener_Close; rewrite H;
    reflexivity.
Qed.

Lemma listenerCall_never_closes (c : ListenerCall) (l : Listener) (sock : string) :
  ln l = Some sock -> ln (snd (listenerCall c l)) = Some sock.
Proof. intros H. rewrite (listenerCall_open c l sock H). exact H. Qed.

(** X4: a listener that listens can never be closed or listened on again:
    from then on every [Close] answers [ErrAlreadyClosed] and every
    [Listen] answers [ErrAlreadyListened], and the listener stays exactly
    as it is.  And whatever the state, no [Close] ever answers nil. *)
Theorem listening_listener_stays_open (cs : list ListenerCall) (l : Listener) :
  (forall sock, ln l = Some sock ->
     snd (listenerCalls cs l) = l /\
     fst (listenerCalls cs l)
     = map (fun c => Returned (Some match c with
                                    | CallListen _ => ErrAlreadyListened
                                    | CallClose_ => ErrAlreadyClosed
                                    end)) cs) /\
  (forall i, cs !! i = Some CallClose_ ->
     fst (listenerCalls cs l) !! i <> Some (Returned None)) /\
  (forall answer l1, Listener_Listen (fun _ => answer) l = (None, l1) ->
     ln l = None /\ answer = inr (default "" (ln l1)) /\ ln l1 <> None /\
     fst (Listener_Close l1) = Returned (Some ErrAlreadyClosed)).
Proof.
  split; [|split].
  - intros sock H. induction cs as [|c cs IH]; [split; reflexivity|].
    cbn [listenerCalls]. rewrite (listenerCall_open c l sock H).
    destruct (listenerCalls cs l) as [os l2]. cbn in *.
    destruct IH as [-> ->]. split; reflexivity.
  - revert l. induction cs as [|c cs IH]; intros l i Hi; [discriminate|].
    cbn [listenerCalls].
    destruct (listenerCall c l) as [o l1] eqn:Hc.
    destruct (listenerCalls cs l1) as [os l2] eqn:Hcs.
    destruct i as [|i]; cbn in *.
    + injection Hi as ->. cbn in Hc. unfold Listener_Close in Hc.
      destruct (ln l); injection Hc as <- _; discriminate.
    + specialize (IH l1 i Hi). rewrite Hcs in IH. exact IH.
  - intros answer l1 H. unfold Listener_Listen in H.
    destruct (ln l) eqn:Hl; [discriminate|].
    destruct answer as [err|sock]; [discriminate|].
    injection H as <-. cbn. unfold Listener_Close. cbn.
    repeat split. discriminate.
Qed.

End ListeningProperties.

(** ** Callbacks and the start of the routines *)

Section StartProperties.

Import TransportOps.

Lemma setPacketCbFunc_facts (cb : option packetCbFunc) (p : Peer) :
  let r := setPacketCbFunc cb p in
  onPacket (after r) = cb /\
  once (after r) = once p || isSomeCb cb /\
  countEv isStartRoutines (events r)
  = (if once p then 0 else if isSomeCb cb then 1 else 0) /\
  closed (after r) = closed p /\ channel (after r) = channel p /\
  id (after r) = id p /\ in_ (after r) = in_ p /\
  netAddress (after r) = netAddress p /\
  onError (after r) = onError p /\ onClose (after r) = onClose p.
Proof.
  destruct p as [? ? ? ? ? ? ? ? ? ? o ? ? ? ?]; destruct cb as [cb|]; destruct o;
    cbn; repeat split.
Qed.

(** X5: the two routines of a peer start exactly once, at the first
    packet callback that is not nil: over any sequence of
    [setPacketCbFunc] calls on a peer whose routines have not started,
    there is one start if and only if some callback was not nil, and none
    on a peer whose routines had started; the callback left in place is
    the last one set.  A peer made by [newPeer] with a nil callback has not
    started them. *)
Theorem routines_start_once (cbs : list (option packetCbFunc)) (p : Peer) :
  let r := setPacketCbFuncs cbs p in
  once (after r) = once p || existsb isSomeCb cbs /\
  countEv isStartRoutines (events r)
  = (if once p then 0 else if existsb isSomeCb cbs then 1 else 0) /\
  onPacket (after r) = default (onPacket p) (last cbs) /\
  closed (after r) = closed p /\
  (forall (c : Conn) (incoming : bool),
      once (fst (newPeer c None incoming)) = false /\
      snd (newPeer c None incoming) = []).
Proof.
  cbv zeta. split; [|split; [|split; [|split]]].
  5: { intros c incoming. split; reflexivity. }
  all: revert p; induction cbs as [|cb cbs IH]; intros p;
    [ cbn; rewrite ?orb_false_r; try reflexivity; destruct (once p); reflexivity | ].
  all: cbn [setPacketCbFuncs existsb]; rewrite ?bind_after, ?bind_events, ?countEv_app;
    destruct (setPacketCbFunc_facts cb p) as (H1 & H2 & H3 & H4 & _);
    rewrite ?IH, ?H1, ?H2, ?H3, ?H4.
  - destruct (once p); destruct (isSomeCb cb); reflexivity.
  - destruct (once p); destruct (isSomeCb cb); cbn; try reflexivity;
      destruct (existsb isSomeCb cbs); reflexivity.
  - destruct cbs as [|cb' cbs]; [reflexivity|].
    change (last (cb :: cb' :: cbs)) with (last (cb' :: cbs)).
    destruct (last (cb' :: cbs)) eqn:Hl; [reflexivity|].
    exfalso. revert Hl. clear. revert cb'.
    induction cbs as [|x cbs IH]; intros cb' H; [discriminate|].
    apply (IH x). exact H.
  - reflexivity.
Qed.

End StartProperties.

(** ** Accepting and dialing *)

Section ConnectProperties.

Import TransportOps.

Context {closes : OnErrorClose}.

Lemma Peer__close_keeps_props (p : Peer) :
  channel (after (Peer__close p)) = channel p /\
  netAddress (after (Peer__close p)) = netAddress p /\
  in_ (after (Peer__close p)) = in_ p /\
  once (after (Peer__close p)) = once p.
Proof.
  rewrite Peer__close_after. destruct (closed p =? 0)%Z; repeat split.
Qed.

Lemma PeerDispatcher_onPeer_keeps (d : PeerDispatcher) (p : Peer) :
  let r := PeerDispatcher_onPeer d p in
  channel (after r) = channel p /\ netAddress (after r) = netAddress p /\
  in_ (after r) = in_ p /\ id (after r) = id p.
Proof.
  cbv zeta. unfold PeerDispatcher_onPeer. monad_simpl.
  destruct (p2pMap d !! channel p) as [p2p|].
  - monad_simpl. rewrite setPacketCbFunc_after. repeat split.
  - rewrite peerHandler_onError_after.
    destruct (Peer_Close_run onErrorReason p) as [Ha _]. cbv zeta in Ha. rewrite Ha.
    set (p1 := withCloseReason _ p).
    destruct (Peer__close_keeps_props p1) as (H1 & H2 & H3 & _).
    destruct (Peer__close_keeps_log p1) as (_ & _ & _ & _ & _ & _ & _ & H4).
    rewrite H1, H2, H3, H4. repeat split.
Qed.

(** [dispatchPeer] changes callbacks, never the identity of the peer. *)
Lemma dispatchPeer_keeps (d : PeerDispatcher) (p : Peer) :
  let r := dispatchPeer d p in
  channel (after r) = channel p /\ netAddress (after r) = netAddress p /\
  in_ (after r) = in_ p /\ id (after r) = id p.
Proof.
  cbv zeta. unfold dispatchPeer. destruct (last (peerHandlers d)) as [ph|];
    [|repeat split].
  monad_simpl. rewrite setPacketCbFunc_after.
  unfold handler_onPeer.
  destruct ph; monad_simpl;
    [repeat split|repeat split| |repeat split].
  set (p1 := withOnClose _ _).
  destruct (PeerDispatcher_onPeer_keeps d p1) as (H1 & H2 & H3 & H4).
  rewrite H1, H2, H3, H4. repeat split.
Qed.

Lemma onAccept_after (d : PeerDispatcher) (c : Conn) :
  after (onAccept d c) = after (dispatchPeer d (fst (newPeer c None true))).
Proof.
  unfold onAccept. cbn [newPeer setPacketCbFunc]. unfold after.
  destruct (dispatchPeer d _) as [[o p1] t1]. reflexivity.
Qed.

Lemma onConnect_after (d : PeerDispatcher) (c : Conn) (addr ch : string) :
  after (onConnect d c addr ch)
  = after (dispatchPeer d (withNetAddress addr
                             (withChannel ch (fst (newPeer c None false))))).
Proof.
  unfold onConnect. cbn [newPeer setPacketCbFunc]. unfold after.
  destruct (dispatchPeer d _) as [[o p1] t1]. reflexivity.
Qed.

(** X6: the accept routine hands every connection accepted before the
    first error of [Accept] to [onAccept], in order, then stops for good:
    what [Accept] would answer later is never asked.  Every peer made this
    way is an incoming peer without channel, address or identifier. *)
Theorem acceptRoutine_until_first_error
    (d : PeerDispatcher) (conns : list Conn) (err : error)
    (later : list (error + Conn)) :
  acceptRoutine d (map inr conns ++ inl err :: later)
  = (Stopped, map (onAccept d) conns) /\
  acceptRoutine d (map inr conns) = (Accepting, map (onAccept d) conns) /\
  (forall c, let p := after (onAccept d c) in
             in_ p = true /\ channel p = "" /\ netAddress p = "" /\ id p = None).
Proof.
  split; [|split].
  - induction conns as [|c conns IH]; [reflexivity|].
    cbn [map app acceptRoutine]. rewrite IH. reflexivity.
  - induction conns as [|c conns IH]; [reflexivity|].
    cbn [map app acceptRoutine]. rewrite IH. reflexivity.
  - intros c. cbv zeta. rewrite onAccept_after.
    destruct (dispatchPeer_keeps d (fst (newPeer c None true))) as (H1 & H2 & H3 & H4).
    rewrite H1, H2, H3, H4. repeat split.
Qed.

Lemma GetDialer_keyed (dMap : gmap string Dialer) (ch : string) :
  keyed dMap ->
  dialerChannel (fst (GetDialer dMap ch)) = ch /\
  keyed (snd (GetDialer dMap ch)) /\
  snd (GetDialer dMap ch) !! ch = Some (fst (GetDialer dMap ch)) /\
  (forall k, k <> ch -> snd (GetDialer dMap ch) !! k = dMap !! k).
Proof.
  intros Hk. unfold GetDialer. destruct (dMap !! ch) as [d|] eqn:Hd; cbn [fst snd].
  - split; [apply (Hk ch d Hd)|]. split; [exact Hk|]. split; [exact Hd|]. reflexivity.
  - split; [reflexivity|]. split.
    + intros k d. rewrite lookup_insert. destruct (decide (ch = k)) as [->|Hne].
      * intros H. injection H as <-. reflexivity.
      * apply Hk.
    + split; [apply lookup_insert_eq|].
      intros k Hne. apply lookup_insert_ne. congruence.
Qed.

(** X7: [transport.Dial] keeps one dialer per channel, stored under that
    channel, and touches no other channel's dialer.  When [net.Dial] fails
    the error is returned and no peer is made (the dialer stays in the
    map); when it succeeds the dialer remembers the connection and the new
    peer is an outgoing peer that carries the channel and the address that
    were dialed. *)
Theorem transport_Dial_peer_carries_channel
    (netDial : string -> error + Conn) (d : PeerDispatcher)
    (dMap : gmap string Dialer) (addr ch : string) (Hk : keyed dMap) :
  let r := transport_Dial netDial d dMap addr ch in
  keyed r.1.2 /\
  (forall k, k <> ch -> r.1.2 !! k = dMap !! k) /\
  (forall dl, dMap !! ch = Some dl ->
     exists dl', r.1.2 !! ch = Some dl' /\ dialerChannel dl' = ch) /\
  match netDial addr with
  | inl err =>
    r.1.1 = Some err /\ r.2 = None /\
    r.1.2 !! ch = Some (default (newDialer ch) (dMap !! ch))
  | inr c =>
    r.1.1 = None /\
    r.1.2 !! ch = Some (mkDialer ch (Some c)) /\
    exists res, r.2 = Some res /\
                channel (after res) = ch /\ netAddress (after res) = addr /\
                in_ (after res) = false /\ id (after res) = None
  end.
Proof.
  cbv zeta. unfold transport_Dial.
  destruct (GetDialer_keyed dMap ch Hk) as (Hc & Hk1 & Hl & Hother).
  destruct (GetDialer dMap ch) as [dl dMap1] eqn:Hg. cbn [fst snd] in *.
  unfold Dialer_Dial. rewrite Hc.
  assert (Hkeyed : forall x, dialerChannel x = ch -> keyed (<[ch := x]> dMap1)).
  { intros x Hx k y. rewrite lookup_insert. destruct (decide (ch = k)) as [->|Hne].
    - intros H. injection H as <-. exact Hx.
    - apply Hk1. }
  destruct (netDial addr) as [err|c]; cbn [fst snd].
  - split; [apply Hkeyed, Hc|].
    split; [intros k Hne; rewrite lookup_insert_ne by congruence; apply Hother, Hne|].
    split; [intros dl0 _; exists dl; split; [apply lookup_insert_eq|exact Hc]|].
    split; [reflexivity|]. split; [reflexivity|].
    rewrite lookup_insert_eq. f_equal.
    unfold GetDialer in Hg. destruct (dMap !! ch); injection Hg as <- _; reflexivity.
  - split; [apply Hkeyed; reflexivity|].
    split; [intros k Hne; rewrite lookup_insert_ne by congruence; apply Hother, Hne|].
    split; [intros dl0 _; eexists; split; [apply lookup_insert_eq|reflexivity]|].
    split; [reflexivity|]. split; [apply lookup_insert_eq|].
    eexists. split; [reflexivity|].
    rewrite onConnect_after.
    destruct (dispatchPeer_keeps d
                (withNetAddress addr (withChannel ch (fst (newPeer c None false)))))
      as (H1 & H2 & H3 & H4).
    rewrite H1, H2, H3, H4. repeat split.
Qed.

End ConnectProperties.

Section ConnectExamples.

Import TransportOps.

(** Dialing "main" on a transport that has no dialer yet. *)
Lemma transport_Dial_peer_carries_channel_witness :
  keyed ∅ /\
  (transport_Dial (closes := noReason) (fun _ => inr (mkConn true None))
                  bareDispatcher ∅ "10.0.0.2:8080" "main").1.2 !! "main"
  = Some (mkDialer "main" (Some (mkConn true None))).
Proof.
  assert (Hk : keyed ∅) by (intros k dl H; rewrite lookup_empty in H; discriminate H).
  split; [exact Hk|].
  exact (proj1 (proj2 (proj2 (proj2 (proj2
           (transport_Dial_peer_carries_channel (closes := noReason)
              (fun _ => inr (mkConn true None))
              bareDispatcher ∅ "10.0.0.2:8080" "main" Hk)))))).
Defined.

End ConnectExamples.

(** ** Registering handlers and overlays *)

Section RegisterProperties.

Import TransportOps.

Context {closes : OnErrorClose}.

Lemma registPeerHandler_spec (ph : Handler) (d : PeerDispatcher) (pv : Handler) :
  last (peerHandlers d) = Some pv ->
  let d1 := registPeerHandler ph d in
  peerHandlers d1 = peerHandlers d ++ [ph] /\
  p2pMap d1 = p2pMap d /\
  next (handlers d1 ph) = Some pv /\
  self (handlers d1 ph) = self (handlers d Dispatcher) /\
  (forall h, h <> ph -> handlers d1 h = handlers d h).
Proof.
  intros Hl. cbv zeta. unfold registPeerHandler. rewrite Hl.
  unfold setSelfPeerID, setNext, setHandler. cbn.
  rewrite !decide_True by reflexivity. cbn.
  repeat split. intros h Hne. rewrite !decide_False by exact Hne. reflexivity.
Qed.

Lemma last_snoc_handlers (hs : list Handler) (h : Handler) : last (hs ++ [h]) = Some h.
Proof. apply last_snoc. Qed.

(** Registering handlers that are new to the list appends them, links
    each to the one before it, and gives each the identifier of the
    dispatcher. *)
Lemma registPeerHandlers_spec (hs : list Handler) (d : PeerDispatcher) :
  peerHandlers d <> [] -> NoDup (peerHandlers d ++ hs) ->
  In Dispatcher (peerHandlers d) ->
  linked d (peerHandlers d) ->
  let d1 := registPeerHandlers hs d in
  peerHandlers d1 = peerHandlers d ++ hs /\
  p2pMap d1 = p2pMap d /\
  linked d1 (peerHandlers d1) /\
  (forall h, ~ In h hs -> handlers d1 h = handlers d h) /\
  (forall h, In h hs -> self (handlers d1 h) = self (handlers d Dispatcher)).
Proof.
  revert d. induction hs as [|ph hs IH]; intros d Hne Hnd Hdisp Hlink.
  - cbn. rewrite app_nil_r. repeat split; auto. intros h [].
  - cbv zeta. unfold registPeerHandlers. cbn [fold_left].
    fold (registPeerHandlers hs (registPeerHandler ph d)).
    destruct (last (peerHandlers d)) as [pv|] eqn:Hl;
      [|apply last_None in Hl; contradiction].
    destruct (registPeerHandler_spec ph d pv Hl) as (Hp & Hm & Hn & Hs & Ho).
    set (d0 := registPeerHandler ph d) in *.
    assert (Hnotin : ~ In ph (peerHandlers d)).
    { intros Hin. apply NoDup_app in Hnd. destruct Hnd as (_ & Hd & _).
      apply (Hd ph); [apply list_elem_of_In, Hin|left]. }
    assert (Hnd0 : NoDup (peerHandlers d0 ++ hs)).
    { rewrite Hp, <- app_assoc. exact Hnd. }
    assert (Hdisp0 : In Dispatcher (peerHandlers d0)).
    { rewrite Hp. apply in_or_app. left. exact Hdisp. }
    assert (Hne0 : peerHandlers d0 <> []).
    { rewrite Hp. intros H. apply app_eq_nil in H. destruct H. discriminate. }
    assert (Hlink0 : linked d0 (peerHandlers d0)).
    { rewrite Hp. intros i a b Ha Hb.
      destruct (decide (S i < length (peerHandlers d))) as [Hlt|Hge].
      - rewrite lookup_app_l in Ha by lia. rewrite lookup_app_l in Hb by lia.
        rewrite Ho; [apply (Hlink i a b Ha Hb)|].
        intros ->. apply Hnotin. apply list_elem_of_In.
        apply (list_elem_of_lookup_2 _ (S i)), Hb.
      - assert (Hlen : S i = length (peerHandlers d)).
        { pose proof (lookup_lt_Some _ _ _ Hb) as H. rewrite length_app in H.
          cbn in H. lia. }
        rewrite lookup_app_r in Hb by lia.
        replace (S i - length (peerHandlers d)) with 0 in Hb by lia.
        cbn in Hb. injection Hb as <-.
        rewrite lookup_app_l in Ha by lia.
        rewrite Hn. f_equal.
        rewrite last_lookup in Hl. rewrite <- Hlen in Hl. cbn in Hl.
        congruence. }
    destruct (IH d0 Hne0 Hnd0 Hdisp0 Hlink0) as (Hp1 & Hm1 & Hl1 & Ho1 & Hs1).
    assert (Hphs : ~ In ph hs).
    { intros Hin. apply NoDup_app in Hnd. destruct Hnd as (_ & _ & Hd).
      apply NoDup_cons in Hd. destruct Hd as [Hd _]. apply Hd, list_elem_of_In, Hin. }
    assert (HdispNot : Dispatcher <> ph) by (intros Heq; subst ph; contradiction).
    split; [rewrite Hp1, Hp, <- app_assoc; reflexivity|].
    split; [rewrite Hm1; exact Hm|].
    split; [exact Hl1|].
    split.
    + intros h Hh. rewrite Ho1 by (intros Hin; apply Hh; right; exact Hin).
      apply Ho. intros ->. apply Hh. left. reflexivity.
    + intros h [->|Hin].
      * rewrite Ho1 by exact Hphs. exact Hs.
      * rewrite (Hs1 h Hin). rewrite Ho by exact HdispNot. reflexivity.
Qed.

(** Along the links, from the last handler, the stages are the list
    backwards. *)
Lemma stagesFrom_linked (d : PeerDispatcher) (hs : list Handler) :
  linked d hs ->
  (forall h0, head hs = Some h0 -> next (handlers d h0) = None) ->
  forall x n, last hs = Some x -> length hs <= n -> stagesFrom d n x = rev hs.
Proof.
  induction hs as [|y hs IH] using rev_ind; intros Hlink Hhead x n Hl Hn;
    [discriminate|].
  rewrite last_snoc in Hl. injection Hl as <-.
  rewrite length_app in Hn. cbn in Hn.
  destruct n as [|n]; [lia|]. cbn [stagesFrom]. rewrite rev_app_distr. cbn [rev app].
  f_equal.
  destruct hs as [|h0 hs'] using rev_ind.
  - cbn. rewrite (Hhead y eq_refl). reflexivity.
  - clear IHhs'.
    assert (Hnext : next (handlers d y) = Some h0).
    { apply (Hlink (length hs') h0 y).
      - rewrite <- app_assoc. rewrite lookup_app_r by lia.
        replace (length hs' - length hs') with 0 by lia. reflexivity.
      - rewrite lookup_app_r by (rewrite length_app; cbn; lia).
        rewrite length_app. cbn.
        replace (S (length hs') - (length hs' + 1)) with 0 by lia. reflexivity. }
    rewrite Hnext. apply IH.
    + intros i a b0 Ha Hb. apply (Hlink i a b0).
      * apply lookup_app_l_Some, Ha.
      * apply lookup_app_l_Some, Hb.
    + intros h1 Hh. apply Hhead.
      destruct hs' as [|z hs']; cbn in *; exact Hh.
    + apply last_snoc.
    + rewrite length_app in *. cbn in *. lia.
Qed.

(** X8: whatever handlers a dispatcher is built with (distinct, and not
    the dispatcher itself), a peer goes through them in the reverse of the
    order in which they were given, and the dispatcher comes last:
    [dispatchPeer] starts at the handler given last, each handler's next
    is the one given just before it, and the one given first leads to the
    dispatcher, which has no next.  Each of them holds the identifier of
    the dispatcher. *)
Theorem handlers_run_in_reverse_registration_order
    (pid : PeerID) (hs : list Handler)
    (Hnd : NoDup hs) (Hd : ~ In Dispatcher hs) :
  let d := newPeerDispatcher pid hs in
  peerHandlers d = Dispatcher :: hs /\
  pipeline d = rev hs ++ [Dispatcher] /\
  last (peerHandlers d) = Some (default Dispatcher (last hs)) /\
  next (handlers d Dispatcher) = None /\
  (forall i a b, (Dispatcher :: hs) !! i = Some a -> hs !! i = Some b ->
                 next (handlers d b) = Some a) /\
  (forall h, In h (Dispatcher :: hs) -> self (handlers d h) = Some pid).
Proof.
  cbv zeta.
  set (d0 := registPeerHandler Dispatcher
               (setSelfPeerID Dispatcher (Some pid)
                  (mkPeerDispatcher (fun _ => newPeerHandler) [] ∅))).
  assert (Hnew : newPeerDispatcher pid hs = registPeerHandlers hs d0) by reflexivity.
  assert (H0 : peerHandlers d0 = [Dispatcher]) by reflexivity.
  assert (Hlink0 : linked d0 (peerHandlers d0)).
  { rewrite H0. intros i a b Ha Hb. destruct i; discriminate Hb. }
  assert (Hnd0 : NoDup (peerHandlers d0 ++ hs)).
  { rewrite H0. cbn. apply NoDup_cons. split; [|exact Hnd].
    intros Hin. apply Hd, list_elem_of_In, Hin. }
  destruct (registPeerHandlers_spec hs d0 ltac:(rewrite H0; discriminate) Hnd0
              ltac:(rewrite H0; left; reflexivity) Hlink0)
    as (Hp & Hm & Hl & Ho & Hs).
  rewrite <- Hnew in *. rewrite H0 in Hp. cbn [app] in Hp.
  set (d := newPeerDispatcher pid hs) in *.
  assert (HnextD : next (handlers d Dispatcher) = None).
  { rewrite (Ho Dispatcher Hd). reflexivity. }
  assert (Hlast : last (peerHandlers d) = Some (default Dispatcher (last hs))).
  { rewrite Hp. destruct hs as [|h hs'] using rev_ind; [reflexivity|].
    rewrite app_comm_cons, !last_snoc. reflexivity. }
  split; [exact Hp|].
  split.
  { unfold pipeline. rewrite Hlast.
    rewrite (stagesFrom_linked d (peerHandlers d) Hl); [rewrite Hp; reflexivity| |exact Hlast|lia].
    rewrite Hp. intros h0 Hh. injection Hh as <-. exact HnextD. }
  split; [exact Hlast|].
  split; [exact HnextD|].
  split.
  { intros i a b Ha Hb. apply (Hl i a b); rewrite Hp; [exact Ha|exact Hb]. }
  intros h [<-|Hin].
  - rewrite (Ho Dispatcher Hd). reflexivity.
  - rewrite (Hs h Hin). reflexivity.
Qed.

(** Three overlays' worth of handlers, registered in this order. *)
Lemma handlers_run_in_reverse_registration_order_witness :
  NoDup [ChannelNegotiator; Authenticator; Overlay "x"] /\
  ~ In Dispatcher [ChannelNegotiator; Authenticator; Overlay "x"] /\
  pipeline (newPeerDispatcher "hx01" [ChannelNegotiator; Authenticator; Overlay "x"])
  = [Overlay "x"; Authenticator; ChannelNegotiator; Dispatcher].
Proof.
  assert (Hnd : NoDup [ChannelNegotiator; Authenticator; Overlay "x"]).
  { repeat (apply NoDup_cons_2;
              [intros H; apply list_elem_of_In in H; cbn in H; intuition discriminate|]).
    apply NoDup_nil_2. }
  assert (Hd : ~ In Dispatcher [ChannelNegotiator; Authenticator; Overlay "x"]).
  { cbn. intros H. repeat (destruct H as [H|H]; try discriminate H). exact H. }
  split; [exact Hnd|]. split; [exact Hd|].
  exact (proj1 (proj2
           (handlers_run_in_reverse_registration_order "hx01"
              [ChannelNegotiator; Authenticator; Overlay "x"] Hnd Hd))).
Defined.

Lemma stagesFrom_same_handlers (d1 d : PeerDispatcher) (n : nat) (h : Handler) :
  handlers d1 = handlers d -> stagesFrom d1 n h = stagesFrom d n h.
Proof.
  intros H. revert h. induction n as [|n IH]; intros h; [reflexivity|].
  cbn [stagesFrom]. rewrite H. destruct (next (handlers d h)); [rewrite IH|];
    reflexivity.
Qed.

Lemma onPeer_with_overlay
    (d : PeerDispatcher) (p : Peer) (p2p : PeerToPeer) :
  p2pMap d !! channel p = Some p2p ->
  let r := PeerDispatcher_onPeer d p in
  let h := Overlay (p2pChannel p2p) in
  onPacket (after r) = Some (onPacketOf h) /\
  onError (after r) = Some (onErrorOf h) /\
  onClose (after r) = Some (onCloseOf h) /\
  last (events r) = Some (EvOnPeer h (after r)) /\
  closed (after r) = closed p /\ closeReason (after r) = closeReason p.
Proof.
  intros Hm. cbv zeta. unfold PeerDispatcher_onPeer.
  monad_simpl. rewrite Hm. monad_simpl.
  rewrite setPacketCbFunc_after.
  destruct p as [? ? ? ? ? ? ? ? ? ? o ? ? ? ?]; destruct o; cbn; repeat split.
Qed.

(** X9: overlays are kept by channel.  After [registPeerToPeer p2p], a peer
    of that channel is handed to [p2p] (its callbacks installed, its
    [onPeer] called, the peer not closed), whatever was registered for the
    channel before; for a peer of any other channel [onPeer] does exactly
    what it did before; and the handler chain is untouched. *)
Theorem registPeerToPeer_serves_its_channel_only
    (d : PeerDispatcher) (p2p : PeerToPeer) (p : Peer) :
  let d1 := registPeerToPeer p2p d in
  (channel p = p2pChannel p2p ->
   let r := PeerDispatcher_onPeer d1 p in
   let h := Overlay (p2pChannel p2p) in
   onPacket (after r) = Some (onPacketOf h) /\
   onError (after r) = Some (onErrorOf h) /\
   onClose (after r) = Some (onCloseOf h) /\
   last (events r) = Some (EvOnPeer h (after r)) /\
   closed (after r) = closed p /\ closeReason (after r) = closeReason p) /\
  (channel p <> p2pChannel p2p ->
   PeerDispatcher_onPeer d1 p = PeerDispatcher_onPeer d p) /\
  peerHandlers d1 = peerHandlers d /\ handlers d1 = handlers d /\
  pipeline d1 = pipeline d /\
  (forall p2p', p2pChannel p2p' = p2pChannel p2p ->
     registPeerToPeer p2p (registPeerToPeer p2p' d) = d1).
Proof.
  cbv zeta. split; [|split; [|split; [|split; [|split]]]]; try reflexivity.
  - intros Hc.
    pose proof (onPeer_with_overlay
                  (registPeerToPeer p2p d) p p2p) as H.
    apply H. cbn. rewrite Hc. apply lookup_insert_eq.
  - intros Hc. unfold PeerDispatcher_onPeer, bind, get. cbv beta iota.
    unfold registPeerToPeer. cbn [p2pMap].
    rewrite lookup_insert_ne by congruence. reflexivity.
  - unfold pipeline. cbn [registPeerToPeer peerHandlers].
    destruct (last (peerHandlers d)); [|reflexivity].
    apply stagesFrom_same_handlers. reflexivity.
  - intros p2p' Hc. unfold registPeerToPeer. cbn. rewrite Hc.
    rewrite insert_insert_eq. reflexivity.
Qed.

End RegisterProperties.

(** ** The close log *)

Section CloseLogProperties.

Import PeerLog.

Variable Error : error -> string.
Variable Sprintf_TV : error -> string.

Lemma closeCall_log (c : CloseCall) (p : Peer) :
  closeReason (after (closeCall c p)) = closeReason p ++ reasonsOf [c] /\
  closeErr (after (closeCall c p)) = closeErr p ++ errorsOf [c] /\
  (closed p <> 0%Z -> events (closeCall c p) = [] /\
                      closed (after (closeCall c p)) = closed p) /\
  (closed p = 0%Z -> countEv isCloseCb (events (closeCall c p)) = 1 /\
                     closed (after (closeCall c p)) = 1%Z).
Proof.
  destruct c as [reason|err]; cbn [closeCall reasonsOf errorsOf flat_map app];
    unfold Peer_Close, Peer_CloseByError, addCloseReason, addCloseError;
    monad_simpl; rewrite ?app_nil_r.
  - set (p1 := withCloseReason _ p).
    destruct (Peer__close_keeps_log p1) as (H1 & H2 & _).
    split; [rewrite H1; reflexivity|]. split; [rewrite H2; reflexivity|].
    split.
    + intros H. split; [apply Peer__close_events; exact H|].
      rewrite Peer__close_after. change (closed p1) with (closed p).
      destruct (closed p =? 0)%Z eqn:E; [apply Z.eqb_eq in E; contradiction|reflexivity].
    + intros H. split; [apply Peer__close_open_counts; exact H|].
      rewrite Peer__close_after. change (closed p1) with (closed p). rewrite H.
      reflexivity.
  - set (p1 := withCloseErr _ p).
    destruct (Peer__close_keeps_log p1) as (H1 & H2 & _).
    split; [rewrite H1; reflexivity|]. split; [rewrite H2; reflexivity|].
    split.
    + intros H. split; [apply Peer__close_events; exact H|].
      rewrite Peer__close_after. change (closed p1) with (closed p).
      destruct (closed p =? 0)%Z eqn:E; [apply Z.eqb_eq in E; contradiction|reflexivity].
    + intros H. split; [apply Peer__close_open_counts; exact H|].
      rewrite Peer__close_after. change (closed p1) with (closed p). rewrite H.
      reflexivity.
Qed.

Lemma reasonsOf_cons (c : CloseCall) (cs : list CloseCall) :
  reasonsOf (c :: cs) = reasonsOf [c] ++ reasonsOf cs.
Proof. unfold reasonsOf. cbn. rewrite app_nil_r. reflexivity. Qed.

Lemma errorsOf_cons (c : CloseCall) (cs : list CloseCall) :
  errorsOf (c :: cs) = errorsOf [c] ++ errorsOf cs.
Proof. unfold errorsOf. cbn. rewrite app_nil_r. reflexivity. Qed.

Lemma closeCalls_closed (cs : list CloseCall) (p : Peer) :
  closed p = 1%Z ->
  events (closeCalls cs p) = [] /\ closed (after (closeCalls cs p)) = 1%Z.
Proof.
  revert p. induction cs as [|c cs IH]; intros p H; [split; [reflexivity|exact H]|].
  cbn [closeCalls]. rewrite bind_events, bind_after.
  destruct (closeCall_log c p) as (_ & _ & Hc & _).
  destruct (Hc ltac:(lia)) as [He Hcl]. rewrite He.
  apply IH. congruence.
Qed.

Lemma closeCalls_log (cs : list CloseCall) (p : Peer) :
  closeReason (after (closeCalls cs p)) = closeReason p ++ reasonsOf cs /\
  closeErr (after (closeCalls cs p)) = closeErr p ++ errorsOf cs.
Proof.
  revert p. induction cs as [|c cs IH]; intros p.
  - cbn. rewrite !app_nil_r. split; reflexivity.
  - cbn [closeCalls]. rewrite bind_after.
    destruct (closeCall_log c p) as (H1 & H2 & _).
    destruct (IH (after (closeCall c p))) as [I1 I2].
    rewrite (reasonsOf_cons c cs), (errorsOf_cons c cs), I1, I2, H1, H2, <- !app_assoc.
    split; reflexivity.
Qed.

(** X10: every [Close] records its reason and every [CloseByError] its
    error, in call order, also on a peer that is closed already; only the
    first call on an open peer closes it and calls the close callback, and
    the later ones do nothing else than record. *)
Theorem close_log_records_every_call (cs : list CloseCall) (p : Peer) :
  let r := closeCalls cs p in
  closeReason (after r) = closeReason p ++ reasonsOf cs /\
  closeErr (after r) = closeErr p ++ errorsOf cs /\
  (closed p = 0%Z ->
   countEv isCloseCb (events r) = (if cs is [] then 0 else 1) /\
   closed (after r) = (if cs is [] then 0%Z else 1%Z)) /\
  (closed p = 1%Z -> events r = [] /\ closed (after r) = 1%Z).
Proof.
  cbv zeta.
  destruct (closeCalls_log cs p) as [H1 H2].
  split; [exact H1|]. split; [exact H2|]. split; [|apply closeCalls_closed].
  intros H0. destruct cs as [|c cs]; [split; [reflexivity|exact H0]|].
  cbn [closeCalls]. rewrite bind_events, bind_after, countEv_app.
  destruct (closeCall_log c p) as (_ & _ & _ & Hc).
  destruct (Hc H0) as [Hn Hcl].
  destruct (closeCalls_closed cs _ Hcl) as [He Hcl'].
  rewrite Hn, He, Hcl'. split; reflexivity.
Qed.

Lemma hasCloseErrorFrom_app (err : option error) (l1 l2 : list error) :
  hasCloseErrorFrom Error err (l1 ++ l2)
  = hasCloseErrorFrom Error err l1 || hasCloseErrorFrom Error err l2.
Proof.
  induction l1 as [|c l1 IH]; [reflexivity|].
  cbn [app hasCloseErrorFrom]. rewrite IH.
  destruct err as [e|]; [|reflexivity].
  destruct (bool_decide (c = e) || bool_decide (Error c = Error e)); reflexivity.
Qed.

(** X11: [HasCloseError] finds an error exactly when the close log holds
    it or an error with the same text; so it is true right after
    [CloseByError] of that error, stays true whatever is closed
    afterwards, is false on a peer that was only closed with reasons, and
    is always false for nil. *)
Theorem HasCloseError_finds_logged_errors (err : error) (p : Peer) :
  (HasCloseError Error (Some err) p = true <->
   exists cerr, In cerr (closeErr p) /\ (cerr = err \/ Error cerr = Error err)) /\
  HasCloseError Error (Some err) (after (Peer_CloseByError err p)) = true /\
  (forall cs, HasCloseError Error (Some err) p = true ->
              HasCloseError Error (Some err) (after (closeCalls cs p)) = true) /\
  (forall cs, closeErr p = [] -> errorsOf cs = [] ->
              HasCloseError Error (Some err) (after (closeCalls cs p)) = false) /\
  HasCloseError Error None p = false.
Proof.
  split; [|split; [|split; [|split]]].
  - unfold HasCloseError. induction (closeErr p) as [|c l IH]; cbn [hasCloseErrorFrom].
    + split; [discriminate|]. intros (c & [] & _).
    + destruct (bool_decide (c = err) || bool_decide (Error c = Error err)) eqn:E.
      * split; [|reflexivity]. intros _. exists c. split; [left; reflexivity|].
        apply orb_true_iff in E.
        destruct E as [E|E]; apply bool_decide_eq_true in E; auto.
      * rewrite IH. apply orb_false_iff in E. destruct E as [E1 E2].
        apply bool_decide_eq_false in E1, E2.
        split.
        -- intros (x & Hin & Hx). exists x. split; [right; exact Hin|exact Hx].
        -- intros (x & [->|Hin] & Hx); [tauto|]. exists x. split; assumption.
  - unfold HasCloseError. rewrite Peer_CloseByError_closeErr, hasCloseErrorFrom_app.
    cbn. rewrite bool_decide_eq_true_2 by reflexivity. cbn. apply orb_true_r.
  - intros cs H. unfold HasCloseError in *.
    destruct (closeCalls_log cs p) as (_ & He).
    rewrite He, hasCloseErrorFrom_app, H. reflexivity.
  - intros cs Hp Hcs. unfold HasCloseError.
    destruct (closeCalls_log cs p) as (_ & He).
    rewrite He, Hp, Hcs. reflexivity.
  - unfold HasCloseError. induction (closeErr p) as [|c l IH]; [reflexivity|exact IH].
Qed.

Lemma append_cons (x : ascii) (a b : string) :
  String.append (String x a) b = String x (String.append a b).
Proof. reflexivity. Qed.

Lemma append_nil_l (a : string) : String.append "" a = a.
Proof. reflexivity. Qed.

Lemma append_assoc (a b c : string) :
  String.append (String.append a b) c = String.append a (String.append b c).
Proof.
  induction a as [|x a IH]; [reflexivity|]. rewrite !append_cons, IH. reflexivity.
Qed.

Lemma append_empty_r (a : string) : String.append a "" = a.
Proof.
  induction a as [|x a IH]; [reflexivity|]. rewrite append_cons, IH. reflexivity.
Qed.

Ltac str_norm := rewrite ?append_assoc, ?append_nil_l, ?append_empty_r.

Lemma reasonLoop_concat (l : list string) (i : nat) (acc : string) :
  reasonLoop i l acc
  = String.append acc
      (String.append (match i, l with
                      | S _, _ :: _ => ","
                      | _, _ => ""
                      end)
                     (String.concat "," (map showReason l))).
Proof.
  revert i acc. induction l as [|s l IH]; intros i acc.
  - cbn [reasonLoop map String.concat]. destruct i; str_norm; reflexivity.
  - cbn [reasonLoop map]. rewrite IH. fold (showReason s).
    destruct l as [|s' l]; cbn [String.concat map]; destruct i; str_norm;
      reflexivity.
Qed.

Lemma closeErrLoop_concat (l : list error) (i : nat) (acc : string) :
  closeErrLoop Sprintf_TV i l acc
  = String.append acc
      (String.append (match i, l with
                      | S _, _ :: _ => ","
                      | _, _ => ""
                      end)
                     (String.concat "," (map (showError Sprintf_TV) l))).
Proof.
  revert i acc. induction l as [|e l IH]; intros i acc.
  - cbn [closeErrLoop map String.concat]. destruct i; str_norm; reflexivity.
  - cbn [closeErrLoop map]. rewrite IH. unfold showError at 2.
    destruct l as [|e' l]; cbn [String.concat map]; destruct i;
      destruct (isCloseError e); str_norm; reflexivity.
Qed.

(** X12: [CloseInfo] is "reason:[...],closeErr:[...]" with the reasons,
    each between double quotes, and the errors, each printed by
    [Sprintf] and marked CLOSED_ERR when [isCloseError] holds of it, in
    the order they were recorded and separated by commas; so it shows
    every call of [Close] and [CloseByError] made on the peer.  An
    [OpError] is a close error exactly when its text mentions a closed
    connection or a reset by the peer, whether temporary or not. *)
Theorem CloseInfo_lists_the_close_log (p : Peer) :
  CloseInfo Sprintf_TV p
  = String.append "reason:["
      (String.append (String.concat "," (map showReason (closeReason p)))
         (String.append "],closeErr:["
            (String.append
               (String.concat "," (map (showError Sprintf_TV) (closeErr p))) "]"))) /\
  (forall cs,
      CloseInfo Sprintf_TV (after (closeCalls cs p))
      = String.append "reason:["
          (String.append
             (String.concat "," (map showReason (closeReason p ++ reasonsOf cs)))
             (String.append "],closeErr:["
                (String.append
                   (String.concat ","
                      (map (showError Sprintf_TV) (closeErr p ++ errorsOf cs))) "]")))) /\
  (forall temporary text,
      isCloseError (OpError temporary text)
      = strings_Contains text "use of closed network connection"
        || strings_Contains text "connection reset by peer") /\
  isCloseError io_EOF = true /\ isCloseError io_ErrUnexpectedEOF = true /\
  isCloseError ErrNotAvailable = false.
Proof.
  assert (H : forall p, CloseInfo Sprintf_TV p
  = String.append "reason:["
      (String.append (String.concat "," (map showReason (closeReason p)))
         (String.append "],closeErr:["
            (String.append
               (String.concat "," (map (showError Sprintf_TV) (closeErr p))) "]")))).
  { intros x. unfold CloseInfo. rewrite reasonLoop_concat, closeErrLoop_concat.
    change "],closeErr:[" with (String.append "]," "closeErr:[").
    str_norm. reflexivity. }
  split; [apply H|]. split.
  - intros cs. rewrite H.
    destruct (closeCalls_log cs p) as (H1 & H2).
    rewrite H1, H2. reflexivity.
  - split; [|repeat split].
    intros temporary text. cbn.
    destruct (strings_Contains text _ || strings_Contains text _); reflexivity.
Qed.

End CloseLogProperties.

Example CloseInfo_example :
  PeerLog.CloseInfo (fun e => match e with
                              | IOError t => String.append "{*errors.errorString "
                                               (String.append t "}")
                              | _ => "{?}"
                              end)
    (after (PeerLog.closeCalls [CallClose "bye"; CallCloseByError PeerLog.io_EOF;
                                CallClose "again"] mainPeer))
  = String.append "reason:["
      (String.append PeerLog.quote (String.append "bye"
        (String.append PeerLog.quote (String.append ","
          (String.append PeerLog.quote (String.append "again"
            (String.append PeerLog.quote
               "],closeErr:[CLOSED_ERR{*errors.errorString EOF}]"))))))).
Proof. vm_compute. reflexivity. Qed.

(** ** The send routine *)

Section SendLoopProperties.

Import SendLoop.

Lemma popLevels_spec (lv : list (list Context)) :
  match popLevels lv with
  | (None, lv1) => concat lv = [] /\ concat lv1 = [] /\ length lv1 = length lv
  | (Some ctx, lv1) => concat lv = ctx :: concat lv1 /\ length lv1 = length lv
  end.
Proof.
  induction lv as [|fifo lv IH]; [repeat split|].
  destruct fifo as [|ctx fifo]; cbn [popLevels].
  - destruct (popLevels lv) as [[ctx|] lv1]; cbn in *.
    + destruct IH as [H1 H2]. split; [exact H1|]. rewrite H2. reflexivity.
    + destruct IH as (H1 & H2 & H3). repeat split; auto.
  - cbn. repeat split.
Qed.

(** [Pop] takes the head of what is queued and leaves the rest queued, in
    the same order and on the same number of levels. *)
Lemma Pop_spec (pq : PriorityQueue) :
  match Pop pq with
  | (None, pq1) => queued pq = [] /\ queued pq1 = []
  | (Some ctx, pq1) => queued pq = ctx :: queued pq1
  end /\
  levelSize (snd (Pop pq)) = levelSize pq /\
  length (levels (snd (Pop pq))) = length (levels pq).
Proof.
  unfold Pop, queued. pose proof (popLevels_spec (levels pq)) as H.
  destruct (popLevels (levels pq)) as [[ctx|] lv1]; cbn [fst snd levels levelSize].
  - destruct H as [H1 H2]. auto.
  - destruct H as (H1 & H2 & H3). auto.
Qed.

Lemma sendDirect_firstError (a : WriteAnswer) (pkt : Packet) :
  fst (sendDirect a pkt) = firstError a /\
  (firstError a = None ->
   snd (sendDirect a pkt) = [SetWriteDeadline; WritePacket pkt; Flush]) /\
  (firstError a <> None -> flushed (snd (sendDirect a pkt)) = []).
Proof.
  unfold sendDirect, firstError.
  destruct (deadlineErr a); [cbn; repeat split; try discriminate; auto|].
  destruct (writeErr a); [cbn; repeat split; try discriminate; auto|].
  destruct (flushErr a); cbn; repeat split; try discriminate; auto.
  intros H. contradiction.
Qed.

Lemma flushed_app_ok (pkt : Packet) (w : list Wire) :
  flushed ([SetWriteDeadline; WritePacket pkt; Flush] ++ w) = pkt :: flushed w.
Proof. reflexivity. Qed.

Lemma Contains_putAll_keeps (now h : Z) (l : list Context) (tp : TimestampPool) :
  Contains h tp = true -> Contains h (putAll now l tp) = true.
Proof.
  revert tp. induction l as [|ctx l IH]; intros tp H; [exact H|].
  cbn [putAll fold_left]. apply IH. unfold Contains, Put, TimestampPool in *.
  apply bool_decide_eq_true. apply bool_decide_eq_true in H.
  destruct (decide (hashOfPacket (ctxPacket ctx) = h)) as [->|Hne].
  - rewrite lookup_insert_eq. eexists. reflexivity.
  - rewrite lookup_insert_ne by exact Hne. exact H.
Qed.

Lemma Contains_putAll (now : Z) (l : list Context) (tp : TimestampPool) (ctx : Context) :
  In ctx l -> Contains (hashOfPacket (ctxPacket ctx)) (putAll now l tp) = true.
Proof.
  revert tp. induction l as [|c l IH]; intros tp Hin; [destruct Hin|].
  cbn [putAll fold_left]. destruct Hin as [->|Hin].
  - apply (Contains_putAll_keeps now _ l). apply Contains_Put.
  - apply (IH _ Hin).
Qed.

(** With answers that are all good the inner loop empties the queue,
    writes what was queued in queue order and puts every hash. *)
Lemma drain_all_ok (answer : nat -> WriteAnswer) (now : Z) :
  forall (ctxs : list Context) (fuel k : nat) (p : Peer),
    queued (q p) = ctxs -> length ctxs < fuel ->
    (forall j, k <= j < k + length ctxs -> firstError (answer j) = None) ->
    let d := drain fuel answer now k p in
    drainEnd d = QueueEmpty /\
    queued (q (drainPeer d)) = [] /\
    flushed (drainWire d) = map ctxPacket ctxs /\
    pool (drainPeer d) = putAll now ctxs (pool p) /\
    drainEvents d = [] /\
    closed (drainPeer d) = closed p /\ id (drainPeer d) = id p /\
    closeErr (drainPeer d) = closeErr p /\
    levelSize (q (drainPeer d)) = levelSize (q p) /\
    length (levels (q (drainPeer d))) = length (levels (q p)).
Proof.
  intros ctxs. induction ctxs as [|ctx ctxs IH]; intros fuel k p Hq Hf Hok; cbv zeta;
    (destruct fuel as [|fuel]; [cbn in Hf; lia|]); cbn [drain];
    destruct (Pop_spec (q p)) as (Hp & Hs & Hn);
    destruct (Pop (q p)) as [[c|] q1]; cbn [fst snd] in *; rewrite Hq in Hp.
  - discriminate Hp.
  - destruct Hp as [_ Hp]. cbn. repeat split; auto.
  - injection Hp as <- Hq1.
    destruct (sendDirect_firstError (answer k) (ctxPacket ctx)) as (He & Hw & _).
    rewrite (Hok k ltac:(cbn; lia)) in He. specialize (Hw (Hok k ltac:(cbn; lia))).
    destruct (sendDirect (answer k) (ctxPacket ctx)) as [e w]. cbn [fst snd] in *.
    subst e w. cbn [drainEnd drainPeer drainWire drainEvents].
    set (p2 := withPool _ (withQ q1 p)).
    assert (Hq2 : queued (q p2) = ctxs) by (symmetry; exact Hq1).
    destruct (IH fuel (S k) p2 Hq2 ltac:(cbn in Hf; lia)
                ltac:(intros j Hj; apply Hok; cbn; lia))
      as (H1 & H2 & H3 & H4 & H5 & H6 & H7 & H8 & H9 & H10).
    rewrite flushed_app_ok, H3, H4.
    repeat split; auto; try congruence.
    + rewrite H9. exact Hs.
    + rewrite H10. exact Hn.
  - destruct Hp as [Hp _]. discriminate Hp.
Qed.

(** X13: woken by the queue, with a connection that takes every write,
    the send routine writes the queued packets in queue order (level by
    level from priority 0, oldest first within a level), each followed by
    a flush, leaves the queue empty and the peer open as it was, and has
    put the hash of every written packet in the pool: the inner loop ends
    because [Pop] answers nil, never for lack of fuel. *)
Theorem sendRoutine_drains_in_queue_order
    (answer : nat -> WriteAnswer) (now : Z) (p : Peer)
    (Hok : forall j, j < length (queued (q p)) -> firstError (answer j) = None) :
  let r := sendRoutine [WakeQueue answer now] p in
  routineStatus r = Selecting /\
  flushed (routineWire r) = map ctxPacket (queued (q p)) /\
  queued (q (routinePeer r)) = [] /\
  (forall ctx, In ctx (queued (q p)) ->
               Contains (hashOfPacket (ctxPacket ctx)) (pool (routinePeer r)) = true) /\
  (forall h, Contains h (pool p) = true -> Contains h (pool (routinePeer r)) = true) /\
  closed (routinePeer r) = closed p /\ closeErr (routinePeer r) = closeErr p /\
  routineEvents r = [].
Proof.
  cbv zeta. cbn [sendRoutine].
  destruct (drain_all_ok answer now (queued (q p)) (S (length (queued (q p)))) 0 p
              eq_refl ltac:(lia) ltac:(intros j Hj; apply Hok; lia))
    as (H1 & H2 & H3 & H4 & H5 & H6 & H7 & H8 & _).
  rewrite H1. cbn [routineStatus routinePeer routineWire routineEvents].
  rewrite !app_nil_r, H4.
  repeat split; auto.
  - intros ctx Hin. apply Contains_putAll, Hin.
  - intros h Hh. apply Contains_putAll_keeps, Hh.
Qed.

(** The three packets queued on [peerWithQueue] leave in queue order. *)
Lemma sendRoutine_drains_in_queue_order_witness :
  (forall j, j < length (queued (q peerWithQueue)) ->
             firstError ((fun _ => writeOk) j) = None) /\
  flushed (routineWire (sendRoutine [WakeQueue (fun _ => writeOk) 100] peerWithQueue))
  = [packetB 1 3; packetB 2 3; packetB 3 4].
Proof.
  split; [reflexivity|].
  exact (proj1 (proj2
           (sendRoutine_drains_in_queue_order (fun _ => writeOk) 100 peerWithQueue
              (fun j _ => eq_refl)))).
Defined.

(** A write that fails ends the inner loop: what came before it was
    written, the failed packet is gone, the rest stays queued. *)
Lemma drain_fails (answer : nat -> WriteAnswer) (now : Z) (err : error)
    (ctx : Context) (post : list Context) :
  forall (pre : list Context) (fuel k : nat) (p : Peer),
    queued (q p) = pre ++ ctx :: post -> length pre < fuel ->
    (forall j, k <= j < k + length pre -> firstError (answer j) = None) ->
    firstError (answer (k + length pre)) = Some err ->
    let d := drain fuel answer now k p in
    exists p1,
      drainEnd d = WriteFailed err /\
      queued (q p1) = post /\ pool p1 = putAll now pre (pool p) /\
      closed p1 = closed p /\ closeErr p1 = closeErr p /\
      closeReason p1 = closeReason p /\ onClose p1 = onClose p /\
      drainPeer d = after (Peer_CloseByError err p1) /\
      flushed (drainWire d) = map ctxPacket pre /\
      drainEvents d = EvLog "Peer.sendRoutine Error" :: events (Peer_CloseByError err p1).
Proof.
  intros pre. induction pre as [|c0 pre IH]; intros fuel k p Hq Hf Hok Herr; cbv zeta;
    (destruct fuel as [|fuel]; [cbn in Hf; lia|]); cbn [drain];
    destruct (Pop_spec (q p)) as (Hp & Hs & Hn);
    destruct (Pop (q p)) as [[c|] q1]; cbn [fst snd] in *; rewrite Hq in Hp.
  2: { destruct Hp as [Hp0 Hp1]. discriminate Hp0. }
  3: { destruct Hp as [Hp0 Hp1]. discriminate Hp0. }
  - cbn [app] in Hp. injection Hp as <- Hq1.
    destruct (sendDirect_firstError (answer k) (ctxPacket ctx)) as (He & _ & Hw).
    replace (k + length (@nil Context)) with k in Herr by (cbn; lia).
    rewrite Herr in He. specialize (Hw ltac:(rewrite Herr; discriminate)).
    destruct (sendDirect (answer k) (ctxPacket ctx)) as [e w]. cbn [fst snd] in *.
    subst e. cbn [drainEnd drainPeer drainWire drainEvents].
    exists (withQ q1 p). repeat split; auto.
  - cbn [app] in Hp. injection Hp as <- Hq1.
    destruct (sendDirect_firstError (answer k) (ctxPacket c0)) as (He & Hw & _).
    rewrite (Hok k ltac:(cbn; lia)) in He. specialize (Hw (Hok k ltac:(cbn; lia))).
    destruct (sendDirect (answer k) (ctxPacket c0)) as [e w]. cbn [fst snd] in *.
    subst e w. cbn [drainEnd drainPeer drainWire drainEvents].
    set (p2 := withPool _ (withQ q1 p)).
    assert (Hq2 : queued (q p2) = pre ++ ctx :: post) by (symmetry; exact Hq1).
    destruct (IH fuel (S k) p2 Hq2 ltac:(cbn in Hf; lia)
                ltac:(intros j Hj; apply Hok; cbn; lia)
                ltac:(replace (S k + length pre) with (k + length (c0 :: pre))
                        by (cbn; lia); exact Herr))
      as (p1 & H1 & H2 & H3 & H4 & H5 & H6 & H7 & H8 & H9 & H10).
    exists p1. rewrite flushed_app_ok, H9.
    repeat split; auto.
Qed.

Lemma Peer_CloseByError_facts (err : error) (p : Peer) :
  let r := Peer_CloseByError err p in
  q (after r) = q p /\ pool (after r) = pool p /\
  closeReason (after r) = closeReason p /\
  (closed p = 0%Z -> IsClosed (after r) = true /\ countEv isCloseCb (events r) = 1).
Proof.
  cbv zeta. unfold Peer_CloseByError, addCloseError. monad_simpl.
  set (p2 := withCloseErr _ p).
  destruct (Peer__close_keeps_log p2) as (K1 & _ & _ & _ & _ & K6 & K7 & _).
  rewrite K1, K6, K7. repeat split.
  - apply Peer__close_IsClosed. left. exact H.
  - apply (Peer__close_open_counts p2 H).
Qed.

(** X14: a write that fails ends the send routine, whatever the error,
    temporary or not: the peer is closed by that error (close callback
    called once if the peer was open), the packets queued before the
    failed one were written, the failed packet is neither written nor
    queued any more, its hash is not put, the packets behind it stay in
    the queue, and nothing that would wake the routine later is looked
    at.  A signal on the close channel ends the routine as well, without
    touching the peer. *)
Theorem sendRoutine_write_error_closes
    (answer : nat -> WriteAnswer) (now : Z) (err : error) (p : Peer)
    (pre : list Context) (ctx : Context) (post : list Context) (rest : list Wakeup)
    (Hq : queued (q p) = pre ++ ctx :: post)
    (Hok : forall j, j < length pre -> firstError (answer j) = None)
    (Herr : firstError (answer (length pre)) = Some err) :
  let r := sendRoutine (WakeQueue answer now :: rest) p in
  routineStatus r = Returned_ /\
  flushed (routineWire r) = map ctxPacket pre /\
  queued (q (routinePeer r)) = post /\
  pool (routinePeer r) = putAll now pre (pool p) /\
  closeErr (routinePeer r) = closeErr p ++ [err] /\
  closeReason (routinePeer r) = closeReason p /\
  (closed p = 0%Z ->
   IsClosed (routinePeer r) = true /\ countEv isCloseCb (routineEvents r) = 1) /\
  sendRoutine (WakeClose :: rest) p = mkRoutine Returned_ p [] [].
Proof.
  cbv zeta. cbn [sendRoutine].
  destruct (drain_fails answer now err ctx post pre
              (S (length (queued (q p)))) 0 p Hq
              ltac:(rewrite Hq, length_app; cbn; lia)
              ltac:(intros j Hj; apply Hok; lia) Herr)
    as (p1 & H1 & H2 & H3 & H4 & H5 & H6 & H7 & H8 & H9 & H10).
  rewrite H1. cbn [routineStatus routinePeer routineWire routineEvents].
  rewrite H8, H10, Peer_CloseByError_closeErr, H5.
  destruct (Peer_CloseByError_facts err p1) as (K1 & K2 & K3 & K4).
  rewrite K1, K2, K3.
  split; [reflexivity|]. split; [exact H9|]. split; [exact H2|].
  split; [exact H3|]. split; [reflexivity|]. split; [exact H6|].
  split; [|reflexivity].
  intros H0. destruct (K4 ltac:(congruence)) as [K5 K6].
  split; [exact K5|]. cbn [countEv isCloseCb]. exact K6.
Qed.

(** The second of three queued packets meets a timeout, which
    [isTemporaryError] calls temporary. *)
Lemma sendRoutine_write_error_closes_witness :
  isTemporaryError timeout = true /\
  queued (q peerWithQueue) = [queuedCtx 1 3] ++ queuedCtx 2 3 :: [queuedCtx 3 4] /\
  IsClosed (routinePeer (sendRoutine [WakeQueue secondWriteTimesOut 100; WakeTick 101]
                                     peerWithQueue)) = true.
Proof.
  split; [reflexivity|]. split; [reflexivity|].
  refine (proj1 (proj1 (proj2 (proj2 (proj2 (proj2 (proj2 (proj2
            (sendRoutine_write_error_closes secondWriteTimesOut 100 timeout
               peerWithQueue [queuedCtx 1 3] (queuedCtx 2 3) [queuedCtx 3 4]
               [WakeTick 101] eq_refl _ eq_refl))))))) eq_refl)).
  intros j Hj. destruct j as [|j]; [reflexivity|cbn in Hj; lia].
Defined.







End SendLoopProperties.

(** ** Runs of requests *)

Section SessionProperties.

Import SyncSession.
Local Open Scope Z_scope.

Variables protoHasNode protoResult protoRequestNodeData protoNodeData : Sync.ProtocolInfo.
Variable reqIDBits : Z.
Variable MarshalToBytes : Sync.Message -> Sync.bytes.

Local Abbreviation request :=
  (SyncSession.request protoHasNode protoResult protoRequestNodeData
     protoNodeData reqIDBits MarshalToBytes).
Local Abbreviation requests :=
  (SyncSession.requests protoHasNode protoResult protoRequestNodeData
     protoNodeData reqIDBits MarshalToBytes).
Local Abbreviation M := (2 ^ reqIDBits).

Lemma request_spec (r : Request) (Unicast : Network) (p : Sync.peer) :
  let res := request r Unicast p in
  sentIDs res.2 = [(Sync.reqID p + 1) mod M] /\
  Sync.id res.1.2 = Sync.id p /\
  match res.1.1 with
  | Some _ => res.1.2 = p
  | None => Sync.reqID res.1.2 = (Sync.reqID p + 1) mod M /\
            Sync.timer res.1.2 <> None
  end.
Proof.
  cbv zeta. destruct r as [ws pr nr vh|hash t];
    unfold SyncSession.request, Sync.hasNode, Sync.requestNodeData, Sync.nextReqID;
    destruct (Unicast _ _ _); cbn; repeat split; discriminate.
Qed.

Lemma successes_nonneg (errs : list (option Sync.error)) : 0 <= successes errs.
Proof. induction errs as [|[e|] errs IH]; cbn [successes]; lia. Qed.

(** X16: request identifiers are handed out one by one.  Over any run of
    [hasNode] and [requestNodeData] calls on a peer, the message of each
    call carries the peer's [reqID] at the start of the run, plus one,
    plus the number of calls that succeeded before it (in the integer type
    of [reqID]); so a call that fails uses up no identifier and the next
    call sends the same one.  At the end [reqID] has grown by the number
    of successful calls and the peer is still the same peer. *)
Theorem request_ids_count_successes
    (rs : list (Request * Network)) (p : Sync.peer) :
  let res := requests rs p in
  let errs := res.1.1 in
  length errs = length rs /\
  Sync.id res.1.2 = Sync.id p /\
  Sync.reqID res.1.2
  = (if successes errs =? 0 then Sync.reqID p
     else (Sync.reqID p + successes errs) mod M) /\
  length (sentIDs res.2) = length rs /\
  (forall k, (k < length rs)%nat ->
     sentIDs res.2 !! k
     = Some ((Sync.reqID p + 1 + successes (take k errs)) mod M)) /\
  (forall k e, errs !! k = Some (Some e) -> (S k < length rs)%nat ->
     sentIDs res.2 !! S k = sentIDs res.2 !! k) /\
  (0 <= Sync.reqID p -> Sync.reqID p + successes errs < M ->
   Sync.reqID res.1.2 = Sync.reqID p + successes errs).
Proof.
  cbv zeta.
  assert (Hmain : forall rs p,
    let res := requests rs p in
    length res.1.1 = length rs /\
    Sync.id res.1.2 = Sync.id p /\
    Sync.reqID res.1.2
    = (if successes res.1.1 =? 0 then Sync.reqID p
       else (Sync.reqID p + successes res.1.1) mod M) /\
    length (sentIDs res.2) = length rs /\
    (forall k, (k < length rs)%nat ->
       sentIDs res.2 !! k
       = Some ((Sync.reqID p + 1 + successes (take k res.1.1)) mod M))).
  { clear rs p. intros rs. induction rs as [|[r U] rs IH]; intros p; cbv zeta.
    - cbn. repeat split. intros k Hk. lia.
    - cbn [SyncSession.requests].
      destruct (request_spec r U p) as (Hs & Hid & Hres).
      destruct (request r U p) as [[err p1] t1]. cbn [fst snd] in Hs, Hid, Hres.
      specialize (IH p1). cbv zeta in IH.
      destruct (requests rs p1) as [[errs p2] t2]. cbn [fst snd] in *.
      destruct IH as (I1 & I2 & I3 & I4 & I5).
      assert (Hsent : sentIDs (t1 ++ t2) = (Sync.reqID p + 1) mod M :: sentIDs t2).
      { clear -Hs. revert Hs. induction t1 as [|e t1 IHt]; intros Hs; [discriminate|].
        destruct e; cbn in *; try (apply IHt; exact Hs).
        injection Hs as Hm Hrest. rewrite Hm. f_equal.
        clear -Hrest. induction t1 as [|e t1 IHt]; [reflexivity|].
        destruct e; cbn in *; try (apply IHt; exact Hrest). discriminate. }
      rewrite Hsent. cbn [length successes].
      pose proof (successes_nonneg errs) as Hnn.
      split; [lia|]. split; [congruence|]. split; [|split; [lia|]].
      + destruct err as [e|].
        * subst p1. cbn [successes]. exact I3.
        * destruct Hres as [Hr _]. cbn [successes]. rewrite I3, Hr.
          destruct (Z.eqb_spec (1 + successes errs) 0) as [H0|H0]; [lia|].
          destruct (Z.eqb_spec (successes errs) 0) as [H1|H1].
          -- rewrite H1. f_equal; lia.
          -- rewrite Zplus_mod_idemp_l. f_equal; lia.
      + intros k Hk. rewrite lookup_cons. destruct k as [|k]; cbn [take successes].
        * f_equal. f_equal; lia.
        * rewrite (I5 k ltac:(lia)). f_equal.
          destruct err as [e|]; cbn [successes].
          -- subst p1. reflexivity.
          -- destruct Hres as [Hr _]. rewrite Hr.
             rewrite <- Z.add_assoc, Zplus_mod_idemp_l. f_equal; lia. }
  destruct (Hmain rs p) as (H1 & H2 & H3 & H4 & H5). cbv zeta in *.
  split; [exact H1|]. split; [exact H2|]. split; [exact H3|].
  split; [exact H4|]. split; [exact H5|]. split.
  - intros k e Hk Hlt. rewrite (H5 (S k) Hlt), (H5 k ltac:(lia)).
    f_equal. f_equal. f_equal.
    rewrite (take_S_r _ _ _ Hk).
    clear. induction (take k (requests rs p).1.1) as [|[x|] l IH]; cbn [app successes];
      [reflexivity|exact IH|rewrite IH; reflexivity].
  - intros H0 Hlt. rewrite H3.
    pose proof (successes_nonneg (requests rs p).1.1) as Hnn.
    destruct (Z.eqb_spec (successes (requests rs p).1.1) 0) as [Hz|Hz]; [lia|].
    apply Z.mod_small. lia.
Qed.

End SessionProperties.

(** ** The sample token *)

Section TokenProperties.

Import SampleToken.
Local Open Scope Z_scope.

Context {Address : Type} `{Countable Address}.

Lemma powLoop_spec (n : nat) (base result : Z) :
  powLoop n base result = result * base ^ Z.of_nat n.
Proof.
  revert result. induction n as [|n IH]; intros result.
  - cbn. lia.
  - cbn [powLoop]. rewrite IH, Nat2Z.inj_succ, Z.pow_succ_r by lia. lia.
Qed.

Lemma pow_spec (base exponent : Z) : pow base exponent = base ^ Z.max 0 exponent.
Proof.
  unfold pow. rewrite powLoop_spec.
  destruct (Z.le_gt_cases 0 exponent) as [Hle|Hlt].
  - rewrite Z2Nat.id, Z.max_r by lia. lia.
  - rewrite Z.max_l by lia.
    replace (Z.to_nat exponent) with O by lia. reflexivity.
Qed.

Lemma sumBalances_insert_absent (m : gmap Address Z) (a : Address) (x : Z)
      (n s : string) (d ts : Z) :
  m !! a = None ->
  sumBalances (mkToken n s d ts (<[a := x]> m)) = x + sumBalances (mkToken n s d ts m).
Proof.
  intros Hm. unfold sumBalances. cbn [balances].
  apply (map_fold_insert_L (fun (_ : Address) (v acc : Z) => v + acc)); [|exact Hm].
  intros. lia.
Qed.

Lemma sumBalances_insert (t : Token Address) (a : Address) (x : Z) :
  sumBalances (safeSetBalance a x t) = sumBalances t - safeGetBalance a t + x.
Proof.
  destruct t as [n s d ts m]. unfold safeSetBalance, withBalances, safeGetBalance.
  cbn [balances name symbol decimals totalSupply].
  destruct (m !! a) as [y|] eqn:E; cbn [default from_option Datatypes.id].
  - assert (Hm : sumBalances (mkToken n s d ts m) =
                 y + sumBalances (mkToken n s d ts (delete a m))).
    { rewrite <- (insert_delete_id m a y E) at 1.
      apply sumBalances_insert_absent, lookup_delete_eq. }
    rewrite <- (insert_delete_eq m a x).
    rewrite sumBalances_insert_absent by apply lookup_delete_eq. lia.
  - rewrite sumBalances_insert_absent by exact E. lia.
Qed.

Lemma safeGetBalance_set (t : Token Address) (a b : Address) (x : Z) :
  safeGetBalance b (safeSetBalance a x t) = if decide (a = b) then x else safeGetBalance b t.
Proof.
  unfold safeGetBalance, safeSetBalance, withBalances. cbn [balances].
  destruct (decide (a = b)) as [->|Hne].
  - rewrite lookup_insert_eq. reflexivity.
  - rewrite lookup_insert_ne by exact Hne. reflexivity.
Qed.

Lemma intValue_range (z : Z) : - 2 ^ 31 <= intValue z < 2 ^ 31.
Proof. unfold intValue. pose proof (Z.mod_pos_bound (z + 2 ^ 31) (2 ^ 32)). lia. Qed.

(** What [transfer] decides and does, in one place. *)
Lemma transfer_spec (chain : Chain Address) (a b : Address) (v : Z)
      (data : option bytes) (t : Token Address) :
  let ok := 0 <= v <= balanceOf a t /\
            (isContract chain b = true ->
             tokenFallback chain b a v (default [] data) = true) in
  (transfer chain a b v data t = None <-> ~ ok) /\
  forall t' ev, transfer chain a b v data t = Some (t', ev) ->
    ok /\
    t' = safeSetBalance b (safeGetBalance b t + v)
           (safeSetBalance a (safeGetBalance a t - v) t) /\
    ev = (if isContract chain b
          then [EvTokenFallback b a v (default [] data)] else []) ++
         [EvTransfer a b v (default [] data)].
Proof.
  cbv zeta. unfold transfer, balanceOf.
  replace (match data with Some d => d | None => [] end) with (default [] data)
    by (destruct data; reflexivity).
  destruct (0 <=? v) eqn:E1; cbn [negb];
    [apply Z.leb_le in E1|apply Z.leb_gt in E1].
  2: { split; [split; [lia|reflexivity]|discriminate]. }
  destruct (v <=? safeGetBalance a t) eqn:E2; cbn [negb];
    [apply Z.leb_le in E2|apply Z.leb_gt in E2].
  2: { split; [split; [lia|reflexivity]|discriminate]. }
  destruct (isContract chain b) eqn:E3.
  - destruct (tokenFallback chain b a v (default [] data)) eqn:E4.
    + split.
      * split; [discriminate|]. intros Hn. exfalso. apply Hn. auto.
      * intros t' ev [= <- <-]. repeat split; auto; lia.
    + split.
      * split; [|reflexivity]. intros _ [_ Hc]. specialize (Hc eq_refl). discriminate.
      * discriminate.
  - split.
    + split; [discriminate|]. intros Hn. exfalso. apply Hn.
      split; [lia|discriminate].
    + intros t' ev [= <- <-]. repeat split; auto; try lia; discriminate.
Qed.

(** X17: The constructor of [SampleToken] reverts unless the [int] value
    of [_decimals] is between 0 and 21 and [_initialSupply] is not
    negative.  When it succeeds, the token keeps the name and the symbol,
    its total supply is [_initialSupply] times ten to the power
    [decimals], the deployer holds all of it, everybody else holds
    nothing, and the balances add up to the total supply.  Only the low 32
    bits of [_decimals] count: adding a multiple of [2^32] to it changes
    nothing. *)
Theorem constructor_checks_and_mints (origin : Address) (_name _symbol : string)
        (_decimals _initialSupply : Z) :
  (newSampleToken origin _name _symbol _decimals _initialSupply = None <->
   ~ (0 <= intValue _decimals <= 21 /\ 0 <= _initialSupply)) /\
  (forall t, newSampleToken origin _name _symbol _decimals _initialSupply = Some t ->
     name t = _name /\ symbol t = _symbol /\
     decimals t = intValue _decimals /\
     totalSupply t = _initialSupply * 10 ^ decimals t /\
     balanceOf origin t = totalSupply t /\
     (forall a, a <> origin -> balanceOf a t = 0) /\
     sumBalances t = totalSupply t) /\
  (forall k, newSampleToken origin _name _symbol (_decimals + k * 2 ^ 32) _initialSupply =
             newSampleToken origin _name _symbol _decimals _initialSupply).
Proof.
  split; [|split].
  - unfold newSampleToken. cbv zeta.
    destruct (0 <=? intValue _decimals) eqn:E1; cbn [negb];
      [apply Z.leb_le in E1|apply Z.leb_gt in E1; split; [lia|reflexivity]].
    destruct (intValue _decimals <=? 21) eqn:E2; cbn [negb];
      [apply Z.leb_le in E2|apply Z.leb_gt in E2; split; [lia|reflexivity]].
    destruct (0 <=? _initialSupply) eqn:E3; cbn [negb];
      [apply Z.leb_le in E3|apply Z.leb_gt in E3; split; [lia|reflexivity]].
    split; [discriminate|]. intros Hn. exfalso. apply Hn. lia.
  - intros t. unfold newSampleToken. cbv zeta.
    destruct (0 <=? intValue _decimals) eqn:E1; cbn [negb]; [|discriminate].
    destruct (intValue _decimals <=? 21) eqn:E2; cbn [negb]; [|discriminate].
    destruct (0 <=? _initialSupply) eqn:E3; cbn [negb]; [|discriminate].
    apply Z.leb_le in E1, E2, E3.
    intros [= <-]. cbn [name symbol decimals totalSupply].
    set (ts := if 0 <? _initialSupply then _ else 0).
    assert (Hts : ts = _initialSupply * 10 ^ intValue _decimals).
    { subst ts. destruct (0 <? _initialSupply) eqn:E4.
      - rewrite pow_spec, Z.max_r by lia. lia.
      - apply Z.ltb_ge in E4. replace _initialSupply with 0 by lia. lia. }
    split; [reflexivity|]. split; [reflexivity|]. split; [reflexivity|].
    split; [exact Hts|]. split; [|split].
    + unfold balanceOf, safeGetBalance. cbn [balances].
      rewrite lookup_insert_eq. reflexivity.
    + intros a Ha. unfold balanceOf, safeGetBalance. cbn [balances].
      rewrite lookup_insert_ne by congruence. rewrite lookup_empty. reflexivity.
    + rewrite sumBalances_insert_absent by apply lookup_empty.
      unfold sumBalances. cbn [balances]. rewrite map_fold_empty. lia.
  - intros k. unfold newSampleToken, intValue.
    replace (_decimals + k * 2 ^ 32 + 2 ^ 31) with (_decimals + 2 ^ 31 + k * 2 ^ 32) by lia.
    rewrite Z.mod_add by lia. reflexivity.
Qed.

(** X18: [transfer] from [_from] to another address reverts exactly when
    the value is negative, or exceeds the balance of [_from], or the
    recipient is a contract whose [tokenFallback] fails.  Otherwise it
    takes the value from [_from], gives it to [_to], leaves every other
    balance, the sum of the balances and the total supply as they were,
    calls [tokenFallback] only on a contract, and logs one [Transfer]
    last, with empty data for a null [_data]. *)
Theorem transfer_moves_value (chain : Chain Address) (_from _to : Address)
        (_value : Z) (_data : option bytes) (t : Token Address)
        (Hne : _from <> _to) :
  (transfer chain _from _to _value _data t = None <->
   _value < 0 \/ balanceOf _from t < _value \/
   (isContract chain _to = true /\
    tokenFallback chain _to _from _value (default [] _data) = false)) /\
  forall t' ev, transfer chain _from _to _value _data t = Some (t', ev) ->
    balanceOf _from t' = balanceOf _from t - _value /\
    balanceOf _to t' = balanceOf _to t + _value /\
    (forall a, a <> _from -> a <> _to -> balanceOf a t' = balanceOf a t) /\
    sumBalances t' = sumBalances t /\
    totalSupply t' = totalSupply t /\
    ev = (if isContract chain _to
          then [EvTokenFallback _to _from _value (default [] _data)] else []) ++
         [EvTransfer _from _to _value (default [] _data)].
Proof.
  destruct (transfer_spec chain _from _to _value _data t) as [Hnone Hsome].
  cbv zeta in Hnone, Hsome. split.
  - rewrite Hnone. split.
    + intros Hn.
      destruct (Z.lt_ge_cases _value 0) as [?|H0]; [left; assumption|].
      destruct (Z.lt_ge_cases (balanceOf _from t) _value) as [?|H1];
        [right; left; assumption|].
      right; right.
      destruct (isContract chain _to) eqn:E3.
      * destruct (tokenFallback chain _to _from _value (default [] _data)) eqn:E4.
        -- exfalso. apply Hn. split; [lia|reflexivity].
        -- split; reflexivity.
      * exfalso. apply Hn. split; [lia|discriminate].
    + intros [Hv|[Hb|[Hc Hf]]] [Hr Hk]; try lia.
      specialize (Hk Hc). congruence.
  - intros t' ev Ht. destruct (Hsome t' ev Ht) as (Hok & -> & ->).
    unfold balanceOf. rewrite !safeGetBalance_set, !sumBalances_insert,
                        !safeGetBalance_set.
    destruct (decide (_to = _from)) as [E|_]; [congruence|].
    destruct (decide (_from = _from)) as [_|E]; [|congruence].
    destruct (decide (_to = _to)) as [_|E]; [|congruence].
    destruct (decide (_from = _to)) as [E|_]; [congruence|].
    split; [reflexivity|]. split; [reflexivity|]. split.
    { intros a Ha Hb. rewrite !safeGetBalance_set.
      destruct (decide (_to = a)) as [E|_]; [congruence|].
      destruct (decide (_from = a)) as [E|_]; [congruence|]. reflexivity. }
    split; [lia|]. split; reflexivity.
Qed.

(** X19: [transfer] reads both balances before it writes either.  A
    transfer of an address to itself that does not revert therefore ends
    with the balance raised by the value: the second write, of the old
    balance plus the value, replaces the first.  The sum of the balances
    rises by the value while the total supply stays. *)
Theorem transfer_to_self_adds_value (chain : Chain Address) (a : Address)
        (_value : Z) (_data : option bytes) (t : Token Address) :
  (transfer chain a a _value _data t = None <->
   ~ (0 <= _value <= balanceOf a t /\
      (isContract chain a = true ->
       tokenFallback chain a a _value (default [] _data) = true))) /\
  forall t' ev, transfer chain a a _value _data t = Some (t', ev) ->
    balanceOf a t' = balanceOf a t + _value /\
    (forall b, b <> a -> balanceOf b t' = balanceOf b t) /\
    sumBalances t' = sumBalances t + _value /\
    totalSupply t' = totalSupply t.
Proof.
  destruct (transfer_spec chain a a _value _data t) as [Hnone Hsome].
  cbv zeta in Hnone, Hsome. split; [exact Hnone|].
  intros t' ev Ht. destruct (Hsome t' ev Ht) as (Hok & -> & _).
  unfold balanceOf. rewrite !sumBalances_insert, !safeGetBalance_set.
  destruct (decide (a = a)) as [_|E]; [|congruence].
  split; [reflexivity|]. split.
  { intros b Hb. rewrite !safeGetBalance_set.
    destruct (decide (a = b)) as [E|_]; [congruence|]. reflexivity. }
  split; [lia|reflexivity].
Qed.

Example self_transfer_mints :
  let '(t', _) := call plainChain (mkCall alice alice 500 None) deployed in
  balanceOf alice deployed = 500 /\ balanceOf alice t' = 1000 /\
  totalSupply t' = 500.
Proof. vm_compute. repeat split. Qed.

Lemma call_invariant (chain : Chain Address) (c : Call Address) (t : Token Address) :
  (forall a, 0 <= balanceOf a t) ->
  (forall a, 0 <= balanceOf a (fst (call chain c t))) /\
  totalSupply (fst (call chain c t)) = totalSupply t /\
  decimals (fst (call chain c t)) = decimals t /\
  sumBalances t <= sumBalances (fst (call chain c t)) /\
  (callFrom c <> callTo c -> sumBalances (fst (call chain c t)) = sumBalances t).
Proof.
  intros Hpos. unfold call.
  destruct (transfer_spec chain (callFrom c) (callTo c) (callValue c) (callData c) t)
    as [_ Hsome]. cbv zeta in Hsome.
  destruct (transfer chain (callFrom c) (callTo c) (callValue c) (callData c) t)
    as [[t' ev]|] eqn:E; cbn [fst].
  2: { repeat split; auto; lia. }
  destruct (Hsome t' ev eq_refl) as ((Hv & _) & -> & _).
  unfold balanceOf in *.
  split.
  { intros a. rewrite !safeGetBalance_set.
    pose proof (Hpos (callTo c)). pose proof (Hpos a).
    destruct (decide (callTo c = a)); [lia|].
    destruct (decide (callFrom c = a)); [subst; lia|]. lia. }
  split; [reflexivity|]. split; [reflexivity|].
  rewrite !sumBalances_insert, !safeGetBalance_set.
  destruct (decide (callFrom c = callTo c)) as [E1|E1].
  - rewrite E1 in Hv |- *. split; [lia|]. intros; contradiction.
  - split; [lia|]. intros _. lia.
Qed.

Lemma calls_invariant (chain : Chain Address) (cs : list (Call Address))
      (t : Token Address) :
  (forall a, 0 <= balanceOf a t) ->
  (forall a, 0 <= balanceOf a (fst (calls chain cs t))) /\
  totalSupply (fst (calls chain cs t)) = totalSupply t /\
  decimals (fst (calls chain cs t)) = decimals t /\
  sumBalances t <= sumBalances (fst (calls chain cs t)) /\
  (Forall (fun c => callFrom c <> callTo c) cs ->
   sumBalances (fst (calls chain cs t)) = sumBalances t).
Proof.
  revert t. induction cs as [|c cs IH]; intros t Hpos.
  - cbn. repeat split; auto; lia.
  - cbn [calls].
    destruct (call_invariant chain c t Hpos) as (H1 & H2 & H3 & H4 & H5).
    destruct (call chain c t) as [t1 e1] eqn:E1. cbn [fst] in *.
    destruct (IH t1 H1) as (I1 & I2 & I3 & I4 & I5).
    destruct (calls chain cs t1) as [t2 e2] eqn:E2. cbn [fst] in *.
    split; [exact I1|]. split; [congruence|]. split; [congruence|].
    split; [lia|]. intros Hall.
    inversion Hall as [|c' cs' Hc Hcs]; subst.
    rewrite (I5 Hcs). exact (H5 Hc).
Qed.

(** X20: From deployment on, whatever calls of [transfer] are made and
    whichever of them revert: no balance is ever negative, the total
    supply and the decimals stay as deployed, and the balances add up to
    at least the total supply; they add up to exactly the total supply as
    long as nobody transfers to their own address. *)
Theorem balances_after_any_transfers (chain : Chain Address) (origin : Address)
        (_name _symbol : string) (_decimals _initialSupply : Z)
        (cs : list (Call Address)) :
  forall t, newSampleToken origin _name _symbol _decimals _initialSupply = Some t ->
    let t' := fst (calls chain cs t) in
    (forall a, 0 <= balanceOf a t') /\
    totalSupply t' = totalSupply t /\
    decimals t' = decimals t /\
    totalSupply t' <= sumBalances t' /\
    (Forall (fun c => callFrom c <> callTo c) cs -> sumBalances t' = totalSupply t').
Proof.
  intros t Ht. cbv zeta.
  assert (Hinit : (forall a, 0 <= balanceOf a t) /\ sumBalances t = totalSupply t).
  { revert Ht. unfold newSampleToken. cbv zeta.
    destruct (0 <=? intValue _decimals) eqn:E1; cbn [negb]; [|discriminate].
    destruct (intValue _decimals <=? 21) eqn:E2; cbn [negb]; [|discriminate].
    destruct (0 <=? _initialSupply) eqn:E3; cbn [negb]; [|discriminate].
    apply Z.leb_le in E1, E2, E3. intros [= <-].
    set (ts := if 0 <? _initialSupply then _ else 0).
    assert (Hts : 0 <= ts).
    { subst ts. destruct (0 <? _initialSupply) eqn:E4; [|lia].
      apply Z.ltb_lt in E4. rewrite pow_spec.
      apply Z.mul_nonneg_nonneg; [apply Z.pow_nonneg|]; lia. }
    split.
    - intros a. unfold balanceOf, safeGetBalance. cbn [balances].
      destruct (decide (origin = a)) as [->|Hne].
      + rewrite lookup_insert_eq. exact Hts.
      + rewrite lookup_insert_ne by exact Hne. rewrite lookup_empty. cbn. lia.
    - rewrite sumBalances_insert_absent by apply lookup_empty.
      unfold sumBalances. cbn [balances totalSupply]. rewrite map_fold_empty. lia. }
  destruct Hinit as [Hpos Hsum].
  destruct (calls_invariant chain cs t Hpos) as (I1 & I2 & I3 & I4 & I5).
  split; [exact I1|]. split; [exact I2|]. split; [exact I3|].
  split; [lia|]. intros Hall. rewrite I5 by exact Hall. lia.
Qed.

End TokenProperties.

Section TokenExamples.

Import SampleToken.
Local Open Scope Z_scope.

(** [alice] sends 200 of her 500 to [bob]. *)
Lemma transfer_moves_value_witness :
  alice <> bob /\
  forall t' ev, transfer plainChain alice bob 200 None deployed = Some (t', ev) ->
    balanceOf alice t' = balanceOf alice deployed - 200 /\
    balanceOf bob t' = balanceOf bob deployed + 200 /\
    (forall a, a <> alice -> a <> bob -> balanceOf a t' = balanceOf a deployed) /\
    sumBalances t' = sumBalances deployed /\
    totalSupply t' = totalSupply deployed /\
    ev = [EvTransfer alice bob 200 []].
Proof.
  assert (Hne : alice <> bob) by discriminate.
  split; [exact Hne|].
  exact (proj2 (transfer_moves_value plainChain alice bob 200 None deployed Hne)).
Defined.

(** [alice] deploys, pays [bob], and [bob] pays some of it back. *)
Lemma balances_after_any_transfers_witness :
  newSampleToken alice "Sample" "ST" 2 5 = Some deployed /\
  totalSupply deployed <=
  sumBalances (fst (calls plainChain [mkCall alice bob 200 None; mkCall bob alice 50 None]
                          deployed)).
Proof.
  assert (Hd : newSampleToken alice "Sample" "ST" 2 5 = Some deployed) by reflexivity.
  split; [exact Hd|].
  pose proof (balances_after_any_transfers plainChain alice "Sample" "ST" 2 5
                [mkCall alice bob 200 None; mkCall bob alice 50 None] deployed Hd) as Hw.
  cbv zeta in Hw. destruct Hw as (_ & Ht & _ & Hs & _).
  rewrite <- Ht. exact Hs.
Defined.

End TokenExamples.
